(** * pdfminer.six image export: a shallow embedding of [pdfminer/image.py]

    The development follows the Python module top to bottom.  Byte strings
    are lists of [Byte.byte]; the file system, the log of decoded streams
    and raised exceptions are threaded through a small state-and-exception
    monad; the collaborators that image.py imports but that are not part of
    the module (Pillow, [pdfminer.jbig2], the literal tables of
    [pdfminer.pdftypes]) are section variables. *)

From Stdlib Require Import ZArith NArith QArith String Ascii List Lia.
From Stdlib Require Import Qround Qabs Qpower Lqa.
From Stdlib Require Import Strings.Byte.
From Stdlib Require Import DecimalString DecimalNat DecimalFacts.
From stdpp Require Import base option list gmap strings.

Local Open Scope N_scope.

Abbreviation bytes := (list byte).

(** ** Big-endian unsigned integers, as [struct.pack(">B"/">H"/">L")] lays
    them out. *)

Definition byte_of_N (n : N) : byte :=
  match Byte.of_N (n mod 256) with
  | Some b => b
  | None => x00
  end.

Fixpoint be_encode (width : nat) (n : N) : bytes :=
  match width with
  | O => []
  | S w => be_encode w (n / 256) ++ [byte_of_N n]
  end.

Definition be_decode (bs : bytes) : N :=
  fold_left (fun acc b => acc * 256 + Byte.to_N b) bs 0.

(** [bs.rstrip(b"\n")]: [bs] without the newline bytes at its end. *)
Fixpoint rstrip_newlines (bs : bytes) : bytes :=
  match bs with
  | [] => []
  | b :: rest =>
    match rstrip_newlines rest with
    | [] => if Byte.eqb b x0a then [] else [b]
    | rest' => b :: rest'
    end
  end.

(** ** The segment container ([pdfminer.jbig2]) *)

Module JBIG2.

Inductive Error :=
| MalformedSegmentHeader
| CorruptSegmentCount
| UnsupportedSegmentLength.

(** The count-and-retention field of a segment header, in the form it was
    read: one byte (count in the top three bits, five retention bits), or
    the four-byte count followed by a retention bitmask. *)
Inductive Retention :=
| RetainShort (flags5 : N)
| RetainLong (bitmask : bytes).

Record Segment := {
  number : N;
  seg_type : N;
  page_assoc_long : bool;
  retention : Retention;
  referred : list N;
  page_association : N;
  payload : bytes
}.

(** A reader over the unread rest of the buffer. *)
Definition Parser (A : Type) : Type := bytes -> Error + (A * bytes).

Definition pret {A} (a : A) : Parser A := fun buf => inr (a, buf).

Definition pfail {A} (e : Error) : Parser A := fun _ => inl e.

Definition pbind {A B} (p : Parser A) (k : A -> Parser B) : Parser B :=
  fun buf =>
    match p buf with
    | inl e => inl e
    | inr (a, rest) => k a rest
    end.

#[global] Instance parser_ret : MRet Parser := @pret.
#[global] Instance parser_bind : MBind Parser :=
  fun A B k p => pbind p k.

(** Reading [n] bytes past the end of the buffer is a malformed header. *)
Definition read_bytes (n : nat) : Parser bytes :=
  fun buf =>
    if (n <=? length buf)%nat then inr (firstn n buf, skipn n buf)
    else inl MalformedSegmentHeader.

Definition read_uint (width : nat) : Parser N :=
  bs ← read_bytes width; pret (be_decode bs).

(** Look at the next byte without consuming it. *)
Definition peek_uint8 : Parser N :=
  fun buf =>
    match buf with
    | b :: _ => inr (Byte.to_N b, buf)
    | [] => inl MalformedSegmentHeader
    end.

Fixpoint read_many {A} (count : nat) (p : Parser A) : Parser (list A) :=
  match count with
  | O => pret []
  | S c => x ← p; xs ← read_many c p; pret (x :: xs)
  end.

(** Width of one referred-to segment number, decided by the number of the
    segment that refers. *)
Definition ref_size (seg_number : N) : nat :=
  if seg_number <=? 256 then 1%nat
  else if seg_number <=? 65536 then 2%nat
  else 4%nat.

Definition page_size (long : bool) : nat := if long then 4%nat else 1%nat.

(** ceil((count + 1) / 8) *)
Definition retention_bytes (count : N) : nat := N.to_nat ((count + 1 + 7) / 8).

Definition UNKNOWN_LENGTH : N := 4294967295.
Definition REF_COUNT_LONG : N := 7.
Definition REF_COUNT_LONG_MASK : N := 536870911.
Definition LONG_FORM_TAG : N := 3758096384.

Section Container.

(** Modelled from the spec: [pdfminer/jbig2.py] is not among the sources.
    The file identifier and the file flags byte are named by the spec but
    their values are not given, and neither is the rule by which a long-form
    bitmask is "inconsistent with the declared count"; the three are kept
    abstract. *)
Variable FILE_HEADER_ID : bytes.
Variable FILE_HEADER_FLAGS : byte.
Variable bitmask_consistent : N -> bytes -> bool.

(** Modelled from the spec: step 3 of the header parse, the referred-to
    segment count and the retention flags, in short or long form. *)
Definition parse_retention : Parser (N * Retention) :=
  b ← peek_uint8;
  if negb (N.shiftr b 5 =? REF_COUNT_LONG) then
    read_bytes 1 ;;
    pret (N.shiftr b 5, RetainShort (N.land b 31))
  else
    v ← read_uint 4;
    let count := N.land v REF_COUNT_LONG_MASK in
    mask ← read_bytes (retention_bytes count);
    if bitmask_consistent count mask then pret (count, RetainLong mask)
    else pfail CorruptSegmentCount.

(** Modelled from the spec: one segment, header steps 1 to 7 of the
    SegmentReader. *)
Definition parse_segment : Parser Segment :=
  num ← read_uint 4;
  flags ← read_uint 1;
  cr ← parse_retention;
  refs ← read_many (N.to_nat (fst cr)) (read_uint (ref_size num));
  page ← read_uint (page_size (N.testbit flags 6));
  len ← read_uint 4;
  if len =? UNKNOWN_LENGTH then pfail UnsupportedSegmentLength
  else
    data ← read_bytes (N.to_nat len);
    pret {| number := num;
            seg_type := N.land flags 63;
            page_assoc_long := N.testbit flags 6;
            retention := snd cr;
            referred := refs;
            page_association := page;
            payload := data |}.

(** Modelled from the spec: "repeated until the buffer is exhausted".  Each
    segment takes at least one byte, so the length of the buffer bounds the
    number of rounds. *)
Fixpoint parse_segments (rounds : nat) (buf : bytes) : Error + list Segment :=
  match buf with
  | [] => inr []
  | _ :: _ =>
    match rounds with
    | O => inl MalformedSegmentHeader
    | S r =>
      match parse_segment buf with
      | inl e => inl e
      | inr (s, rest) =>
        match parse_segments r rest with
        | inl e => inl e
        | inr ss => inr (s :: ss)
        end
      end
    end
  end.

Definition get_segments (buf : bytes) : Error + list Segment :=
  parse_segments (length buf) buf.

(** Modelled from the spec: input assembly of the SegmentReader; the
    trailing newline bytes of the globals stream are dropped, the per-image
    stream is taken as it is. *)
Definition assemble (globals : option bytes) (image : bytes) : bytes :=
  match globals with
  | Some g => rstrip_newlines g ++ image
  | None => image
  end.

Definition readSegments (globals : option bytes) (image : bytes)
  : Error + list Segment :=
  get_segments (assemble globals image).

(** Modelled from the spec: the SegmentWriter re-serialises each header with
    the widths and values that were read and copies the payload. *)
Definition encode_flags (s : Segment) : N :=
  seg_type s + (if page_assoc_long s then 64 else 0).

Definition encode_retention (s : Segment) : bytes :=
  match retention s with
  | RetainShort flags5 =>
    be_encode 1 (N.of_nat (length (referred s)) * 32 + flags5)
  | RetainLong mask =>
    be_encode 4 (LONG_FORM_TAG + N.of_nat (length (referred s))) ++ mask
  end.

Definition encode_segment (s : Segment) : bytes :=
  be_encode 4 (number s)
  ++ be_encode 1 (encode_flags s)
  ++ encode_retention s
  ++ concat (map (be_encode (ref_size (number s))) (referred s))
  ++ be_encode (page_size (page_assoc_long s)) (page_association s)
  ++ be_encode 4 (N.of_nat (length (payload s)))
  ++ payload s.

Definition write_segments (segments : list Segment) : bytes :=
  concat (map encode_segment segments).

Definition writeContainer (segments : list Segment) : bytes :=
  FILE_HEADER_ID ++ [FILE_HEADER_FLAGS] ++ write_segments segments.

(** Modelled from the spec: a well-formed segment, one whose fields fit
    the header of 4.3, with the widths written out: a 4-byte number, a type
    of six bits, five retention bits and a count of 0 to 4 in the short
    form, a count below 2^29 and a bitmask of ceil((count + 1) / 8) bytes
    in the long form, referred-to numbers of 1, 2 or 4 bytes by the number
    of the segment, a page association of 1 or 4 bytes, and a data length
    that is not the reserved value. *)
Definition wf_retention (s : Segment) : Prop :=
  match retention s with
  | RetainShort flags5 =>
    flags5 < 32 /\ (length (referred s) <= 4)%nat
  | RetainLong mask =>
    N.of_nat (length (referred s)) < 2 ^ 29
    /\ N.of_nat (length mask) = (N.of_nat (length (referred s)) + 1 + 7) / 8
    /\ bitmask_consistent (N.of_nat (length (referred s))) mask = true
  end.

Definition wf_segment (s : Segment) : Prop :=
  number s < 2 ^ 32
  /\ seg_type s < 64
  /\ wf_retention s
  /\ Forall (fun r => if number s <=? 256 then r < 2 ^ 8
                      else if number s <=? 65536 then r < 2 ^ 16
                      else r < 2 ^ 32)
       (referred s)
  /\ (if page_assoc_long s then page_association s < 2 ^ 32
      else page_association s < 2 ^ 8)
  /\ N.of_nat (length (payload s)) < 2 ^ 32 - 1.

(** Modelled from the spec: the bytes of one segment as 4.3 lays them out,
    steps 1 to 7, with the widths written out; [reserved] is bit 7 of the
    flags byte, which the reader ignores. *)
Definition wire (s : Segment) (reserved : bool) : bytes :=
  be_encode 4 (number s)
  ++ [byte_of_N (seg_type s + (if page_assoc_long s then 64 else 0)
                 + (if reserved then 128 else 0))]
  ++ match retention s with
     | RetainShort flags5 =>
       [byte_of_N (32 * N.of_nat (length (referred s)) + flags5)]
     | RetainLong mask =>
       be_encode 4 (7 * 2 ^ 29 + N.of_nat (length (referred s))) ++ mask
     end
  ++ concat (map (fun r => if number s <=? 256 then be_encode 1 r
                           else if number s <=? 65536 then be_encode 2 r
                           else be_encode 4 r)
               (referred s))
  ++ (if page_assoc_long s then be_encode 4 (page_association s)
      else be_encode 1 (page_association s))
  ++ be_encode 4 (N.of_nat (length (payload s)))
  ++ payload s.

End Container.

End JBIG2.

(** ** The host: exceptions, files, streams *)

Inductive Exn :=
| PDFValueError (msg : string)
| ImportError (msg : string)
| UnboundLocalError (variable : string)
| ZeroDivisionError
| OverflowError
| KeyError (key : string)
| FileExistsError
| FileNotFoundError
| NotADirectoryError
| IsADirectoryError
| PILError (msg : string)
| JBIG2Error (e : JBIG2.Error).

Inductive Result (A : Type) :=
| Ok (a : A)
| Raise (e : Exn).
Arguments Ok {A} a.
Arguments Raise {A} e.

(** A path is the list of its components; the empty list is the directory
    that relative paths start from, which always exists. *)
Abbreviation filepath := (list string).

Inductive node :=
| Dir
| File (content : bytes).

(** What a call can change: the files, and which streams had their data
    decoded ([PDFStream.get_data]), by object id, oldest first. *)
Record World := {
  fs : gmap filepath node;
  decoded : list N
}.

Definition M (A : Type) : Type := World -> Result A * World.

#[global] Instance M_ret : MRet M := fun A a w => (Ok a, w).
#[global] Instance M_bind : MBind M :=
  fun A B k c w =>
    match c w with
    | (Ok a, w') => k a w'
    | (Raise e, w') => (Raise e, w')
    end.

Definition raise {A} (e : Exn) : M A := fun w => (Raise e, w).

Definition set_fs (files : gmap filepath node) (w : World) : World :=
  {| fs := files; decoded := decoded w |}.

Definition node_at (files : gmap filepath node) (p : filepath) : option node :=
  match p with
  | [] => Some Dir
  | _ :: _ => files !! p
  end.

Definition exists_in (files : gmap filepath node) (p : filepath) : bool :=
  match node_at files p with
  | Some _ => true
  | None => false
  end.

Definition os_path_exists (p : filepath) : M bool :=
  fun w => (Ok (exists_in (fs w) p), w).

(** A file name of one path component: it holds no separator and no NUL,
    and with 200 characters at most it leaves room for an index and an
    extension within the 255 that file systems take.  With a [/] in it a
    name reaches into another directory, and an absolute one leaves the
    directory it is joined to. *)
Fixpoint plain_characters (s : string) : bool :=
  match s with
  | EmptyString => true
  | String c rest =>
    negb (Ascii.eqb c "/") && negb (Ascii.eqb c "000") && plain_characters rest
  end.

Definition one_component (s : string) : bool :=
  plain_characters s && (String.length s <=? 200)%nat.

(** [os.path.join(dir, name)] for a [name] that is one component
    ([one_component]), as the names of image resources are: the path of
    the entry [name] of [dir].  For other names the path that Python
    builds is not this one. *)
Definition os_path_join (dir : filepath) (name : string) : filepath := dir ++ [name].

Definition os_mkdir (p : filepath) : M unit :=
  fun w =>
    match node_at (fs w) p with
    | Some _ => (Raise FileExistsError, w)
    | None =>
      match node_at (fs w) (removelast p) with
      | Some Dir => (Ok tt, set_fs (<[p := Dir]> (fs w)) w)
      | Some (File _) => (Raise NotADirectoryError, w)
      | None => (Raise FileNotFoundError, w)
      end
    end.

Definition except_FileExistsError_pass (c : M unit) : M unit :=
  fun w =>
    match c w with
    | (Raise FileExistsError, w') => (Ok tt, w')
    | r => r
    end.

(** [os.makedirs]: make the missing parents first, then the leaf. *)
Fixpoint makedirs_rec (depth : nat) (name : filepath) : M unit :=
  match depth with
  | O => os_mkdir name
  | S d =>
    let head := removelast name in
    head_exists ← os_path_exists head;
    (if negb (bool_decide (head = [])) && negb head_exists
     then except_FileExistsError_pass (makedirs_rec d head)
     else mret tt) ;;
    os_mkdir name
  end.

Definition os_makedirs (name : filepath) : M unit :=
  makedirs_rec (length name) name.

(** [open(path, "wb")]: creates the file or truncates it. *)
Definition open_wb (p : filepath) : M unit :=
  fun w =>
    match node_at (fs w) p with
    | Some Dir => (Raise IsADirectoryError, w)
    | _ =>
      match node_at (fs w) (removelast p) with
      | Some Dir => (Ok tt, set_fs (<[p := File []]> (fs w)) w)
      | Some (File _) => (Raise NotADirectoryError, w)
      | None => (Raise FileNotFoundError, w)
      end
    end.

Definition append_content (data : bytes) (n : node) : node :=
  match n with
  | File content => File (content ++ data)
  | Dir => Dir
  end.

(** [fp.write(data)] on the file opened at [fp]. *)
Definition fp_write (fp : filepath) (data : bytes) : M unit :=
  fun w => (Ok tt, set_fs (alter (append_content data) fp (fs w)) w).

(** The part of [pdftypes.PDFStream] that image.py touches. *)
Record StreamObj := {
  objid : N;
  rawdata : bytes
}.

Record PDFObjRef := {
  resolve : StreamObj
}.

Record PDFStream := {
  body : StreamObj;
  get_filters : list (string * gmap string PDFObjRef)
}.

Definition get_data (s : StreamObj) : M bytes :=
  fun w => (Ok (rawdata s), {| fs := fs w; decoded := decoded w ++ [objid s] |}).

Record LTImage := {
  name : string;
  stream : PDFStream;
  srcsize : Z * Z;
  bits : Z
}.

(** *** Python floats

    A [float] is a binary64 value, here the rational it is, an infinity or
    a NaN.  The two zeros and the two infinities are not told apart: the
    code divides floats and compares the result with 1, 3 and 4, and
    neither sees the difference. *)
Inductive pyfloat :=
| Finite (q : Q)
| Infinity
| NaN.

(** The integer nearest to [x], the even one of two that are equally
    near. *)
Definition round_half_even (x : Q) : Z :=
  let f := Qfloor x in
  match Qcompare (x - inject_Z f) (1 # 2) with
  | Lt => f
  | Gt => (f + 1)%Z
  | Eq => if Z.even f then f else (f + 1)%Z
  end.

(** floor(log2 |x|), for [x] other than 0. *)
Definition ilog2 (x : Q) : Z :=
  let l := (Z.log2 (Z.abs (Qnum x)) - Z.log2 (Zpos (Qden x)))%Z in
  if Qle_bool (2 ^ l) (Qabs x) then l else (l - 1)%Z.

(** Rounding to binary64, to nearest and ties to even: 53 significant
    bits, the exponent of the last one not below -1074, and an infinity
    from 2^1024 on. *)
Definition binary64 (x : Q) : pyfloat :=
  if Qeq_bool x 0 then Finite 0
  else
    let e := Z.max (ilog2 x) (-1022) in
    let ulp := (2 ^ (e - 52))%Q in
    let rounded := (inject_Z (round_half_even (x / ulp)) * ulp)%Q in
    if Qle_bool (2 ^ 1024) (Qabs rounded) then Infinity else Finite rounded.

(** [a / b] on two [int]s: the quotient rounded once, [OverflowError] when
    it is too large for a float. *)
Definition int_truediv (a b : Z) : M pyfloat :=
  if (b =? 0)%Z then raise ZeroDivisionError
  else
    match binary64 (inject_Z a / inject_Z b) with
    | Finite q => mret (Finite q)
    | _ => raise OverflowError
    end.

(** [float(a)] as [/] converts an [int] operand: [OverflowError] when [a]
    is too large. *)
Definition float_of_int (a : Z) : M pyfloat :=
  match binary64 (inject_Z a) with
  | Finite q => mret (Finite q)
  | _ => raise OverflowError
  end.

(** [a / b] on two [float]s: a zero divisor raises, an overflow gives an
    infinity. *)
Definition float_truediv (a b : pyfloat) : M pyfloat :=
  match b with
  | Finite qb =>
    if Qeq_bool qb 0 then raise ZeroDivisionError
    else
      match a with
      | Finite qa => mret (binary64 (qa / qb))
      | other => mret other
      end
  | Infinity =>
    match a with
    | Finite _ => mret (Finite 0)
    | _ => mret NaN
    end
  | NaN => mret NaN
  end.

(** [a / b] on a [float] and an [int]: the [int] is converted first. *)
Definition float_truediv_int (a : pyfloat) (b : Z) : M pyfloat :=
  b' ← float_of_int b;
  float_truediv a b'.

(** [a == k] on a [float] and an [int]: the values are compared as they
    are. *)
Definition float_eq_int (a : pyfloat) (k : Z) : bool :=
  match a with
  | Finite q => Qeq_bool q (inject_Z k)
  | _ => false
  end.

(** ["%d" % n] *)
Definition format_d (n : nat) : string := NilEmpty.string_of_uint (Nat.to_uint n).

Definition lift_pil {A} (r : string + A) : M A :=
  match r with
  | inl msg => raise (PILError msg)
  | inr a => mret a
  end.

Definition lift_jbig2 {A} (r : JBIG2.Error + A) : M A :=
  match r with
  | inl e => raise (JBIG2Error e)
  | inr a => mret a
  end.

(** ** The vocabulary of the specification *)

Inductive FilterKind :=
| DCT_family
| JPX_family
| JBIG2_family
| Other.

Inductive Strategy :=
| RawBitmap
| PassthroughJPEG
| PassthroughJPEG2000
| JBIG2Transcode.

Inductive PixelFormat :=
| Bilevel
| Grayscale
| RGB
| CMYK.

(** The Pillow mode string of a pixel format. *)
Definition mode_of (f : PixelFormat) : string :=
  match f with
  | Bilevel => "1"
  | Grayscale => "L"
  | RGB => "RGB"
  | CMYK => "CMYK"
  end.

(** ** [class ImageWriter] *)

Definition PIL_ERROR_MESSAGE : string :=
  "Could not import Pillow. This dependency of pdfminer.six is not installed by default. You need it to to save JPEG2000 and PNG images to a file. Install it with `pip install 'pdfminer.six[image]'`".

Record ImageWriter := {
  outdir : filepath
}.

Definition __init__ (dir : filepath) : M ImageWriter :=
  dir_exists ← os_path_exists dir;
  (if negb dir_exists then os_makedirs dir else mret tt) ;;
  mret {| outdir := dir |}.

(** The [while os.path.exists(path)] loop of [_create_unique_image_name].
    Every pass moves to a path not tried before, so a directory tree of n
    entries ends the loop within n + 1 passes; [passes] is that bound. *)
Fixpoint unique_name_loop (passes : nat) (self : ImageWriter) (image : LTImage)
    (ext : string) (current_name : string) (current_path : filepath)
    (img_index : nat) : M (string * filepath) :=
  taken ← os_path_exists current_path;
  if (taken : bool) then
    match passes with
    | O => mret (current_name, current_path)
    | S rest =>
      let name := (image.(name) +:+ "." +:+ format_d img_index +:+ ext)%string in
      let path := os_path_join self.(outdir) name in
      unique_name_loop rest self image ext name path (S img_index)
    end
  else mret (current_name, current_path).

Definition _create_unique_image_name (self : ImageWriter) (image : LTImage)
    (ext : string) : M (string * filepath) :=
  fun w =>
    let name := (image.(name) +:+ ext)%string in
    let path := os_path_join self.(outdir) name in
    unique_name_loop (S (size (fs w))) self image ext name path 0 w.

Section Collaborators.

(** The literal tables of [pdfminer.pdftypes], by filter name. *)
Variables LITERALS_DCT_DECODE LITERALS_JBIG2_DECODE LITERALS_JPX_DECODE
  : list string.

(** Pillow: whether [from PIL import Image] succeeds, and the three calls
    made on it.  A failing call reports its message. *)
Variable PIL_installed : bool.
Variable PILImage : Type.
Variable Image_open : bytes -> string + PILImage.
Variable Image_frombytes : string -> Z * Z -> bytes -> string -> string + PILImage.
(** [img.save(fp, format)]: the bytes written to [fp]; without a format
    Pillow takes it from the name of the file. *)
Variable Image_save : PILImage -> string -> option string -> string + bytes.

(** [JBIG2StreamReader(stream).get_segments()] and
    [JBIG2StreamWriter(fp).write_file(segments)]. *)
Variable get_segments : bytes -> JBIG2.Error + list JBIG2.Segment.
Variable write_file : list JBIG2.Segment -> bytes.

Definition import_PIL_Image : M unit :=
  if PIL_installed then mret tt else raise (ImportError PIL_ERROR_MESSAGE).

Definition basename (p : filepath) : string := default ""%string (last p).

Definition _save_jpeg (self : ImageWriter) (image : LTImage) : M string :=
  data ← get_data image.(stream).(body);
  '(name, path) ← _create_unique_image_name self image ".jpg";
  open_wb path ;;
  fp_write path data ;;
  mret name.

Definition _save_jpeg2000 (self : ImageWriter) (image : LTImage) : M string :=
  data ← get_data image.(stream).(body);
  '(name, path) ← _create_unique_image_name self image ".jp2";
  open_wb path ;;
  import_PIL_Image ;;
  i ← lift_pil (Image_open data);
  out ← lift_pil (Image_save i (basename path) (Some "JPEG2000"%string));
  fp_write path out ;;
  mret name.

(** The [for filter_name, params in filters] loop of [_save_jbig2]. *)
Fixpoint collect_global_streams (filters : list (string * gmap string PDFObjRef))
    (global_streams : list StreamObj) : M (list StreamObj) :=
  match filters with
  | [] => mret global_streams
  | (filter_name, params) :: rest =>
    if bool_decide (filter_name ∈ LITERALS_JBIG2_DECODE) then
      match params !! "JBIG2Globals"%string with
      | Some ref => collect_global_streams rest (global_streams ++ [resolve ref])
      | None => raise (KeyError "JBIG2Globals")
      end
    else collect_global_streams rest global_streams
  end.

Definition GLOBALS_MESSAGE : string :=
  "There should never be more than one JBIG2Globals associated with a JBIG2 embedded image".

Definition _save_jbig2 (self : ImageWriter) (image : LTImage) : M string :=
  '(name, path) ← _create_unique_image_name self image ".jb2";
  open_wb path ;;
  let input_stream : bytes := [] in
  global_streams ← collect_global_streams image.(stream).(get_filters) [];
  if (1 <? length global_streams)%nat then raise (PDFValueError GLOBALS_MESSAGE)
  else
    input_stream ←
      match global_streams with
      | [globals] =>
        globals_data ← get_data globals;
        mret (input_stream ++ rstrip_newlines globals_data)
      | _ => mret input_stream
      end;
    image_data ← get_data image.(stream).(body);
    let input_stream := input_stream ++ image_data in
    segments ← lift_jbig2 (get_segments input_stream);
    fp_write path (write_file segments) ;;
    mret name.

(** The [if]/[elif] chain of [_save_bytes]; [None] is [mode] left unbound. *)
Definition select_mode (bits : Z) (channels : pyfloat) : option string :=
  if (bits =? 1)%Z then Some "1"%string
  else if (bits =? 8)%Z && float_eq_int channels 1 then Some "L"%string
  else if (bits =? 8)%Z && float_eq_int channels 3 then Some "RGB"%string
  else if (bits =? 8)%Z && float_eq_int channels 4 then Some "CMYK"%string
  else None.

(** [len(data) / width / height / (bits / 8)], left to right, the quotient
    in brackets just before the last division. *)
Definition channel_count (len : nat) (width height bits : Z) : M pyfloat :=
  per_width ← int_truediv (Z.of_nat len) width;
  per_pixel ← float_truediv_int per_width height;
  bytes_per_component ← int_truediv bits 8;
  float_truediv per_pixel bytes_per_component.

Definition _save_bytes (self : ImageWriter) (image : LTImage) : M string :=
  '(name, path) ← _create_unique_image_name self image ".png";
  let '(width, height) := image.(srcsize) in
  data ← get_data image.(stream).(body);
  channels ← channel_count (length data) width height image.(bits);
  open_wb path ;;
  import_PIL_Image ;;
  match select_mode image.(bits) channels with
  | None => raise (UnboundLocalError "mode")
  | Some mode =>
    data ← get_data image.(stream).(body);
    img ← lift_pil (Image_frombytes mode image.(srcsize) data "raw");
    out ← lift_pil (Image_save img (basename path) None);
    fp_write path out ;;
    mret name
  end.

Fixpoint _is_jbig2_iamge_loop (filters : list (string * gmap string PDFObjRef)) : bool :=
  match filters with
  | [] => false
  | (filter_name, params) :: rest =>
    if bool_decide (filter_name ∈ LITERALS_JBIG2_DECODE) then true
    else _is_jbig2_iamge_loop rest
  end.

Definition _is_jbig2_iamge (image : LTImage) : bool :=
  _is_jbig2_iamge_loop image.(stream).(get_filters).

Definition export_image (self : ImageWriter) (image : LTImage) : M string :=
  let filters := image.(stream).(get_filters) in
  match last filters with
  | None => _save_bytes self image
  | Some (last_name, _) =>
    if bool_decide (last_name ∈ LITERALS_DCT_DECODE) then _save_jpeg self image
    else if bool_decide (last_name ∈ LITERALS_JPX_DECODE) then _save_jpeg2000 self image
    else if _is_jbig2_iamge image then _save_jbig2 self image
    else _save_bytes self image
  end.

(** The ExportClassifier in the words of the specification: a filter name
    has a kind when the table of that kind lists it, and [Other] when no
    table does. *)
Definition has_kind (k : FilterKind) (filter_name : string) : bool :=
  match k with
  | DCT_family => bool_decide (filter_name ∈ LITERALS_DCT_DECODE)
  | JPX_family => bool_decide (filter_name ∈ LITERALS_JPX_DECODE)
  | JBIG2_family => bool_decide (filter_name ∈ LITERALS_JBIG2_DECODE)
  | Other =>
    negb (bool_decide (filter_name ∈ LITERALS_DCT_DECODE))
    && negb (bool_decide (filter_name ∈ LITERALS_JPX_DECODE))
    && negb (bool_decide (filter_name ∈ LITERALS_JBIG2_DECODE))
  end.

Definition last_has_kind (k : FilterKind)
    (filterChain : list (string * gmap string PDFObjRef)) : bool :=
  match last filterChain with
  | Some entry => has_kind k (fst entry)
  | None => false
  end.

Definition classify (filterChain : list (string * gmap string PDFObjRef))
  : Strategy :=
  match filterChain with
  | [] => RawBitmap
  | _ :: _ =>
    if last_has_kind DCT_family filterChain then PassthroughJPEG
    else if last_has_kind JPX_family filterChain then PassthroughJPEG2000
    else if existsb (fun entry => has_kind JBIG2_family (fst entry)) filterChain
    then JBIG2Transcode
    else RawBitmap
  end.

Definition export_by (s : Strategy) (self : ImageWriter) (image : LTImage)
  : M string :=
  match s with
  | RawBitmap => _save_bytes self image
  | PassthroughJPEG => _save_jpeg self image
  | PassthroughJPEG2000 => _save_jpeg2000 self image
  | JBIG2Transcode => _save_jbig2 self image
  end.

(** What [_save_jbig2] does once its input is assembled. *)
Definition transcode (input : bytes) (chosen : string) (p : filepath)
    (files : gmap filepath node) (w : World) : Result string * World :=
  match get_segments input with
  | inl e => (Raise (JBIG2Error e), w)
  | inr segments => (Ok chosen, set_fs (<[p := File (write_file segments)]> files) w)
  end.

End Collaborators.

(** ** Reading the model *)

(** The world after the streams [ids] had their data decoded. *)
Definition logged (ids : list N) (w : World) : World :=
  {| fs := fs w; decoded := decoded w ++ ids |}.

(** The name tried at index [i]: ["%s.%d%s" % (image.name, i, ext)]. *)
Definition indexed_name (base ext : string) (i : nat) : string :=
  base +:+ "." +:+ format_d i +:+ ext.

(** The name that [_create_unique_image_name] assigns in a world. *)
Definition assigned_name (self : ImageWriter) (image : LTImage) (ext : string)
    (w : World) : string :=
  match fst (_create_unique_image_name self image ext w) with
  | Ok (chosen, _) => chosen
  | Raise _ => ""
  end.

Definition assigned_path (self : ImageWriter) (image : LTImage) (ext : string)
    (w : World) : filepath :=
  os_path_join self.(outdir) (assigned_name self image ext w).

(** The output directory is there, as [__init__] leaves it. *)
Definition usable (self : ImageWriter) (w : World) : Prop :=
  node_at (fs w) self.(outdir) = Some Dir.

(** The files form a tree: whatever exists lies in a directory. *)
Definition tree (files : gmap filepath node) : bool :=
  forallb (fun entry =>
             match node_at files (removelast (fst entry)) with
             | Some Dir => true
             | _ => false
             end)
          (map_to_list files).

Definition is_file (o : option node) : bool :=
  match o with
  | Some (File _) => true
  | _ => false
  end.

(** No component on the way to [dir] is a regular file, so the operating
    system lets [dir] be made. *)
Definition creatable (files : gmap filepath node) (dir : filepath) : bool :=
  forallb (fun n => negb (is_file (node_at files (take n dir))))
          (seq 0 (S (length dir))).

(** The extension of each strategy's file. *)
Definition extension (s : Strategy) : string :=
  match s with
  | RawBitmap => ".png"
  | PassthroughJPEG => ".jpg"
  | PassthroughJPEG2000 => ".jp2"
  | JBIG2Transcode => ".jb2"
  end.

(** The RawBitmapReconstructor in the words of the specification:
    [len(bytes) / width / height / (bitsPerComponent / 8)] as an exact
    rational, and the table from (bitsPerComponent, channelCount) to the
    pixel format; [None] is "any other combination". *)
Definition channelCount (image : LTImage) : Q :=
  (inject_Z (Z.of_nat (length image.(stream).(body).(rawdata)))
   / inject_Z (fst image.(srcsize))
   / inject_Z (snd image.(srcsize))
   / (inject_Z image.(bits) / 8))%Q.

Definition is_integer (q : Q) : bool := (Qden (Qred q) =? 1)%positive.

(** What line 123 of [_save_bytes] gives for an image, the channel count
    as a float or the exception of a division; the files and the log play
    no part in it. *)
Definition channels_outcome (image : LTImage) : Result pyfloat :=
  fst (channel_count (length image.(stream).(body).(rawdata))
         (fst image.(srcsize)) (snd image.(srcsize)) image.(bits)
         {| fs := ∅; decoded := [] |}).

(** Sizes as images have them: width, height and bits per component
    positive and below 2^32, and fewer than 2^50 bytes of data.  Within
    them no division overflows, and the float that [_save_bytes] computes
    is 1, 3 or 4 exactly when the channel count of the specification
    is. *)
Definition plausible_sizes (image : LTImage) : Prop :=
  (0 < fst image.(srcsize) < 2 ^ 32)%Z
  /\ (0 < snd image.(srcsize) < 2 ^ 32)%Z
  /\ (0 < image.(bits) < 2 ^ 32)%Z
  /\ (Z.of_nat (length image.(stream).(body).(rawdata)) < 2 ^ 50)%Z.

Definition pixel_format (bitsPerComponent : Z) (channels : Q)
  : option PixelFormat :=
  if (bitsPerComponent =? 1)%Z then Some Bilevel
  else if (bitsPerComponent =? 8)%Z then
    if Qeq_bool channels 1 then Some Grayscale
    else if Qeq_bool channels 3 then Some RGB
    else if Qeq_bool channels 4 then Some CMYK
    else None
  else None.

(** The globals reference that a filter entry carries, if it carries one. *)
Definition globals_reference (entry : string * gmap string PDFObjRef)
  : option PDFObjRef :=
  snd entry !! "JBIG2Globals"%string.

(** Which entry of the output directory a failed export leaves at the path
    it was assigned: nothing when the exception precedes [open], an empty
    file when it is raised inside the [with open(...)] block. *)
Definition left_behind (e : Exn) : option node :=
  match e with
  | ZeroDivisionError | OverflowError | FileExistsError | FileNotFoundError
  | NotADirectoryError | IsADirectoryError => None
  | _ => Some (File [])
  end.

(** ** [pdfminer/encodingdb.py] *)

Module encodingdb.

(** The exceptions of this module: [PDFKeyError] is a [KeyError];
    [ValueError] and [OverflowError] come from [int] and [chr].
    [RecursionDepth] marks a recursion deeper than the model follows; the
    code never gets there (see [name2unicode_depth]). *)
Inductive Error :=
| PDFKeyError (msg : string)
| ValueError
| OverflowError
| RecursionDepth.

(** A Python [str] result: its code points. *)
Abbreviation ustring := (list Z).

(** [s.split(sep)] for a separator of one character. *)
Fixpoint str_split (sep : ascii) (s : string) : list string :=
  match s with
  | EmptyString => [EmptyString]
  | String c rest =>
    if Ascii.eqb c sep then EmptyString :: str_split sep rest
    else match str_split sep rest with
         | first :: others => String c first :: others
         | [] => [String c EmptyString]
         end
  end.

Definition is_in (chars : list ascii) (c : ascii) : bool :=
  existsb (Ascii.eqb c) chars.

Fixpoint lstrip (chars : list ascii) (s : string) : string :=
  match s with
  | EmptyString => EmptyString
  | String c rest => if is_in chars c then lstrip chars rest else s
  end.

Fixpoint rstrip (chars : list ascii) (s : string) : string :=
  match s with
  | EmptyString => EmptyString
  | String c rest =>
    match rstrip chars rest with
    | EmptyString => if is_in chars c then EmptyString else String c EmptyString
    | kept => String c kept
    end
  end.

(** [s.strip(chars)]: without the characters of [chars] at either end. *)
Definition strip (chars : list ascii) (s : string) : string :=
  rstrip chars (lstrip chars s).

Fixpoint startswith (s prefix : string) : bool :=
  match prefix, s with
  | EmptyString, _ => true
  | String p prefix', String c s' => Ascii.eqb c p && startswith s' prefix'
  | String _ _, EmptyString => false
  end.

Definition is_hex (c : ascii) : bool :=
  let n := N_of_ascii c in
  ((48 <=? n) && (n <=? 57)) || ((97 <=? n) && (n <=? 102))
  || ((65 <=? n) && (n <=? 70)).

(** [HEXADECIMAL.match(s)] for [HEXADECIMAL = re.compile("[0-9a-fA-F]+")]:
    [match] looks at the start of [s] only. *)
Definition HEXADECIMAL_match (s : string) : bool :=
  match s with
  | String c _ => is_hex c
  | EmptyString => false
  end.

(** [[s[i : i + 4] for i in range(0, len(s), 4)]] *)
Fixpoint chunks4 (s : string) : list string :=
  match s with
  | EmptyString => []
  | String a (String b (String c (String d rest))) =>
    String a (String b (String c (String d EmptyString))) :: chunks4 rest
  | short => [short]
  end.

(** [chr(i)]: one code point for 0 .. 0x10FFFF, [ValueError] outside, and
    [OverflowError] when [i] does not fit a C int. *)
Definition chr (i : Z) : Error + ustring :=
  if ((i <? -2147483648) || (2147483647 <? i))%Z then inl OverflowError
  else if ((0 <=? i) && (i <=? 1114111))%Z then inr [i]
  else inl ValueError.

(** ["%d" % i] *)
Definition format_int (i : Z) : string :=
  if (i <? 0)%Z then "-" +:+ format_d (Z.to_nat (- i)) else format_d (Z.to_nat i).

Definition raise_key_error_for_invalid_unicode (unicode_digit : Z)
  : Error + unit :=
  if ((55295 <? unicode_digit) && (unicode_digit <? 57344))%Z then
    inl (PDFKeyError ("Unicode digit " +:+ format_int unicode_digit
                      +:+ " is invalid because it is in the range D800 through DFFF"))
  else inr tt.

Definition double_quote : string := String (ascii_of_nat 34) EmptyString.

Definition does_not_match (name : string) : Error :=
  PDFKeyError ("Could not convert unicode name " +:+ double_quote +:+ name
               +:+ double_quote
               +:+ " to character because it does not match specification").

(** Sequencing of raising computations. *)
Definition ebind {A B} (r : Error + A) (k : A -> Error + B) : Error + B :=
  match r with
  | inl e => inl e
  | inr a => k a
  end.

(** [[f(x) for x in l]], stopping at the first exception. *)
Fixpoint each {A B} (f : A -> Error + B) (l : list A) : Error + list B :=
  match l with
  | [] => inr []
  | x :: rest =>
    ebind (f x) (fun y => ebind (each f rest) (fun ys => inr (y :: ys)))
  end.

Section Tables.

(** [pdfminer.glyphlist.glyphname2unicode], which is not among the
    sources. *)
Variable glyphname2unicode : gmap string ustring.

(** Python's [int(s, 16)]; [None] is its [ValueError]. *)
Variable int16 : string -> option Z.

Definition int_base16 (s : string) : Error + Z :=
  match int16 s with
  | Some i => inr i
  | None => inl ValueError
  end.

Fixpoint name2unicode_rec (depth : nat) (name : string) : Error + ustring :=
  let name := hd EmptyString (str_split "." name) in
  let components := str_split "_" name in
  if (1 <? length components)%nat then
    match depth with
    | O => inl RecursionDepth
    | S d =>
      ebind (each (name2unicode_rec d) components)
            (fun parts => inr (concat parts))
    end
  else
    match glyphname2unicode !! name with
    | Some characters => inr characters
    | None =>
      if startswith name "uni" then
        let name_without_uni := strip ["u"; "n"; "i"]%char name in
        if HEXADECIMAL_match name_without_uni
           && (String.length name_without_uni mod 4 =? 0)%nat then
          ebind (each int_base16 (chunks4 name_without_uni))
            (fun unicode_digits =>
               ebind (each raise_key_error_for_invalid_unicode unicode_digits)
                 (fun _ =>
                    ebind (each chr unicode_digits)
                      (fun characters => inr (concat characters))))
        else inl (does_not_match name)
      else if startswith name "u" then
        let name_without_u := strip ["u"]%char name in
        if HEXADECIMAL_match name_without_u
           && (4 <=? String.length name_without_u)%nat
           && (String.length name_without_u <=? 6)%nat then
          ebind (int_base16 name_without_u)
            (fun unicode_digit =>
               ebind (raise_key_error_for_invalid_unicode unicode_digit)
                 (fun _ => chr unicode_digit))
        else inl (does_not_match name)
      else inl (does_not_match name)
    end.

(** A component of a compound name holds neither [_] nor [.], so one level
    of recursion is all the code ever uses. *)
Definition name2unicode (name : string) : Error + ustring :=
  name2unicode_rec 1 name.

(** [cid2unicode_from_encoding]: [KeyError] and [ValueError] are caught
    and the entry is skipped ([log.debug] leaves no trace here); anything
    else goes on to the caller. *)
Definition cid2unicode_step (acc : Error + gmap Z ustring)
    (entry : Z * string) : Error + gmap Z ustring :=
  ebind acc (fun cid2unicode =>
    match name2unicode (snd entry) with
    | inr characters => inr (<[fst entry := characters]> cid2unicode)
    | inl (PDFKeyError _) | inl ValueError => inr cid2unicode
    | inl e => inl e
    end).

Definition cid2unicode_from_encoding (encoding : gmap Z string)
  : Error + gmap Z ustring :=
  fold_left cid2unicode_step (map_to_list encoding) (inr ∅).

End Tables.

(** *** [class EncodingDB] *)

(** A row of [pdfminer.latin_enc.ENCODING]: the glyph name and its code in
    the standard, Mac, Windows and PDF encodings, [None] where it has
    none. *)
Definition EncodingRow : Type := string * option Z * option Z * option Z * option Z.

(** [if code: table[code] = name]: [None] and 0 are false. *)
Definition put (code : option Z) (name : string) (table : gmap Z string)
  : gmap Z string :=
  match code with
  | Some c => if (c =? 0)%Z then table else <[c := name]> table
  | None => table
  end.

Record Tables := {
  std2unicode : gmap Z string;
  mac2unicode : gmap Z string;
  win2unicode : gmap Z string;
  pdf2unicode : gmap Z string
}.

Definition add_row (t : Tables) (row : EncodingRow) : Tables :=
  let '(name, std, mac, win, pdf) := row in
  {| std2unicode := put std name t.(std2unicode);
     mac2unicode := put mac name t.(mac2unicode);
     win2unicode := put win name t.(win2unicode);
     pdf2unicode := put pdf name t.(pdf2unicode) |}.

(** The loop in the body of the class. *)
Definition build (ENCODING : list EncodingRow) : Tables :=
  fold_left add_row ENCODING
    {| std2unicode := ∅; mac2unicode := ∅; win2unicode := ∅; pdf2unicode := ∅ |}.

Definition encodings (t : Tables) : gmap string (gmap Z string) :=
  {[ "StandardEncoding"%string := t.(std2unicode);
     "MacRomanEncoding"%string := t.(mac2unicode);
     "WinAnsiEncoding"%string := t.(win2unicode);
     "PDFDocEncoding"%string := t.(pdf2unicode) ]}.

(** The [base] argument of [get_encoding]: a literal or a table. *)
Inductive Base :=
| BaseLiteral (name : string)
| BaseDict (encoding : gmap Z string).

(** An item of the [diff] argument: an [int], a literal, or anything
    else. *)
Inductive DiffItem :=
| DInt (x : Z)
| DLiteral (name : string)
| DOther.

(** The [for x in diff] loop of [get_encoding]. *)
Fixpoint apply_diff (diff : list DiffItem) (cid : Z) (encoding : gmap Z string)
  : gmap Z string :=
  match diff with
  | [] => encoding
  | DInt x :: rest => apply_diff rest x encoding
  | DLiteral name :: rest => apply_diff rest (cid + 1)%Z (<[cid := name]> encoding)
  | DOther :: rest => apply_diff rest cid encoding
  end.

Definition get_encoding (cls : Tables) (base : Base) (diff : option (list DiffItem))
  : gmap Z string :=
  let encoding :=
    match base with
    | BaseLiteral name => default cls.(std2unicode) (encodings cls !! name)
    | BaseDict d => d
    end in
  match diff with
  | None | Some [] => encoding
  | Some items => apply_diff items 0 encoding
  end.

(** The value of a string of hexadecimal digits. *)
Definition hex_digit (c : ascii) : Z :=
  let n := Z.of_N (N_of_ascii c) in
  if (n <=? 57)%Z then (n - 48)%Z
  else if (n <=? 70)%Z then (n - 55)%Z
  else (n - 87)%Z.

Fixpoint hex_value_from (acc : Z) (s : string) : Z :=
  match s with
  | EmptyString => acc
  | String c rest => hex_value_from (acc * 16 + hex_digit c)%Z rest
  end.

Definition hex_value (s : string) : Z := hex_value_from 0 s.

Fixpoint all_chars (p : ascii -> bool) (s : string) : bool :=
  match s with
  | EmptyString => true
  | String c rest => p c && all_chars p rest
  end.

(** What is known of [int(s, 16)]: on a string of hexadecimal digits it is
    their value, and whatever it accepts has a magnitude below
    16 ^ len(s). *)
Definition int16_spec (int16 : string -> option Z) : Prop :=
  (forall s, s <> EmptyString -> all_chars is_hex s = true ->
     int16 s = Some (hex_value s))
  /\ (forall s i, int16 s = Some i ->
        (Z.abs i < 16 ^ Z.of_nat (String.length s))%Z).

(** A partial [int(s, 16)], for the examples: plain digits only. *)
Definition int16_digits (s : string) : option Z :=
  match s with
  | EmptyString => None
  | _ => if all_chars is_hex s then Some (hex_value s) else None
  end.

End encodingdb.

(** ** Sample collaborators and inputs, for the examples *)

Module Sample.

Definition LITERALS_DCT_DECODE : list string := ["DCTDecode"; "DCT"]%string.
Definition LITERALS_JBIG2_DECODE : list string := ["JBIG2Decode"]%string.
Definition LITERALS_JPX_DECODE : list string := ["JPXDecode"]%string.

(** A stand-in for Pillow: an image is its mode, size and packed bytes;
    [frombytes] wants whole rows, [save] writes the packed bytes. *)
Record Raster := {
  raster_mode : string;
  raster_size : Z * Z;
  raster_bytes : bytes
}.

Definition row_bytes (mode : string) (width : Z) : Z :=
  if String.eqb mode "1" then (width + 7) / 8
  else if String.eqb mode "L" then width
  else if String.eqb mode "RGB" then 3 * width
  else 4 * width.

Definition Image_frombytes (mode : string) (size : Z * Z) (data : bytes)
    (decoder : string) : string + Raster :=
  if (Z.of_nat (length data) =? row_bytes mode (fst size) * snd size)%Z
  then inr {| raster_mode := mode; raster_size := size; raster_bytes := data |}
  else inl "not enough image data"%string.

Definition Image_open (data : bytes) : string + Raster :=
  inr {| raster_mode := "RGB"; raster_size := (1, 1)%Z; raster_bytes := data |}.

Definition Image_save (img : Raster) (filename : string) (format : option string)
  : string + bytes :=
  inr (raster_bytes img).

Definition FILE_HEADER_ID : bytes := [x97; x4a; x42; x32; x0d; x0a; x1a; x0a].
Definition FILE_HEADER_FLAGS : byte := x03.
Definition bitmask_consistent (count : N) (mask : bytes) : bool := true.

Definition get_segments := JBIG2.get_segments bitmask_consistent.
Definition write_file := JBIG2.writeContainer FILE_HEADER_ID FILE_HEADER_FLAGS.

Definition export (self : ImageWriter) (image : LTImage) : M string :=
  export_image LITERALS_DCT_DECODE LITERALS_JBIG2_DECODE LITERALS_JPX_DECODE
    true Raster Image_open Image_frombytes Image_save get_segments write_file
    self image.

(** An output directory [out] that exists and is empty. *)
Definition writer : ImageWriter := {| outdir := ["out"%string] |}.
Definition world : World := {| fs := {[ ["out"%string] := Dir ]}; decoded := [] |}.

(** An unfiltered image named [img] of [len] bytes. *)
Definition raw_image (width height bpc : Z) (len : nat) : LTImage :=
  {| name := "img";
     stream := {| body := {| objid := 7; rawdata := repeat x01 len |};
                  get_filters := [] |};
     srcsize := (width, height);
     bits := bpc |}.

Definition globals (id : N) (data : bytes) : gmap string PDFObjRef :=
  {[ "JBIG2Globals"%string := {| resolve := {| objid := id; rawdata := data |} |} ]}.

(** An image named [img] behind the filter chain [filters]. *)
Definition filtered_image (filters : list (string * gmap string PDFObjRef))
    (data : bytes) : LTImage :=
  {| name := "img";
     stream := {| body := {| objid := 7; rawdata := data |};
                  get_filters := filters |};
     srcsize := (8, 1)%Z;
     bits := 1 |}.

(** One segment: number 1, type 48 (page information), one-byte page
    association 1, no referred-to segments, a two-byte payload that ends
    in a newline. *)
Definition segment1 : JBIG2.Segment :=
  {| JBIG2.number := 1;
     JBIG2.seg_type := 48;
     JBIG2.page_assoc_long := false;
     JBIG2.retention := JBIG2.RetainShort 0;
     JBIG2.referred := [];
     JBIG2.page_association := 1;
     JBIG2.payload := [x2a; x0a] |}.

(** A segment numbered 300 that refers to segments 1 and 2 in two bytes
    each, with a four-byte page association. *)
Definition segment300 : JBIG2.Segment :=
  {| JBIG2.number := 300;
     JBIG2.seg_type := 38;
     JBIG2.page_assoc_long := true;
     JBIG2.retention := JBIG2.RetainShort 5;
     JBIG2.referred := [1; 2];
     JBIG2.page_association := 1;
     JBIG2.payload := [x01; x02; x03] |}.

(** A segment numbered 70001 that refers to nine segments: the count is in
    long form and the retention bitmask takes two bytes. *)
Definition segment70001 : JBIG2.Segment :=
  {| JBIG2.number := 70001;
     JBIG2.seg_type := 6;
     JBIG2.page_assoc_long := false;
     JBIG2.retention := JBIG2.RetainLong [xff; x01];
     JBIG2.referred := [1; 2; 3; 4; 5; 6; 7; 300; 66000];
     JBIG2.page_association := 2;
     JBIG2.payload := [xaa] |}.

(** Three entries of the glyph list. *)
Definition glyphname2unicode : gmap string (list Z) :=
  {[ "A"%string := [65%Z]; "space"%string := [32%Z];
     "fi"%string := [102%Z; 105%Z] ]}.

(** An encoding as a font would give it: a glyph of the list, a [uni]
    name, a name that is neither, and a surrogate. *)
Definition encoding : gmap Z string :=
  {[ 65%Z := "A"%string; 66%Z := "uni0042"%string;
     67%Z := "nonsense"%string; 68%Z := "uD800"%string ]}.

End Sample.

(** * Properties *)

(** ** The monad, step by step *)

Lemma bind_run {A B} (c : M A) (k : A -> M B) (w : World) :
  (c ≫= k) w
  = match c w with
    | (Ok a, w') => k a w'
    | (Raise e, w') => (Raise e, w')
    end.
Proof. reflexivity. Qed.

Lemma ret_run {A} (a : A) (w : World) : mret (M := M) a w = (Ok a, w).
Proof. reflexivity. Qed.

Lemma open_wb_fresh dir n w :
  exists_in (fs w) (os_path_join dir n) = false ->
  open_wb (os_path_join dir n) w
  = match node_at (fs w) dir with
    | Some Dir => (Ok tt, set_fs (<[os_path_join dir n := File []]> (fs w)) w)
    | Some (File _) => (Raise NotADirectoryError, w)
    | None => (Raise FileNotFoundError, w)
    end.
Proof.
  unfold open_wb, exists_in, os_path_join. intros Hfree.
  rewrite removelast_last.
  by destruct (node_at (fs w) (dir ++ [n])).
Qed.

Lemma fp_write_opened p data files w :
  fs w = <[p := File []]> files ->
  fp_write p data w = (Ok tt, set_fs (<[p := File data]> files) w).
Proof.
  intros Hfs. unfold fp_write. by rewrite Hfs, alter_insert_eq.
Qed.

Lemma fp_write_fresh p data files w :
  fp_write p data (set_fs (<[p := File []]> files) w)
  = (Ok tt, set_fs (<[p := File data]> files) w).
Proof. by rewrite (fp_write_opened _ _ files). Qed.

Lemma basename_join dir n : basename (os_path_join dir n) = n.
Proof. unfold basename, os_path_join. by rewrite last_snoc. Qed.

(** ** Trailing newlines *)

Lemma rstrip_newlines_split (bs : bytes) :
  exists k, bs = rstrip_newlines bs ++ repeat x0a k.
Proof.
  induction bs as [|b rest [k IH]]; [by exists 0%nat|]. simpl.
  destruct (rstrip_newlines rest) as [|c kept] eqn:Hrest.
  - destruct (Byte.eqb b x0a) eqn:Hb.
    + apply Byte.byte_dec_bl in Hb as ->. exists (S k). simpl. by f_equal.
    + exists k. simpl. by f_equal.
  - exists k. simpl. by f_equal.
Qed.

Lemma rstrip_newlines_last (bs : bytes) : last (rstrip_newlines bs) <> Some x0a.
Proof.
  induction bs as [|b rest IH]; [done|]. simpl.
  destruct (rstrip_newlines rest) as [|c kept] eqn:Hrest.
  - destruct (Byte.eqb b x0a) eqn:Hb; [done|].
    apply Byte.eqb_false in Hb. simpl. congruence.
  - done.
Qed.

(** ** Directories *)

Lemma tree_parent files q x :
  tree files = true -> is_Some (files !! (q ++ [x])) ->
  node_at files q = Some Dir.
Proof.
  unfold tree. rewrite forallb_forall. intros Htree [n Hn].
  apply elem_of_map_to_list, list_elem_of_In, Htree in Hn. simpl in Hn.
  rewrite removelast_last in Hn.
  by destruct (node_at files q) as [[|content]|].
Qed.

Lemma tree_insert files p n :
  tree files = true -> node_at files (removelast p) = Some Dir ->
  files !! p = None -> tree (<[p := n]> files) = true.
Proof.
  intros Htree Hparent Hfree. unfold tree. apply forallb_forall.
  intros [q m] Hin. apply list_elem_of_In, elem_of_map_to_list in Hin. simpl.
  assert (Hup : forall r, node_at files r = Some Dir ->
                          node_at (<[p := n]> files) r = Some Dir).
  { intros [|c r]; [done|]. simpl. intros Hr.
    rewrite lookup_insert_ne; [done|]. intros ->. simpl in Hr. congruence. }
  destruct (decide (q = p)) as [->|Hne].
  - by rewrite (Hup _ Hparent).
  - rewrite lookup_insert_ne in Hin by done.
    destruct q as [|c q] using rev_ind; [done|].
    rewrite removelast_last. rewrite (Hup q); [done|].
    apply (tree_parent files q c); [done|by eexists].
Qed.

Lemma creatable_prefix files dir q content :
  creatable files dir = true -> q `prefix_of` dir ->
  node_at files q <> Some (File content).
Proof.
  unfold creatable. rewrite forallb_forall. intros Hok [k ->] Hfile.
  assert (Hin : In (length q) (seq 0 (S (length (q ++ k)))))
    by (apply in_seq; rewrite length_app; lia).
  specialize (Hok _ Hin). by rewrite take_app_length, Hfile in Hok.
Qed.

Lemma creatable_head files head x :
  creatable files (head ++ [x]) = true -> creatable files head = true.
Proof.
  unfold creatable. rewrite !forallb_forall. intros Hok n Hn.
  apply in_seq in Hn.
  assert (Hin : In n (seq 0 (S (length (head ++ [x])))))
    by (apply in_seq; rewrite length_app; simpl; lia).
  specialize (Hok _ Hin). by rewrite take_app_le in Hok by lia.
Qed.

(** In a tree, what lies above something that exists is a directory. *)
Lemma tree_above files q : forall k,
  tree files = true -> exists_in files (q ++ k) = true ->
  k <> [] -> node_at files q = Some Dir.
Proof.
  intros k. induction k as [|x k IH] using rev_ind; intros Htree Hex Hk; [done|].
  rewrite app_assoc in Hex.
  assert (Hq : node_at files (q ++ k) = Some Dir).
  { apply (tree_parent files (q ++ k) x); [done|].
    unfold exists_in, node_at in Hex.
    destruct ((q ++ k) ++ [x]) as [|c r] eqn:Hp; [by destruct (q ++ k)|].
    by destruct (files !! (c :: r)); [eexists|]. }
  destruct k as [|y k]; [by rewrite app_nil_r in Hq|].
  apply IH; [done| |done]. unfold exists_in. by rewrite Hq.
Qed.

Lemma os_mkdir_run p w :
  p <> [] -> fs w !! p = None -> node_at (fs w) (removelast p) = Some Dir ->
  os_mkdir p w = (Ok tt, set_fs (<[p := Dir]> (fs w)) w).
Proof.
  intros Hp Hfree Hparent. unfold os_mkdir.
  destruct p as [|c p]; [done|]. simpl node_at at 1.
  by rewrite Hfree, Hparent.
Qed.

Lemma prefix_of_snoc (q head : filepath) (x : string) :
  q `prefix_of` head ++ [x] <-> q = head ++ [x] \/ q `prefix_of` head.
Proof.
  split.
  - intros [k Hk]. destruct k as [|y k] using rev_ind.
    + left. by rewrite app_nil_r in Hk.
    + right. rewrite app_assoc in Hk. apply app_inj_tail in Hk as [-> _].
      by exists k.
  - intros [->|[k ->]]; [done|]. exists (k ++ [x]). by rewrite app_assoc.
Qed.

Lemma not_prefix_of_self_snoc (head : filepath) (x : string) :
  ~ head ++ [x] `prefix_of` head.
Proof.
  intros Hpre. apply prefix_length in Hpre. rewrite length_app in Hpre.
  simpl in Hpre. lia.
Qed.

(** [os.makedirs] on a path that does not exist and can be made: it
    returns, every directory on the way is there afterwards, and nothing
    else has changed. *)
Lemma makedirs_rec_run (name : filepath) : forall w,
  tree (fs w) = true -> creatable (fs w) name = true ->
  exists_in (fs w) name = false ->
  exists files',
    makedirs_rec (length name) name w = (Ok tt, set_fs files' w)
    /\ (forall q, q `prefix_of` name -> node_at files' q = Some Dir)
    /\ (forall q, ~ q `prefix_of` name -> files' !! q = fs w !! q)
    /\ (forall q n, fs w !! q = Some n -> files' !! q = Some n)
    /\ tree files' = true.
Proof.
  induction name as [|x head IH] using rev_ind; intros w Htree Hcan Hfree; [done|].
  assert (Hnil : head ++ [x] <> []) by (by destruct head).
  assert (Hnone : fs w !! (head ++ [x]) = None).
  { unfold exists_in, node_at in Hfree.
    destruct (head ++ [x]) as [|c r]; [done|]. by destruct (fs w !! (c :: r)). }
  rewrite length_app, Nat.add_1_r. simpl makedirs_rec.
  rewrite removelast_last, bind_run. unfold os_path_exists.
  assert (Hstep : forall files1,
             tree files1 = true ->
             node_at files1 head = Some Dir ->
             files1 !! (head ++ [x]) = None ->
             (forall q, q `prefix_of` head -> node_at files1 q = Some Dir) ->
             (forall q, ~ q `prefix_of` head -> files1 !! q = fs w !! q) ->
             (forall q n, fs w !! q = Some n -> files1 !! q = Some n) ->
             exists files',
               os_mkdir (head ++ [x]) (set_fs files1 w) = (Ok tt, set_fs files' w)
               /\ (forall q, q `prefix_of` head ++ [x] -> node_at files' q = Some Dir)
               /\ (forall q, ~ q `prefix_of` head ++ [x] -> files' !! q = fs w !! q)
               /\ (forall q n, fs w !! q = Some n -> files' !! q = Some n)
               /\ tree files' = true).
  { intros files1 Htree1 Hhead Hnone1 Hdirs Hsame Hkept.
    exists (<[head ++ [x] := Dir]> files1). split; [|split; [|split; [|split]]].
    - rewrite os_mkdir_run; [done..|]. simpl. by rewrite removelast_last.
    - intros q Hq. apply prefix_of_snoc in Hq as [->|Hq].
      + destruct (head ++ [x]) as [|c r] eqn:Hp; [done|]. simpl.
        by rewrite lookup_insert_eq.
      + specialize (Hdirs q Hq). destruct q as [|c q]; [done|]. simpl in *.
        rewrite lookup_insert_ne; [done|]. intros Heq. rewrite <- Heq in Hq.
        by apply not_prefix_of_self_snoc in Hq.
    - intros q Hq. rewrite lookup_insert_ne.
      + apply Hsame. intros Hpre. apply Hq, prefix_of_snoc. by right.
      + intros <-. by apply Hq.
    - intros q n Hn. rewrite lookup_insert_ne; [by apply Hkept|].
      intros <-. congruence.
    - apply tree_insert; [done| |done]. by rewrite removelast_last. }
  destruct (decide (head = [])) as [->|Hhead].
  - simpl. rewrite bind_run, ret_run.
    destruct (Hstep (fs w)) as (files' & Hrun & Hrest); try done.
    + intros q [k Hk]. symmetry in Hk. by apply app_eq_nil in Hk as [-> _].
    + exists files'. split; [|done]. rewrite <- Hrun. by destruct w.
  - rewrite bool_decide_eq_false_2 by done. simpl.
    destruct (exists_in (fs w) head) eqn:Hex; simpl.
    + rewrite bind_run, ret_run.
      assert (Hdir : forall q, q `prefix_of` head -> node_at (fs w) q = Some Dir).
      { intros q [k Hk].
        assert (Hexq : exists_in (fs w) q = true).
        { destruct k as [|y k]; [rewrite app_nil_r in Hk; by subst|].
          unfold exists_in.
          by rewrite (tree_above (fs w) q (y :: k)) by (by subst). }
        unfold exists_in in Hexq.
        destruct (node_at (fs w) q) as [[|content]|] eqn:Hq; [done| |done].
        exfalso. apply (creatable_prefix _ _ q content Hcan); [|done].
        exists (k ++ [x]). by rewrite Hk, app_assoc. }
      destruct (Hstep (fs w)) as (files' & Hrun & Hrest); try done.
      * by apply Hdir.
      * exists files'. split; [|done]. rewrite <- Hrun. by destruct w.
    + destruct (IH w Htree (creatable_head _ _ _ Hcan) Hex)
        as (files1 & Hrun1 & Hdirs1 & Hsame1 & Hkept1 & Htree1).
      rewrite bind_run. unfold except_FileExistsError_pass. rewrite Hrun1.
      destruct (Hstep files1) as (files' & Hrun & Hrest); try done.
      * by apply Hdirs1.
      * rewrite Hsame1; [done|]. apply not_prefix_of_self_snoc.
      * by exists files'.
Qed.

(** ** Names of files *)

Lemma string_app_cons c (s t : string) : String c s +:+ t = String c (s +:+ t).
Proof. reflexivity. Qed.

Lemma string_app_length (s t : string) :
  String.length (s +:+ t) = (String.length s + String.length t)%nat.
Proof.
  induction s as [|c s IH]; [done|].
  rewrite string_app_cons. simpl. by rewrite IH.
Qed.

Lemma string_app_inj_r (s1 s2 t : string) : s1 +:+ t = s2 +:+ t -> s1 = s2.
Proof.
  revert s2. induction s1 as [|c s1 IH]; intros [|c2 s2] Heq.
  - done.
  - apply (f_equal String.length) in Heq.
    rewrite !string_app_length in Heq. simpl in Heq. lia.
  - apply (f_equal String.length) in Heq.
    rewrite !string_app_length in Heq. simpl in Heq. lia.
  - rewrite !string_app_cons in Heq. injection Heq as -> Heq.
    f_equal. by apply IH.
Qed.

Lemma format_d_inj (i j : nat) : format_d i = format_d j -> i = j.
Proof.
  unfold format_d. intros Heq.
  apply Unsigned.to_uint_inj.
  apply (f_equal NilEmpty.uint_of_string) in Heq.
  rewrite !NilEmpty.usu in Heq. congruence.
Qed.

Lemma indexed_name_inj base ext i j :
  indexed_name base ext i = indexed_name base ext j -> i = j.
Proof.
  unfold indexed_name. intros Heq.
  apply String.app_inj in Heq. apply (String.app_inj ".") in Heq.
  apply string_app_inj_r in Heq. by apply format_d_inj.
Qed.

Lemma exists_in_join files dir n :
  exists_in files (os_path_join dir n) = true
  <-> os_path_join dir n ∈ dom files.
Proof.
  unfold exists_in, node_at, os_path_join.
  destruct (dir ++ [n]) as [|c p] eqn:Hp.
  - by destruct dir.
  - rewrite elem_of_dom. unfold is_Some.
    destruct (files !! (c :: p)); split; intros H;
      first [done | by eexists | by destruct H].
Qed.

(** Among the first [size files + 1] indexed names one is free. *)
Lemma free_index_exists (files : gmap filepath node) dir base ext :
  exists k, (k <= size files)%nat
    /\ exists_in files (os_path_join dir (indexed_name base ext k)) = false.
Proof.
  set (p := fun j => os_path_join dir (indexed_name base ext j)).
  destruct (decide (Forall (fun j => exists_in files (p j) = true)
                      (seq 0 (S (size files))))) as [Hall|Hsome].
  - exfalso.
    assert (Hinj : Inj (=) (=) p).
    { intros i j Hij. unfold p, os_path_join in Hij.
      apply app_inv_head in Hij. injection Hij as Hij.
      by apply indexed_name_inj in Hij. }
    assert (Hsub : list_to_set (C := gset filepath) (p <$> seq 0 (S (size files)))
                   ⊆ dom files).
    { intros q Hq. apply elem_of_list_to_set, list_elem_of_fmap in Hq
        as (j & -> & Hj).
      rewrite Forall_forall in Hall. apply exists_in_join, Hall, Hj. }
    apply subseteq_size in Hsub.
    rewrite size_list_to_set in Hsub by (apply NoDup_fmap_2; [done|apply NoDup_seq]).
    rewrite length_fmap, length_seq, size_dom in Hsub. lia.
  - apply not_Forall_Exists in Hsome; [|intros j; apply _].
    apply Exists_exists in Hsome as (k & Hk & Hfree).
    apply elem_of_seq in Hk. exists k. split; [lia|].
    by apply not_true_is_false.
Qed.

(** The least free index, given that some index is free. *)
Lemma least_free_index (taken : nat -> bool) (n : nat) :
  taken n = false ->
  exists k, (k <= n)%nat /\ taken k = false
            /\ forall j, (j < k)%nat -> taken j = true.
Proof.
  induction n as [n IH] using lt_wf_ind. intros Hn.
  destruct (decide (Forall (fun j => taken j = true) (seq 0 n))) as [Hall|Hsome].
  - exists n. split; [lia|]. split; [done|].
    intros j Hj. rewrite Forall_forall in Hall. apply Hall, elem_of_seq. lia.
  - apply not_Forall_Exists in Hsome; [|intros j; apply _].
    apply Exists_exists in Hsome as (m & Hm & Hfree).
    apply elem_of_seq in Hm.
    destruct (IH m) as (k & Hk & Hkfree & Hbelow);
      [lia|by apply not_true_is_false|].
    exists k. split; [lia|done].
Qed.

Lemma unique_name_loop_free passes self image ext cn cp i w :
  exists_in (fs w) cp = false ->
  unique_name_loop passes self image ext cn cp i w = (Ok (cn, cp), w).
Proof.
  intros Hfree. destruct passes; simpl; rewrite bind_run; unfold os_path_exists;
    by rewrite Hfree.
Qed.

Lemma unique_name_loop_taken passes self image ext cn cp i w :
  exists_in (fs w) cp = true ->
  unique_name_loop (S passes) self image ext cn cp i w
  = unique_name_loop passes self image ext
      (indexed_name image.(name) ext i)
      (os_path_join self.(outdir) (indexed_name image.(name) ext i)) (S i) w.
Proof.
  intros Htaken. simpl. rewrite bind_run. unfold os_path_exists.
  by rewrite Htaken.
Qed.

Lemma unique_name_loop_finds d : forall passes self image ext cn cp i w,
  exists_in (fs w) cp = true ->
  (forall j, (i <= j < i + d)%nat ->
     exists_in (fs w) (os_path_join self.(outdir) (indexed_name image.(name) ext j)) = true) ->
  exists_in (fs w) (os_path_join self.(outdir) (indexed_name image.(name) ext (i + d))) = false ->
  (d < passes)%nat ->
  unique_name_loop passes self image ext cn cp i w
  = (Ok (indexed_name image.(name) ext (i + d),
         os_path_join self.(outdir) (indexed_name image.(name) ext (i + d))), w).
Proof.
  induction d as [|d IH]; intros passes self image ext cn cp i w Hcp Hbelow Hfree Hlt.
  - destruct passes as [|passes]; [lia|].
    rewrite unique_name_loop_taken by done.
    rewrite Nat.add_0_r in Hfree |- *. by apply unique_name_loop_free.
  - destruct passes as [|passes]; [lia|].
    rewrite unique_name_loop_taken by done.
    replace (i + S d)%nat with (S i + d)%nat in * by lia.
    apply IH; [apply Hbelow; lia| |done|lia].
    intros j Hj. apply Hbelow. lia.
Qed.

(** What [_create_unique_image_name] returns: the world is left as it was,
    the path is the name joined to the output directory, nothing exists
    there, and the name is the plain one if that is free, else the one of
    the least free index. *)
Lemma create_unique_image_name_spec self image ext w :
  exists chosen,
    _create_unique_image_name self image ext w
    = (Ok (chosen, os_path_join self.(outdir) chosen), w)
    /\ exists_in (fs w) (os_path_join self.(outdir) chosen) = false
    /\ if exists_in (fs w) (os_path_join self.(outdir) (image.(name) +:+ ext))
       then exists k,
           chosen = indexed_name image.(name) ext k
           /\ forall j, (j < k)%nat ->
                exists_in (fs w)
                  (os_path_join self.(outdir) (indexed_name image.(name) ext j))
                = true
       else chosen = image.(name) +:+ ext.
Proof.
  unfold _create_unique_image_name.
  destruct (exists_in (fs w) (os_path_join (outdir self) (name image +:+ ext)))
    eqn:Hfirst.
  - destruct (free_index_exists (fs w) (outdir self) (name image) ext)
      as (n & Hn & Hfree).
    destruct (least_free_index
                (fun j => exists_in (fs w)
                   (os_path_join (outdir self) (indexed_name (name image) ext j)))
                n Hfree) as (k & Hk & Hkfree & Hbelow).
    exists (indexed_name (name image) ext k). split; [|split].
    + apply (unique_name_loop_finds k _ self image ext _ _ 0%nat w); try done.
      * intros j Hj. apply Hbelow. lia.
      * lia.
    + done.
    + exists k. done.
  - exists (name image +:+ ext). split; [|done].
    by apply unique_name_loop_free.
Qed.

Lemma create_unique_image_name_assigned self image ext w :
  _create_unique_image_name self image ext w
  = (Ok (assigned_name self image ext w, assigned_path self image ext w), w).
Proof.
  destruct (create_unique_image_name_spec self image ext w) as (chosen & Hrun & _).
  unfold assigned_path, assigned_name. by rewrite Hrun.
Qed.

Lemma assigned_path_free self image ext w :
  exists_in (fs w) (assigned_path self image ext w) = false.
Proof.
  destruct (create_unique_image_name_spec self image ext w)
    as (chosen & Hrun & Hfree & _).
  unfold assigned_path, assigned_name. by rewrite Hrun.
Qed.

Lemma assigned_path_lookup self image ext w :
  fs w !! assigned_path self image ext w = None.
Proof.
  pose proof (assigned_path_free self image ext w) as Hfree.
  unfold exists_in, node_at, assigned_path, os_path_join in *.
  destruct (outdir self ++ [assigned_name self image ext w]) as [|c q] eqn:Hp.
  - by destruct (outdir self).
  - by destruct (fs w !! (c :: q)).
Qed.

(** The loop reads the files only. *)
Lemma unique_name_loop_fs passes : forall self image ext cn cp i w1 w2,
  fs w1 = fs w2 ->
  fst (unique_name_loop passes self image ext cn cp i w1)
  = fst (unique_name_loop passes self image ext cn cp i w2).
Proof.
  induction passes as [|passes IH]; intros self image ext cn cp i w1 w2 Hfs;
    simpl; rewrite !bind_run; unfold os_path_exists; rewrite Hfs;
    destruct (exists_in (fs w2) cp); try done.
  by apply IH.
Qed.

Lemma assigned_name_logged self image ext ids w :
  assigned_name self image ext (logged ids w) = assigned_name self image ext w.
Proof.
  unfold assigned_name, _create_unique_image_name.
  by rewrite (unique_name_loop_fs _ _ _ _ _ _ _ (logged ids w) w).
Qed.

Lemma assigned_path_logged self image ext ids w :
  assigned_path self image ext (logged ids w) = assigned_path self image ext w.
Proof. unfold assigned_path. by rewrite assigned_name_logged. Qed.

Lemma get_data_run s w : get_data s w = (Ok (rawdata s), logged [objid s] w).
Proof. reflexivity. Qed.

(** C10. [ImageWriter(outdir)] leaves the world as it is when [outdir]
    exists; when it does not exist (and the path can be made in the tree of
    files) the constructor returns with [outdir] and every directory above
    it in place, and with everything that existed unchanged. *)
Theorem init_creates_outdir dir w :
  (exists_in (fs w) dir = true ->
   __init__ dir w = (Ok {| outdir := dir |}, w))
  /\ (exists_in (fs w) dir = false ->
      tree (fs w) = true -> creatable (fs w) dir = true ->
      exists w',
        __init__ dir w = (Ok {| outdir := dir |}, w')
        /\ usable {| outdir := dir |} w'
        /\ (forall q, q `prefix_of` dir -> node_at (fs w') q = Some Dir)
        /\ (forall q, ~ q `prefix_of` dir -> fs w' !! q = fs w !! q)
        /\ (forall q n, fs w !! q = Some n -> fs w' !! q = Some n)
        /\ decoded w' = decoded w).
Proof.
  unfold __init__. split.
  - intros Hex. rewrite bind_run. unfold os_path_exists. by rewrite Hex.
  - intros Hex Htree Hcan. rewrite bind_run. unfold os_path_exists.
    rewrite Hex. simpl. rewrite bind_run. unfold os_makedirs.
    destruct (makedirs_rec_run dir w Htree Hcan Hex)
      as (files' & -> & Hdirs & Hsame & Hkept & _).
    exists (set_fs files' w). split; [done|].
    split; [by apply Hdirs|]. by repeat split.
Qed.

(** C9. The name assigned is the plain one, base name and extension, when
    nothing exists under it, and otherwise the one of the least index
    0, 1, 2, ... under which nothing exists; two resources named [img]
    exported as [.png] into one directory get [img.png] and then
    [img.0.png]; and the name depends on nothing but which names exist in
    the directory. *)
Theorem unique_image_name_first_free :
  (forall self image ext w,
     exists chosen,
       _create_unique_image_name self image ext w
       = (Ok (chosen, os_path_join self.(outdir) chosen), w)
       /\ exists_in (fs w) (os_path_join self.(outdir) chosen) = false
       /\ if exists_in (fs w) (os_path_join self.(outdir) (image.(name) +:+ ext))
          then exists k,
              chosen = indexed_name image.(name) ext k
              /\ forall j, (j < k)%nat ->
                   exists_in (fs w)
                     (os_path_join self.(outdir) (indexed_name image.(name) ext j))
                   = true
          else chosen = image.(name) +:+ ext)
  /\ (forall self image w w1 content,
        image.(name) = "img"%string ->
        exists_in (fs w) (os_path_join self.(outdir) "img.png") = false ->
        exists_in (fs w) (os_path_join self.(outdir) "img.0.png") = false ->
        fs w1 = <[os_path_join self.(outdir) "img.png" := File content]> (fs w) ->
        fst (_create_unique_image_name self image ".png" w)
        = Ok ("img.png"%string, os_path_join self.(outdir) "img.png")
        /\ fst (_create_unique_image_name self image ".png" w1)
           = Ok ("img.0.png"%string, os_path_join self.(outdir) "img.0.png"))
  /\ (forall self image ext w1 w2,
        (forall n, exists_in (fs w1) (os_path_join self.(outdir) n)
                   = exists_in (fs w2) (os_path_join self.(outdir) n)) ->
        fst (_create_unique_image_name self image ext w1)
        = fst (_create_unique_image_name self image ext w2)).
Proof.
  split; [|split].
  - apply create_unique_image_name_spec.
  - intros self image w w1 content Hname Hfree Hfree0 Hfs1. split.
    + destruct (create_unique_image_name_spec self image ".png" w)
        as (chosen & -> & _ & Hchosen).
      rewrite Hname in Hchosen. change ("img" +:+ ".png")%string with "img.png"%string in Hchosen.
      rewrite Hfree in Hchosen. by subst chosen.
    + destruct (create_unique_image_name_spec self image ".png" w1)
        as (chosen & -> & _ & Hchosen).
      rewrite Hname in Hchosen. change ("img" +:+ ".png")%string with "img.png"%string in Hchosen.
      assert (Htaken : exists_in (fs w1) (os_path_join (outdir self) "img.png") = true).
      { apply exists_in_join. rewrite Hfs1. apply elem_of_dom.
        rewrite lookup_insert_eq. by eexists. }
      assert (Hfree1 : exists_in (fs w1) (os_path_join (outdir self) "img.0.png") = false).
      { apply not_true_is_false. intros Hex. apply exists_in_join in Hex.
        rewrite Hfs1, dom_insert_L in Hex. apply elem_of_union in Hex as [Hex|Hex].
        - apply elem_of_singleton in Hex. unfold os_path_join in Hex.
          apply app_inv_head in Hex. discriminate Hex.
        - apply exists_in_join in Hex. congruence. }
      rewrite Htaken in Hchosen. destruct Hchosen as (k & -> & Hbelow).
      destruct k as [|k]; [done|].
      specialize (Hbelow 0%nat ltac:(lia)).
      change (indexed_name "img" ".png" 0) with "img.0.png"%string in Hbelow.
      congruence.
  - intros self image ext w1 w2 Hsame.
    destruct (create_unique_image_name_spec self image ext w1)
      as (chosen1 & -> & Hfree1 & Hchosen1).
    destruct (create_unique_image_name_spec self image ext w2)
      as (chosen2 & -> & Hfree2 & Hchosen2).
    simpl. rewrite Hsame in Hchosen1, Hfree1.
    destruct (exists_in (fs w2) (os_path_join (outdir self) (name image +:+ ext))).
    + destruct Hchosen1 as (k1 & -> & Hbelow1).
      destruct Hchosen2 as (k2 & -> & Hbelow2).
      destruct (lt_eq_lt_dec k1 k2) as [[Hlt| ->]|Hlt]; [|done|].
      * specialize (Hbelow2 k1 Hlt). congruence.
      * specialize (Hbelow1 k2 Hlt). rewrite Hsame in Hbelow1. congruence.
    + by subst.
Qed.

(** ** Rounding to binary64 *)

Section Binary64.

Local Open Scope Q_scope.

Lemma round_half_even_error (x : Q) :
  Qabs (inject_Z (round_half_even x) - x) <= 1 # 2.
Proof.
  unfold round_half_even.
  pose proof (Qfloor_le x) as Hlow. pose proof (Qlt_floor x) as Hhigh.
  rewrite inject_Z_plus in Hhigh. change (inject_Z 1) with 1 in Hhigh.
  destruct (Qcompare_spec (x - inject_Z (Qfloor x)) (1 # 2)) as [Heq|Hlt|Hgt].
  - destruct (Z.even (Qfloor x)).
    + apply Qabs_case; intros _; lra.
    + rewrite inject_Z_plus. change (inject_Z 1) with 1.
      apply Qabs_case; intros _; lra.
  - apply Qabs_case; intros _; lra.
  - rewrite inject_Z_plus. change (inject_Z 1) with 1.
    apply Qabs_case; intros _; lra.
Qed.

Lemma round_half_even_exact (x : Q) (z : Z) :
  x == inject_Z z -> round_half_even x = z.
Proof.
  intros Hx. unfold round_half_even.
  assert (Hfloor : Qfloor x = z) by (rewrite Hx; apply Qfloor_Z).
  rewrite Hfloor.
  destruct (Qcompare_spec (x - inject_Z z) (1 # 2)) as [Heq|Hlt|Hgt]; [lra|done|lra].
Qed.

Lemma inject_Z_pos (z : Z) : (0 < z)%Z -> 0 < inject_Z z.
Proof. intros Hz. change 0 with (inject_Z 0). by rewrite <- Zlt_Qlt. Qed.

Lemma Qdiv_lt_cross (n d p r : Z) :
  (0 < d)%Z -> (0 < r)%Z -> (n * r < p * d)%Z ->
  inject_Z n / inject_Z d < inject_Z p / inject_Z r.
Proof.
  intros Hd Hr Hlt. pose proof (inject_Z_pos d Hd). pose proof (inject_Z_pos r Hr).
  apply Qlt_shift_div_l; [done|].
  assert (Heq : inject_Z n / inject_Z d * inject_Z r
                == inject_Z n * inject_Z r / inject_Z d) by (field; lra).
  rewrite Heq. apply Qlt_shift_div_r; [done|].
  rewrite <- !inject_Z_mult. by rewrite <- Zlt_Qlt.
Qed.

Lemma Qdiv_le_cross (n d p r : Z) :
  (0 < d)%Z -> (0 < r)%Z -> (n * r <= p * d)%Z ->
  inject_Z n / inject_Z d <= inject_Z p / inject_Z r.
Proof.
  intros Hd Hr Hle. pose proof (inject_Z_pos d Hd). pose proof (inject_Z_pos r Hr).
  apply Qle_shift_div_l; [done|].
  assert (Heq : inject_Z n / inject_Z d * inject_Z r
                == inject_Z n * inject_Z r / inject_Z d) by (field; lra).
  rewrite Heq. apply Qle_shift_div_r; [done|].
  rewrite <- !inject_Z_mult. by rewrite <- Zle_Qle.
Qed.

Lemma two_power (z : Z) : (0 <= z)%Z -> 2 ^ z == inject_Z (2 ^ z).
Proof. intros Hz. by rewrite Zpower_Qpower. Qed.

Lemma two_power_pos (z : Z) : 0 < 2 ^ z.
Proof. by apply Qpower_0_lt. Qed.

Lemma two_not_0 : ~ 2 == 0.
Proof. lra. Qed.

Lemma ilog2_spec (x : Q) :
  ~ x == 0 -> 2 ^ ilog2 x <= Qabs x /\ Qabs x < 2 ^ (ilog2 x + 1).
Proof.
  intros Hx. destruct x as [n d].
  assert (Hn : (0 < Z.abs n)%Z).
  { destruct n; [|lia..]. exfalso. apply Hx. reflexivity. }
  unfold ilog2. cbn [Qnum Qden Qabs].
  set (a := Z.log2 (Z.abs n)). set (b := Z.log2 (Z.pos d)).
  pose proof (Z.log2_nonneg (Z.abs n)) as Ha. fold a in Ha.
  pose proof (Z.log2_nonneg (Z.pos d)) as Hb. fold b in Hb.
  destruct (Z.log2_spec (Z.abs n) Hn) as [Hna Hna']. fold a in Hna, Hna'.
  destruct (Z.log2_spec (Z.pos d) ltac:(lia)) as [Hdb Hdb']. fold b in Hdb, Hdb'.
  rewrite <- Z.add_1_r in Hna', Hdb'.
  assert (Habs : Z.abs n # d == inject_Z (Z.abs n) / inject_Z (Z.pos d))
    by apply Qmake_Qdiv.
  assert (Hupper : Z.abs n # d < 2 ^ (a - b + 1)).
  { replace (a - b + 1)%Z with ((a + 1) - b)%Z by lia.
    rewrite Habs, Qpower_minus by apply two_not_0.
    rewrite (two_power (a + 1)), (two_power b) by lia.
    apply Qdiv_lt_cross; [lia|apply Z.pow_pos_nonneg; lia|].
    apply Z.lt_le_trans with (2 ^ (a + 1) * 2 ^ b)%Z.
    - apply Z.mul_lt_mono_pos_r; [apply Z.pow_pos_nonneg; lia|done].
    - apply Z.mul_le_mono_nonneg_l; [apply Z.pow_nonneg; lia|done]. }
  assert (Hlower : 2 ^ (a - b - 1) <= Z.abs n # d).
  { replace (a - b - 1)%Z with (a - (b + 1))%Z by lia.
    rewrite Habs, Qpower_minus by apply two_not_0.
    rewrite (two_power a), (two_power (b + 1)) by lia.
    apply Qdiv_le_cross; [apply Z.pow_pos_nonneg; lia|lia|].
    apply Z.le_trans with (2 ^ a * 2 ^ (b + 1))%Z.
    - apply Z.mul_le_mono_nonneg_l; [apply Z.pow_nonneg; lia|lia].
    - apply Z.mul_le_mono_nonneg_r; [apply Z.pow_nonneg; lia|done]. }
  destruct (Qle_bool (2 ^ (a - b)) (Z.abs n # d)) eqn:Htest.
  - apply Qle_bool_iff in Htest. by split.
  - split; [done|]. replace (a - b - 1 + 1)%Z with (a - b)%Z by lia.
    apply Qnot_le_lt. intros Hle. apply Qle_bool_iff in Hle. congruence.
Qed.

(** Half the distance between neighbouring binary64 values, relative to
    the value: 2^-53. *)
Local Abbreviation eps := (1 # 9007199254740992).

Lemma two_power_lt (n m : Z) : 2 ^ n < 2 ^ m -> (n < m)%Z.
Proof. intros Hlt. apply (Qpower_lt_compat_l_inv 2); [done|lra]. Qed.

Lemma two_power_le (n m : Z) : (n <= m)%Z -> 2 ^ n <= 2 ^ m.
Proof. intros Hle. apply Qpower_le_compat_l; [done|lra]. Qed.

Lemma rounded_error (x ulp : Q) :
  0 < ulp ->
  Qabs (inject_Z (round_half_even (x / ulp)) * ulp - x) <= ulp * (1 # 2).
Proof.
  intros Hulp.
  assert (Heq : inject_Z (round_half_even (x / ulp)) * ulp - x
                == (inject_Z (round_half_even (x / ulp)) - x / ulp) * ulp)
    by (field; lra).
  rewrite Heq, Qabs_Qmult, (Qabs_pos ulp) by lra.
  rewrite (Qmult_comm ulp). apply Qmult_le_compat_r; [|lra].
  apply round_half_even_error.
Qed.

Lemma binary64_error (x : Q) :
  ~ x == 0 -> 2 ^ (-1022) <= Qabs x -> Qabs x < 2 ^ 1023 ->
  exists q, binary64 x = Finite q /\ Qabs (q - x) <= Qabs x * eps.
Proof.
  intros Hx Hlow Hhigh. unfold binary64.
  destruct (Qeq_bool x 0) eqn:Hzero; [by apply Qeq_bool_iff in Hzero|].
  destruct (ilog2_spec x Hx) as [He He'].
  assert (Hmin : (-1022 <= ilog2 x)%Z).
  { assert (-1022 < ilog2 x + 1)%Z; [|lia].
    apply two_power_lt. eapply Qle_lt_trans; [exact Hlow|exact He']. }
  assert (Hmax : (ilog2 x < 1023)%Z).
  { apply two_power_lt. eapply Qle_lt_trans; [exact He|exact Hhigh]. }
  rewrite Z.max_l by lia. cbv zeta.
  set (ulp := 2 ^ (ilog2 x - 52)).
  assert (Hulp : 0 < ulp) by apply two_power_pos.
  pose proof (rounded_error x ulp Hulp) as Herr.
  set (rounded := inject_Z (round_half_even (x / ulp)) * ulp) in *.
  assert (Hhalf : ulp * (1 # 2) <= Qabs x * eps).
  { assert (Hulp_eq : ulp == 2 ^ ilog2 x * (1 # 4503599627370496)).
    { unfold ulp. rewrite Qpower_minus by apply two_not_0.
      assert (H52 : 2 ^ 52 == 4503599627370496) by reflexivity.
      rewrite H52. field. }
    rewrite Hulp_eq.
    assert (0 <= Qabs x) by apply Qabs_nonneg. lra. }
  assert (Hfinite : Qle_bool (2 ^ 1024) (Qabs rounded) = false).
  { destruct (Qle_bool _ _) eqn:Hover; [|done]. exfalso.
    apply Qle_bool_iff in Hover.
    assert (Htri : Qabs rounded <= Qabs x + Qabs (rounded - x)).
    { assert (Hsum : rounded == x + (rounded - x)) by ring.
      rewrite Hsum at 1. apply Qabs_triangle. }
    assert (H1024 : 2 ^ 1024 == 2 * 2 ^ 1023).
    { change 1024%Z with (1 + 1023)%Z. rewrite Qpower_plus by apply two_not_0.
      reflexivity. }
    assert (0 <= Qabs x) by apply Qabs_nonneg.
    rewrite H1024 in Hover. lra. }
  rewrite Hfinite. exists rounded. split; [done|]. lra.
Qed.

Lemma binary64_integer (x : Q) (n : Z) :
  x == inject_Z n -> (Z.abs n < 2 ^ 53)%Z ->
  exists q, binary64 x = Finite q /\ q == x.
Proof.
  intros Hxn Hn. unfold binary64.
  destruct (Qeq_bool x 0) eqn:Hzero.
  { apply Qeq_bool_iff in Hzero. exists 0. split; [done|]. by rewrite Hzero. }
  assert (Hx : ~ x == 0).
  { intros Heq. apply Qeq_bool_iff in Heq. congruence. }
  destruct (ilog2_spec x Hx) as [He _].
  assert (Habs : Qabs x < 2 ^ 53).
  { rewrite Hxn. change (Qabs (inject_Z n)) with (inject_Z (Z.abs n)).
    rewrite (two_power 53) by lia. by rewrite <- Zlt_Qlt. }
  assert (Hmax : (ilog2 x < 53)%Z).
  { apply two_power_lt. eapply Qle_lt_trans; [exact He|exact Habs]. }
  cbv zeta. set (e := Z.max (ilog2 x) (-1022)).
  assert (He52 : (e <= 52)%Z) by (unfold e; lia).
  set (k := (52 - e)%Z).
  assert (Hulp : 2 ^ (e - 52) == / inject_Z (2 ^ k)).
  { replace (e - 52)%Z with (- k)%Z by (unfold k; lia).
    rewrite Qpower_opp, (two_power k) by (unfold k; lia). reflexivity. }
  assert (Hk : 0 < inject_Z (2 ^ k)).
  { apply inject_Z_pos, Z.pow_pos_nonneg; unfold k; lia. }
  assert (Hquot : x / 2 ^ (e - 52) == inject_Z (n * 2 ^ k)).
  { rewrite Hulp, Hxn, inject_Z_mult. field. lra. }
  rewrite (round_half_even_exact _ _ Hquot).
  set (rounded := inject_Z (n * 2 ^ k) * 2 ^ (e - 52)).
  assert (Hexact : rounded == x).
  { unfold rounded. rewrite Hulp, Hxn, inject_Z_mult. field. lra. }
  assert (Hfinite : Qle_bool (2 ^ 1024) (Qabs rounded) = false).
  { destruct (Qle_bool _ _) eqn:Hover; [|done]. exfalso.
    apply Qle_bool_iff in Hover. rewrite Hexact in Hover.
    assert (2 ^ 53 <= 2 ^ 1024) by (apply two_power_le; lia). lra. }
  rewrite Hfinite. by exists rounded.
Qed.

(** Bounds that keep a quotient of the sizes away from the ends of the
    binary64 range: 2^-100 and 2^100. *)
Local Abbreviation tiny := (1 # 1267650600228229401496703205376).
Local Abbreviation huge := 1267650600228229401496703205376.

Lemma binary64_zero (x : Q) : x == 0 -> binary64 x = Finite 0.
Proof.
  intros Hx. unfold binary64.
  by rewrite (proj2 (Qeq_bool_iff x 0) Hx).
Qed.

(** Within the range a nonnegative number is rounded to a float at a
    relative distance of 2^-53 at most. *)
Lemma binary64_near (x : Q) :
  0 <= x -> x == 0 \/ tiny <= x -> x <= huge ->
  exists q, binary64 x = Finite q /\ x * (1 - eps) <= q /\ q <= x * (1 + eps).
Proof.
  intros Hpos Hsmall Hlarge.
  destruct (Qeq_dec x 0) as [Hzero|Hnonzero].
  { exists 0. split; [by apply binary64_zero|]. lra. }
  destruct Hsmall as [Hzero|Hsmall]; [done|].
  assert (Hlow : 2 ^ (-1022) <= Qabs x).
  { rewrite (Qabs_pos x Hpos).
    apply Qle_trans with (2 ^ (-100)); [apply two_power_le; lia|].
    assert (H100 : 2 ^ (-100) == tiny) by reflexivity. lra. }
  assert (Hhigh : Qabs x < 2 ^ 1023).
  { rewrite (Qabs_pos x Hpos).
    apply Qle_lt_trans with (2 ^ 100).
    - assert (H100 : 2 ^ 100 == huge) by reflexivity. lra.
    - apply Qpower_lt_compat_l; [lia|lra]. }
  destruct (binary64_error x Hnonzero Hlow Hhigh) as (q & Hq & Herr).
  exists q. split; [done|].
  rewrite (Qabs_pos x Hpos) in Herr.
  apply Qabs_Qle_condition in Herr. lra.
Qed.

Lemma inject_Z_lt_literal (z bound : Z) :
  (z < bound)%Z -> inject_Z z < inject_Z bound.
Proof. intros Hz. by rewrite <- Zlt_Qlt. Qed.

Lemma inject_Z_le_literal (z bound : Z) :
  (bound <= z)%Z -> inject_Z bound <= inject_Z z.
Proof. intros Hz. by rewrite <- Zle_Qle. Qed.

(** The quotient of two plausible sizes, rounded. *)
Lemma quotient_near (a b : Z) :
  (0 <= a < 2 ^ 50)%Z -> (0 < b < 2 ^ 32)%Z ->
  exists q,
    binary64 (inject_Z a / inject_Z b) = Finite q
    /\ inject_Z a / inject_Z b * (1 - eps) <= q
    /\ q <= inject_Z a / inject_Z b * (1 + eps)
    /\ (a = 0%Z -> q == 0)
    /\ (a <> 0%Z -> (1 # 8589934592) <= q)
    /\ q <= 2251799813685248.
Proof.
  intros [Ha Ha'] [Hb Hb'].
  pose proof (inject_Z_le_literal a 0 Ha) as HaQ.
  pose proof (inject_Z_lt_literal a _ Ha') as HaQ'.
  pose proof (inject_Z_le_literal b 1 ltac:(lia)) as HbQ.
  pose proof (inject_Z_lt_literal b _ Hb') as HbQ'.
  change (inject_Z 0) with 0 in HaQ. change (inject_Z 1) with 1 in HbQ.
  change (inject_Z (2 ^ 50)) with 1125899906842624 in HaQ'.
  change (inject_Z (2 ^ 32)) with 4294967296 in HbQ'.
  set (x := inject_Z a / inject_Z b).
  assert (Hx : 0 <= x) by (apply Qle_shift_div_l; lra).
  assert (Hx' : x <= inject_Z a) by (apply Qle_shift_div_r; [lra|nra]).
  assert (Hzero : a = 0%Z -> x == 0).
  { intros ->. unfold x. change (inject_Z 0) with 0. field. lra. }
  assert (Hsmall : a <> 0%Z -> (1 # 4294967296) <= x).
  { intros Hne. pose proof (inject_Z_le_literal a 1 ltac:(lia)) as Hone.
    change (inject_Z 1) with 1 in Hone.
    apply Qle_shift_div_l; lra. }
  assert (Hcases : x == 0 \/ tiny <= x).
  { destruct (Z.eq_dec a 0%Z) as [Heq|Hne]; [left; auto|].
    right. specialize (Hsmall Hne). lra. }
  destruct (binary64_near x Hx Hcases ltac:(lra)) as (q & Hq & Hlo & Hhi).
  exists q. split; [done|]. split; [done|]. split; [done|].
  split; [|split].
  - intros Heq. specialize (Hzero Heq). lra.
  - intros Hne. specialize (Hsmall Hne). lra.
  - lra.
Qed.

Lemma Qeq_bool_positive (q : Q) : 0 < q -> Qeq_bool q 0 = false.
Proof.
  intros Hq. destruct (Qeq_bool q 0) eqn:Hzero; [|done].
  apply Qeq_bool_iff in Hzero. lra.
Qed.

(** Line 123 for plausible sizes: no division raises; at 8 bits per
    component the float is 1, 3 or 4 exactly when the number of bytes is
    as many times the number of pixels. *)
Lemma channel_count_plausible (len : nat) (W H B : Z) (w : World) :
  (Z.of_nat len < 2 ^ 50)%Z ->
  (0 < W < 2 ^ 32)%Z -> (0 < H < 2 ^ 32)%Z -> (0 < B < 2 ^ 32)%Z ->
  exists channels,
    channel_count len W H B w = (Ok channels, w)
    /\ (B = 8%Z -> forall k, (1 <= k <= 4)%Z ->
        float_eq_int channels k = true <-> Z.of_nat len = (k * W * H)%Z).
Proof.
  intros Hlen HW HH HB. set (L := Z.of_nat len) in *.
  assert (HL : (0 <= L)%Z) by (unfold L; lia).
  destruct (quotient_near L W ltac:(lia) HW)
    as (q1 & Hb1 & Hq1lo & Hq1hi & Hq1zero & Hq1small & Hq1max).
  destruct (binary64_integer (inject_Z H) H (Qeq_refl _) ltac:(lia))
    as (qh & Hbh & Hqh).
  pose proof (inject_Z_le_literal H 1 ltac:(lia)) as HHQ.
  pose proof (inject_Z_lt_literal H _ (proj2 HH)) as HHQ'.
  change (inject_Z 1) with 1 in HHQ.
  change (inject_Z (2 ^ 32)) with 4294967296 in HHQ'.
  pose proof (inject_Z_le_literal W 1 ltac:(lia)) as HWQ.
  change (inject_Z 1) with 1 in HWQ.
  pose proof (inject_Z_le_literal L 0 HL) as HLQ.
  pose proof (inject_Z_lt_literal L _ Hlen) as HLQ'.
  change (inject_Z 0) with 0 in HLQ.
  change (inject_Z (2 ^ 50)) with 1125899906842624 in HLQ'.
  assert (Hqhpos : 0 < qh) by lra.
  set (x1 := inject_Z L / inject_Z W) in *.
  assert (Hx1 : 0 <= x1) by (apply Qle_shift_div_l; lra).
  assert (Hq1 : 0 <= q1) by lra.
  set (x2 := q1 / qh).
  assert (Hx2 : 0 <= x2) by (apply Qle_shift_div_l; lra).
  assert (Hx2' : x2 <= q1) by (apply Qle_shift_div_r; [lra|nra]).
  assert (Hx2cases : x2 == 0 \/ (1 # 36893488147419103232) <= x2).
  { destruct (Z.eq_dec L 0%Z) as [Heq|Hne].
    - left. specialize (Hq1zero Heq). unfold x2. rewrite Hq1zero. field. lra.
    - right. specialize (Hq1small Hne). apply Qle_shift_div_l; lra. }
  destruct (binary64_near x2 Hx2 ltac:(destruct Hx2cases; [left|right]; lra)
              ltac:(lra)) as (q2 & Hb2 & Hq2lo & Hq2hi).
  destruct (quotient_near B 8 ltac:(lia) ltac:(lia))
    as (qb & Hbb & Hqblo & Hqbhi & _ & Hqbsmall & _).
  specialize (Hqbsmall ltac:(lia)).
  assert (Hqbpos : 0 < qb) by lra.
  exists (binary64 (q2 / qb)). split.
  { unfold channel_count, int_truediv, float_truediv_int, float_of_int,
      float_truediv.
    rewrite (proj2 (Z.eqb_neq W 0)) by lia. fold L. fold x1.
    rewrite bind_run, Hb1, ret_run, bind_run, bind_run, Hbh, ret_run.
    rewrite (Qeq_bool_positive qh Hqhpos), ret_run, bind_run. fold x2.
    rewrite Hb2.
    change (8 =? 0)%Z with false. cbv iota.
    change (inject_Z 8) with 8 in Hbb |- *.
    rewrite Hbb, ret_run.
    by rewrite (Qeq_bool_positive qb Hqbpos). }
  intros -> k Hk.
  destruct (binary64_integer (inject_Z 8 / inject_Z 8) 1 ltac:(reflexivity)
              ltac:(lia)) as (qb' & Hbb' & Hqb').
  rewrite Hbb in Hbb'. injection Hbb' as <-.
  assert (Hqb1 : qb == 1) by (rewrite Hqb'; reflexivity).
  set (x3 := q2 / qb).
  assert (Hx3 : x3 == q2) by (unfold x3; rewrite Hqb1; field).
  assert (Hq2 : 0 <= q2) by lra.
  assert (Hx3cases : x3 == 0 \/ tiny <= x3).
  { destruct Hx2cases as [Hzero|Hsmall]; [left|right]; lra. }
  destruct (binary64_near x3 ltac:(lra) Hx3cases ltac:(lra))
    as (q3 & Hb3 & Hq3lo & Hq3hi).
  rewrite Hb3. cbn [float_eq_int]. rewrite Qeq_bool_iff.
  pose proof (inject_Z_le_literal k 1 ltac:(lia)) as HkQ.
  pose proof (inject_Z_le_literal 4 k ltac:(lia)) as HkQ'.
  change (inject_Z 1) with 1 in HkQ. change (inject_Z 4) with 4 in HkQ'.
  set (D := inject_Z W * inject_Z H).
  assert (HD : 0 < D) by (unfold D; nra).
  assert (Ht : x1 / inject_Z H * D == inject_Z L)
    by (unfold x1, D; field; lra).
  assert (Hx2t : x2 == q1 / inject_Z H) by (unfold x2; rewrite Hqh; reflexivity).
  split.
  - intros Hq3.
    (* k lies within three roundings of the quotient *)
    set (t := x1 / inject_Z H) in *.
    assert (Ht0 : 0 <= t) by (unfold t; apply Qle_shift_div_l; lra).
    assert (Hx2lo : t * (1 - eps) <= x2).
    { rewrite Hx2t. apply Qle_shift_div_l; [lra|].
      assert (Heq : t * (1 - eps) * inject_Z H == x1 * (1 - eps))
        by (unfold t; field; lra).
      by rewrite Heq. }
    assert (Hx2hi : x2 <= t * (1 + eps)).
    { rewrite Hx2t. apply Qle_shift_div_r; [lra|].
      assert (Heq : t * (1 + eps) * inject_Z H == x1 * (1 + eps))
        by (unfold t; field; lra).
      by rewrite Heq. }
    assert (Hup : inject_Z k <= t * (1 + 4 * eps)).
    { assert (q2 <= t * ((1 + eps) * (1 + eps))) by nra.
      assert (q3 <= t * ((1 + eps) * (1 + eps) * (1 + eps))) by nra.
      assert ((1 + eps) * (1 + eps) * (1 + eps) <= 1 + 4 * eps) by lra.
      rewrite <- Hq3. nra. }
    assert (Hdown : t * (1 - 3 * eps) <= inject_Z k).
    { assert (t * ((1 - eps) * (1 - eps)) <= q2) by nra.
      assert (t * ((1 - eps) * (1 - eps) * (1 - eps)) <= q3) by nra.
      assert (1 - 3 * eps <= (1 - eps) * (1 - eps) * (1 - eps)) by lra.
      rewrite <- Hq3. nra. }
    assert (HupD : inject_Z k * D <= inject_Z L * (1 + 4 * eps)).
    { rewrite <- Ht. nra. }
    assert (HdownD : inject_Z L * (1 - 3 * eps) <= inject_Z k * D).
    { rewrite <- Ht. nra. }
    assert (Hdiff : inject_Z (k * W * H - L) < 1 /\ -1 < inject_Z (k * W * H - L)).
    { unfold Z.sub. rewrite inject_Z_plus, inject_Z_opp, !inject_Z_mult.
      fold D. unfold D in HupD, HdownD. lra. }
    destruct Hdiff as [Hlt Hgt].
    change 1 with (inject_Z 1) in Hlt. change (-1) with (inject_Z (-1)) in Hgt.
    rewrite <- Zlt_Qlt in Hlt, Hgt. lia.
  - intros HLk.
    assert (Hx1k : x1 == inject_Z (k * H)).
    { unfold x1. rewrite HLk, !inject_Z_mult. field. lra. }
    destruct (binary64_integer x1 (k * H) Hx1k ltac:(nia)) as (q1' & Hb1' & Hq1').
    rewrite Hb1 in Hb1'. injection Hb1' as <-.
    assert (Hx2k : x2 == inject_Z k).
    { unfold x2. rewrite Hq1', Hx1k, Hqh, inject_Z_mult. field. lra. }
    destruct (binary64_integer x2 k Hx2k ltac:(lia)) as (q2' & Hb2' & Hq2').
    rewrite Hb2 in Hb2'. injection Hb2' as <-.
    assert (Hx3k : x3 == inject_Z k) by (rewrite Hx3, Hq2', Hx2k; reflexivity).
    destruct (binary64_integer x3 k Hx3k ltac:(lia)) as (q3' & Hb3' & Hq3').
    rewrite Hb3 in Hb3'. injection Hb3' as <-.
    by rewrite Hq3', Hx3k.
Qed.

(** Line 123 touches neither the files nor the log. *)
Lemma channel_count_run (len : nat) (W H B : Z) (w w' : World) :
  channel_count len W H B w = (fst (channel_count len W H B w'), w).
Proof.
  unfold channel_count, int_truediv, float_truediv_int, float_of_int,
    float_truediv.
  rewrite !bind_run.
  destruct (W =? 0)%Z; [done|].
  destruct (binary64 (inject_Z (Z.of_nat len) / inject_Z W)) as [q1| |];
    [|done..].
  rewrite !ret_run, !bind_run.
  destruct (binary64 (inject_Z H)) as [qh| |]; [|done..].
  rewrite !ret_run. destruct (Qeq_bool qh 0); [done|].
  rewrite !ret_run, !bind_run. change (8 =? 0)%Z with false. cbv iota.
  destruct (binary64 (inject_Z B / inject_Z 8)) as [qb| |]; [|done..].
  rewrite !ret_run. destruct (Qeq_bool qb 0); [done|].
  by destruct (binary64 (q1 / qh)).
Qed.

(** Line 123 raises nothing but the two errors of a division. *)
Lemma channel_count_raises (len : nat) (W H B : Z) (w w' : World) (e : Exn) :
  channel_count len W H B w = (Raise e, w') ->
  e = ZeroDivisionError \/ e = OverflowError.
Proof.
  unfold channel_count, int_truediv, float_truediv_int, float_of_int,
    float_truediv.
  rewrite !bind_run.
  destruct (W =? 0)%Z; [intros [= <- _]; by left|].
  destruct (binary64 (inject_Z (Z.of_nat len) / inject_Z W)) as [q1| |];
    [|intros [= <- _]; by right..].
  rewrite !ret_run, !bind_run.
  destruct (binary64 (inject_Z H)) as [qh| |]; [|intros [= <- _]; by right..].
  rewrite !ret_run. destruct (Qeq_bool qh 0); [intros [= <- _]; by left|].
  rewrite !ret_run, !bind_run. change (8 =? 0)%Z with false. cbv iota.
  destruct (binary64 (inject_Z B / inject_Z 8)) as [qb| |];
    [|intros [= <- _]; by right..].
  rewrite !ret_run. destruct (Qeq_bool qb 0); [intros [= <- _]; by left|].
  by destruct (binary64 (q1 / qh)).
Qed.

(** Line 123 when a size is zero, the others being plausible. *)
Lemma channel_count_zero (len : nat) (W H B : Z) (w : World) :
  (Z.of_nat len < 2 ^ 50)%Z ->
  (0 <= W < 2 ^ 32)%Z -> (0 <= H < 2 ^ 32)%Z -> (0 <= B < 2 ^ 32)%Z ->
  W = 0%Z \/ H = 0%Z \/ B = 0%Z ->
  channel_count len W H B w = (Raise ZeroDivisionError, w).
Proof.
  intros Hlen HW HH HB Hzero.
  unfold channel_count, int_truediv, float_truediv_int, float_of_int,
    float_truediv.
  rewrite !bind_run.
  destruct (Z.eqb_spec W 0) as [HW0|HW0]; [done|].
  destruct (quotient_near (Z.of_nat len) W ltac:(lia) ltac:(lia))
    as (q1 & -> & _ & _ & _ & _ & _).
  rewrite !ret_run, !bind_run.
  destruct (binary64_integer (inject_Z H) H (Qeq_refl _) ltac:(lia))
    as (qh & -> & Hqh).
  rewrite !ret_run.
  destruct (Z.eq_dec H 0%Z) as [->|HH0].
  { by rewrite (proj2 (Qeq_bool_iff qh 0) Hqh). }
  assert (Hqhpos : 0 < qh).
  { rewrite Hqh. apply inject_Z_pos. lia. }
  rewrite (Qeq_bool_positive qh Hqhpos), !ret_run, !bind_run.
  change (8 =? 0)%Z with false. cbv iota.
  destruct Hzero as [Hz | [Hz | ->]]; [done..|].
  rewrite (binary64_zero (inject_Z 0 / inject_Z 8)) by reflexivity.
  by rewrite ret_run.
Qed.

(** ** What [_save_bytes] computes of the sizes *)

Lemma channel_count_outcome (image : LTImage) (w : World) :
  channel_count (length image.(stream).(body).(rawdata))
    (fst image.(srcsize)) (snd image.(srcsize)) image.(bits) w
  = (channels_outcome image, w).
Proof. apply channel_count_run. Qed.

Lemma channels_outcome_raises (image : LTImage) (e : Exn) :
  channels_outcome image = Raise e ->
  e = ZeroDivisionError \/ e = OverflowError.
Proof.
  unfold channels_outcome.
  destruct (channel_count _ _ _ _ _) as [r w'] eqn:Hrun. simpl. intros ->.
  by apply channel_count_raises in Hrun.
Qed.

(** At 8 bits per component the channel count of the specification is
    [k] when the data has [k] bytes for each pixel. *)
Lemma channelCount_integer (image : LTImage) (k : Z) :
  (0 < fst image.(srcsize))%Z -> (0 < snd image.(srcsize))%Z ->
  image.(bits) = 8%Z ->
  channelCount image == inject_Z k
  <-> Z.of_nat (length image.(stream).(body).(rawdata))
      = (k * fst image.(srcsize) * snd image.(srcsize))%Z.
Proof.
  intros HW HH H8. unfold channelCount. rewrite H8.
  pose proof (inject_Z_pos _ HW) as HWQ. pose proof (inject_Z_pos _ HH) as HHQ.
  set (L := Z.of_nat _). set (W := fst _) in *. set (H := snd _) in *.
  split.
  - intros Heq.
    assert (HL : inject_Z L == inject_Z (k * W * H)).
    { rewrite !inject_Z_mult, <- Heq. change (inject_Z 8) with 8. field. lra. }
    by apply inject_Z_injective.
  - intros HLk. rewrite HLk, !inject_Z_mult. change (inject_Z 8) with 8. field. lra.
Qed.

(** For plausible sizes line 123 raises nothing, and the mode that the
    [if] chain sets from the float is the one of the table of the
    specification at the exact channel count. *)
Lemma channels_outcome_plausible (image : LTImage) :
  plausible_sizes image ->
  exists channels,
    channels_outcome image = Ok channels
    /\ select_mode image.(bits) channels
       = mode_of <$> pixel_format image.(bits) (channelCount image).
Proof.
  intros (HW & HH & HB & Hlen).
  destruct (channel_count_plausible _ _ _ _ {| fs := ∅; decoded := [] |}
              Hlen HW HH HB) as (channels & Hrun & Htable).
  exists channels. split; [unfold channels_outcome; by rewrite Hrun|].
  unfold select_mode, pixel_format.
  destruct (bits image =? 1)%Z; [done|].
  destruct (Z.eqb_spec (bits image) 8) as [H8|H8]; [|done]. cbn [andb].
  assert (Hsame : forall k, (1 <= k <= 4)%Z ->
             float_eq_int channels k
             = Qeq_bool (channelCount image) (inject_Z k)).
  { intros k Hk. apply eq_true_iff_eq.
    rewrite (Htable H8 k Hk), Qeq_bool_iff.
    symmetry. apply channelCount_integer; [lia..|done]. }
  rewrite !Hsame by lia.
  change (inject_Z 1) with 1. change (inject_Z 3) with 3.
  change (inject_Z 4) with 4.
  by repeat (destruct (Qeq_bool _ _); [done|]).
Qed.

(** A zero among sizes that are otherwise plausible. *)
Lemma channels_outcome_zero (image : LTImage) :
  (0 <= fst image.(srcsize) < 2 ^ 32)%Z ->
  (0 <= snd image.(srcsize) < 2 ^ 32)%Z ->
  (0 <= image.(bits) < 2 ^ 32)%Z ->
  (Z.of_nat (length image.(stream).(body).(rawdata)) < 2 ^ 50)%Z ->
  fst image.(srcsize) = 0%Z \/ snd image.(srcsize) = 0%Z
  \/ image.(bits) = 0%Z ->
  channels_outcome image = Raise ZeroDivisionError.
Proof.
  intros HW HH HB Hlen Hzero. unfold channels_outcome.
  by rewrite channel_count_zero.
Qed.

End Binary64.

Section ImageWriterProperties.

Variables LITERALS_DCT_DECODE LITERALS_JBIG2_DECODE LITERALS_JPX_DECODE
  : list string.
Variable PIL_installed : bool.
Variable PILImage : Type.
Variable Image_open : bytes -> string + PILImage.
Variable Image_frombytes : string -> Z * Z -> bytes -> string -> string + PILImage.
Variable Image_save : PILImage -> string -> option string -> string + bytes.
Variable get_segments : bytes -> JBIG2.Error + list JBIG2.Segment.
Variable write_file : list JBIG2.Segment -> bytes.

Local Abbreviation save_bytes :=
  (_save_bytes PIL_installed PILImage Image_frombytes Image_save).
Local Abbreviation save_jpeg2000 :=
  (_save_jpeg2000 PIL_installed PILImage Image_open Image_save).
Local Abbreviation save_jbig2 :=
  (_save_jbig2 LITERALS_JBIG2_DECODE get_segments write_file).
Local Abbreviation export :=
  (export_image LITERALS_DCT_DECODE LITERALS_JBIG2_DECODE LITERALS_JPX_DECODE
     PIL_installed PILImage Image_open Image_frombytes Image_save
     get_segments write_file).
Local Abbreviation kind := (has_kind LITERALS_DCT_DECODE LITERALS_JBIG2_DECODE LITERALS_JPX_DECODE).
Local Abbreviation classify_chain :=
  (classify LITERALS_DCT_DECODE LITERALS_JBIG2_DECODE LITERALS_JPX_DECODE).
Local Abbreviation transcoded := (transcode get_segments write_file).
Local Abbreviation export_with :=
  (export_by LITERALS_JBIG2_DECODE PIL_installed PILImage Image_open
     Image_frombytes Image_save get_segments write_file).

(** ** The pixel format table *)

Lemma pixel_format_None bpc channels :
  pixel_format bpc channels = None
  <-> bpc <> 1%Z
      /\ ~ (bpc = 8%Z /\ (channels == 1 \/ channels == 3 \/ channels == 4)%Q).
Proof.
  unfold pixel_format.
  destruct (Z.eqb_spec bpc 1) as [->|Hne1]; [by intuition|].
  destruct (Z.eqb_spec bpc 8) as [->|Hne8]; [|by intuition].
  destruct (Qeq_bool channels 1) eqn:H1;
    [apply Qeq_bool_iff in H1; split; [done|intros [_ []]; auto]|].
  destruct (Qeq_bool channels 3) eqn:H3;
    [apply Qeq_bool_iff in H3; split; [done|intros [_ []]; auto]|].
  destruct (Qeq_bool channels 4) eqn:H4;
    [apply Qeq_bool_iff in H4; split; [done|intros [_ []]; auto]|].
  split; [|done]. intros _. split; [done|].
  intros [_ [Hc|[Hc|Hc]]]; apply Qeq_bool_iff in Hc; congruence.
Qed.

Lemma pixel_format_table bpc channels format :
  (bpc = 1%Z /\ format = Bilevel)
  \/ (bpc = 8%Z /\ (channels == 1)%Q /\ format = Grayscale)
  \/ (bpc = 8%Z /\ (channels == 3)%Q /\ format = RGB)
  \/ (bpc = 8%Z /\ (channels == 4)%Q /\ format = CMYK) ->
  pixel_format bpc channels = Some format.
Proof.
  unfold pixel_format.
  intros [[-> ->]|[(-> & Hc & ->)|[(-> & Hc & ->)|(-> & Hc & ->)]]]; simpl;
    [done| | |].
  - apply Qeq_bool_iff in Hc. by rewrite Hc.
  - assert (Qeq_bool channels 1 = false) as ->.
    { apply not_true_is_false. intros H1. apply Qeq_bool_iff in H1.
      rewrite Hc in H1. discriminate H1. }
    apply Qeq_bool_iff in Hc. by rewrite Hc.
  - assert (Qeq_bool channels 1 = false) as ->.
    { apply not_true_is_false. intros H1. apply Qeq_bool_iff in H1.
      rewrite Hc in H1. discriminate H1. }
    assert (Qeq_bool channels 3 = false) as ->.
    { apply not_true_is_false. intros H1. apply Qeq_bool_iff in H1.
      rewrite Hc in H1. discriminate H1. }
    apply Qeq_bool_iff in Hc. by rewrite Hc.
Qed.

(** A rational that is equal to an integer reduces to denominator 1. *)
Lemma is_integer_inject_Z (q : Q) (z : Z) : (q == inject_Z z)%Q -> is_integer q = true.
Proof.
  intros Heq. unfold is_integer. rewrite (Qred_complete _ _ Heq).
  by rewrite Qcanon.Qred_identity by apply Z.gcd_1_r.
Qed.

Lemma fractional_channels_unmapped bpc channels :
  bpc = 8%Z -> is_integer channels = false -> pixel_format bpc channels = None.
Proof.
  intros -> Hfrac. apply pixel_format_None. split; [done|].
  intros [_ [Hc|[Hc|Hc]]].
  - by rewrite (is_integer_inject_Z _ 1 Hc) in Hfrac.
  - by rewrite (is_integer_inject_Z _ 3 Hc) in Hfrac.
  - by rewrite (is_integer_inject_Z _ 4 Hc) in Hfrac.
Qed.

(** ** The four [_save_*] methods, run on an arbitrary world *)

Lemma open_assigned self image ext ids w :
  open_wb (assigned_path self image ext w) (logged ids w)
  = match node_at (fs w) self.(outdir) with
    | Some Dir =>
      (Ok tt, set_fs (<[assigned_path self image ext w := File []]> (fs w))
                (logged ids w))
    | Some (File _) => (Raise NotADirectoryError, logged ids w)
    | None => (Raise FileNotFoundError, logged ids w)
    end.
Proof.
  unfold assigned_path. rewrite open_wb_fresh; [done|].
  apply (assigned_path_free self image ext w).
Qed.

Lemma logged_logged ids1 ids2 w :
  logged ids2 (logged ids1 w) = logged (ids1 ++ ids2) w.
Proof. unfold logged. simpl. by rewrite app_assoc. Qed.

Lemma logged_nil w : logged [] w = w.
Proof. destruct w. unfold logged. simpl. by rewrite app_nil_r. Qed.

Lemma save_jpeg_run self image w :
  let w1 := logged [objid image.(stream).(body)] w in
  let p := assigned_path self image ".jpg" w in
  _save_jpeg self image w
  = match node_at (fs w) self.(outdir) with
    | Some Dir =>
      (Ok (assigned_name self image ".jpg" w),
       set_fs (<[p := File image.(stream).(body).(rawdata)]> (fs w)) w1)
    | Some (File _) => (Raise NotADirectoryError, w1)
    | None => (Raise FileNotFoundError, w1)
    end.
Proof.
  intros w1 p. subst w1 p. unfold _save_jpeg.
  rewrite bind_run, get_data_run.
  rewrite bind_run, create_unique_image_name_assigned.
  rewrite assigned_name_logged, assigned_path_logged.
  rewrite bind_run, open_assigned.
  destruct (node_at (fs w) (outdir self)) as [[|content]|]; try done.
  by rewrite bind_run, fp_write_fresh.
Qed.

Lemma save_jpeg2000_run self image w :
  let w1 := logged [objid image.(stream).(body)] w in
  let chosen := assigned_name self image ".jp2" w in
  let p := assigned_path self image ".jp2" w in
  let w2 := set_fs (<[p := File []]> (fs w)) w1 in
  save_jpeg2000 self image w
  = match node_at (fs w) self.(outdir) with
    | Some Dir =>
      if PIL_installed then
        match Image_open image.(stream).(body).(rawdata) with
        | inl msg => (Raise (PILError msg), w2)
        | inr i =>
          match Image_save i chosen (Some "JPEG2000"%string) with
          | inl msg => (Raise (PILError msg), w2)
          | inr out => (Ok chosen, set_fs (<[p := File out]> (fs w)) w1)
          end
        end
      else (Raise (ImportError PIL_ERROR_MESSAGE), w2)
    | Some (File _) => (Raise NotADirectoryError, w1)
    | None => (Raise FileNotFoundError, w1)
    end.
Proof.
  intros w1 chosen p w2. subst w1 chosen p w2. unfold _save_jpeg2000.
  rewrite bind_run, get_data_run.
  rewrite bind_run, create_unique_image_name_assigned.
  rewrite assigned_name_logged, assigned_path_logged.
  rewrite bind_run, open_assigned.
  destruct (node_at (fs w) (outdir self)) as [[|content]|]; try done.
  rewrite bind_run. unfold import_PIL_Image.
  destruct PIL_installed; [|done].
  rewrite ret_run, bind_run.
  destruct (Image_open _) as [msg|i]; [done|]. simpl lift_pil.
  rewrite ret_run, bind_run. unfold assigned_path at 1. rewrite basename_join.
  destruct (Image_save _ _ _) as [msg|out]; [done|]. simpl lift_pil.
  rewrite ret_run, bind_run. by rewrite fp_write_fresh.
Qed.

(** The JBIG2-family entries of a filter chain, in order. *)
Local Abbreviation jbig2_entries filters :=
  (List.filter (fun entry => kind JBIG2_family (fst entry)) filters).

Lemma collect_global_streams_run filters : forall acc w,
  collect_global_streams LITERALS_JBIG2_DECODE filters acc w
  = match mapM globals_reference (jbig2_entries filters) with
    | Some refs => (Ok (acc ++ map resolve refs), w)
    | None => (Raise (KeyError "JBIG2Globals"), w)
    end.
Proof.
  unfold globals_reference.
  induction filters as [|[filter_name params] rest IH]; intros acc w; simpl.
  - by rewrite app_nil_r.
  - destruct (bool_decide (filter_name ∈ LITERALS_JBIG2_DECODE)); [|apply IH].
    simpl.
    destruct (params !! "JBIG2Globals"%string) as [ref|]; [|done].
    rewrite IH. simpl.
    destruct (mapM _ _) as [refs|]; [|done].
    simpl. by rewrite <- app_assoc.
Qed.

Lemma save_jbig2_run self image w :
  let chosen := assigned_name self image ".jb2" w in
  let p := assigned_path self image ".jb2" w in
  let w2 := set_fs (<[p := File []]> (fs w)) w in
  let image_stream := image.(stream).(body) in
  save_jbig2 self image w
  = match node_at (fs w) self.(outdir) with
    | Some Dir =>
      match mapM globals_reference (jbig2_entries image.(stream).(get_filters)) with
      | None => (Raise (KeyError "JBIG2Globals"), w2)
      | Some [] =>
        transcoded (rawdata image_stream) chosen p (fs w)
          (logged [objid image_stream] w2)
      | Some [ref] =>
        transcoded (rstrip_newlines (rawdata (resolve ref))
                   ++ rawdata image_stream) chosen p (fs w)
          (logged [objid (resolve ref); objid image_stream] w2)
      | Some (_ :: _ :: _) => (Raise (PDFValueError GLOBALS_MESSAGE), w2)
      end
    | Some (File _) => (Raise NotADirectoryError, w)
    | None => (Raise FileNotFoundError, w)
    end.
Proof.
  intros chosen p w2 image_stream. subst chosen p w2 image_stream.
  unfold _save_jbig2.
  rewrite bind_run, create_unique_image_name_assigned.
  rewrite bind_run. rewrite <- (logged_nil w) at 2. rewrite open_assigned, logged_nil.
  destruct (node_at (fs w) (outdir self)) as [[|content]|]; try done.
  rewrite bind_run, collect_global_streams_run.
  destruct (mapM globals_reference _) as [refs|]; [|done].
  destruct refs as [|ref [|ref2 refs]]; simpl; try done.
  - rewrite bind_run, ret_run, bind_run, get_data_run, bind_run.
    unfold transcode. destruct (get_segments _) as [e|segments]; [done|].
    simpl lift_jbig2. rewrite ret_run, bind_run.
    by rewrite (fp_write_opened _ _ (fs w)).
  - rewrite bind_run, bind_run, get_data_run, ret_run, bind_run, get_data_run,
      bind_run, logged_logged.
    unfold transcode. destruct (get_segments _) as [e|segments]; [done|].
    simpl lift_jbig2. rewrite ret_run, bind_run.
    by rewrite (fp_write_opened _ _ (fs w)).
Qed.

Lemma save_bytes_run self image w :
  let chosen := assigned_name self image ".png" w in
  let p := assigned_path self image ".png" w in
  let image_stream := image.(stream).(body) in
  let w1 := logged [objid image_stream] w in
  let w2 := set_fs (<[p := File []]> (fs w)) w1 in
  let w3 := logged [objid image_stream] w2 in
  save_bytes self image w
  = match channels_outcome image with
    | Raise e => (Raise e, w1)
    | Ok channels =>
      match node_at (fs w) self.(outdir) with
      | Some Dir =>
        if PIL_installed then
          match select_mode image.(bits) channels with
          | None => (Raise (UnboundLocalError "mode"), w2)
          | Some mode =>
            match Image_frombytes mode image.(srcsize)
                    (rawdata image_stream) "raw" with
            | inl msg => (Raise (PILError msg), w3)
            | inr img =>
              match Image_save img chosen None with
              | inl msg => (Raise (PILError msg), w3)
              | inr out => (Ok chosen, set_fs (<[p := File out]> (fs w)) w3)
              end
            end
          end
        else (Raise (ImportError PIL_ERROR_MESSAGE), w2)
      | Some (File _) => (Raise NotADirectoryError, w1)
      | None => (Raise FileNotFoundError, w1)
      end
    end.
Proof.
  intros chosen p image_stream w1 w2 w3. subst chosen p image_stream w1 w2 w3.
  unfold _save_bytes.
  rewrite bind_run, create_unique_image_name_assigned.
  pose proof (channel_count_outcome image
                (logged [objid (body (stream image))] w)) as Hcount.
  destruct (srcsize image) as [width height] eqn:Hsize. simpl in Hcount |- *.
  rewrite bind_run, get_data_run, bind_run, Hcount.
  destruct (channels_outcome image) as [channels|e]; [|done].
  rewrite bind_run, open_assigned.
  destruct (node_at (fs w) (outdir self)) as [[|content]|]; try done.
  rewrite bind_run. unfold import_PIL_Image.
  destruct PIL_installed; [|done].
  rewrite ret_run.
  destruct (select_mode _ _) as [mode|]; [|done].
  rewrite bind_run, get_data_run, bind_run.
  destruct (Image_frombytes _ _ _ _) as [msg|img]; [done|]. simpl lift_pil.
  rewrite ret_run, bind_run. unfold assigned_path at 1. rewrite basename_join.
  destruct (Image_save _ _ _) as [msg|out]; [done|]. simpl lift_pil.
  rewrite ret_run, bind_run. by rewrite (fp_write_opened _ _ (fs w)).
Qed.

Lemma is_jbig2_loop_existsb filters :
  _is_jbig2_iamge_loop LITERALS_JBIG2_DECODE filters
  = existsb (fun entry => kind JBIG2_family (fst entry)) filters.
Proof.
  induction filters as [|[filter_name params] rest IH]; simpl; [done|].
  rewrite IH. by destruct (bool_decide _).
Qed.

Lemma export_image_classified self image :
  export self image
  = export_with (classify_chain image.(stream).(get_filters)) self image.
Proof.
  unfold export_image, classify, last_has_kind, _is_jbig2_iamge.
  rewrite is_jbig2_loop_existsb.
  destruct (get_filters (stream image)) as [|entry rest] eqn:Hf; [done|].
  destruct (last (entry :: rest)) as [[last_name last_params]|] eqn:Hl.
  - simpl. repeat (destruct (bool_decide _); try done).
    all: by destruct (existsb _ _).
  - by apply last_None in Hl.
Qed.

(** C1. [export_image] picks its strategy by the precedence of the
    classifier: no filter, raw bitmap; else the last filter decides for
    JPEG, then for JPEG 2000; else a JBIG2 filter anywhere in the chain
    decides for the JBIG2 export; else raw bitmap.  So a JBIG2 filter
    followed by a DCT filter is exported as JPEG, and a JBIG2 filter
    followed by a filter of no family as JBIG2. *)
Theorem export_image_precedence :
  (forall self image,
     export self image
     = export_with (classify_chain image.(stream).(get_filters)) self image)
  /\ (forall a b pa pb,
        kind JBIG2_family a = true -> kind DCT_family b = true ->
        classify_chain [(a, pa); (b, pb)] = PassthroughJPEG)
  /\ (forall a b pa pb,
        kind JBIG2_family a = true -> kind Other b = true ->
        classify_chain [(a, pa); (b, pb)] = JBIG2Transcode).
Proof.
  split; [|split].
  - apply export_image_classified.
  - intros a b pa pb Ha Hb. unfold classify, last_has_kind. simpl in *.
    by rewrite Hb.
  - intros a b pa pb Ha Hb. unfold classify, last_has_kind. simpl in *.
    apply andb_true_iff in Hb as [Hb _]. apply andb_true_iff in Hb as [Hd Hx].
    apply negb_true_iff in Hd, Hx. by rewrite Hd, Hx, Ha.
Qed.

(** C2, as the code has it.  With the output directory in place, Pillow
    installed, a name of one component and plausible sizes, [_save_bytes]
    fails with the unbound [mode] (the code's form of
    UnsupportedPixelFormat) exactly when bits per component is not 1 and
    (bits, channels) is none of (8,1), (8,3), (8,4); at 8 bits that is so
    for every channel count that is not an integer.  At 1 bit the mode is
    set whatever the channel count is. *)
Theorem save_bytes_unsupported_pixel_format self image w :
  usable self w -> PIL_installed = true ->
  one_component image.(name) = true ->
  plausible_sizes image ->
  (fst (save_bytes self image w) = Raise (UnboundLocalError "mode")
   <-> image.(bits) <> 1%Z
       /\ ~ (image.(bits) = 8%Z
             /\ (channelCount image == 1 \/ channelCount image == 3
                 \/ channelCount image == 4)%Q))
  /\ (image.(bits) = 8%Z -> is_integer (channelCount image) = false ->
      fst (save_bytes self image w) = Raise (UnboundLocalError "mode")).
Proof.
  intros Hdir Hpil Hname Hsizes.
  destruct (channels_outcome_plausible image Hsizes)
    as (channels & Hchannels & Hmode).
  assert (Hiff : fst (save_bytes self image w) = Raise (UnboundLocalError "mode")
                 <-> pixel_format image.(bits) (channelCount image) = None).
  { rewrite save_bytes_run, Hchannels.
    unfold usable in Hdir. rewrite Hdir, Hpil, Hmode.
    destruct (pixel_format _ _) as [format|]; simpl; [|done].
    destruct (Image_frombytes _ _ _ _) as [msg|img]; [done|].
    by destruct (Image_save _ _ _). }
  split.
  - rewrite Hiff. apply pixel_format_None.
  - intros H8 Hfrac. apply Hiff. by apply fractional_channels_unmapped.
Qed.

(** C6. With the output directory in place, Pillow installed, a name of
    one component and plausible sizes, the mode that [_save_bytes] passes
    to [Image.frombytes] is the one of the table, Bilevel at 1 bit for any channel count, Grayscale,
    RGB and CMYK at 8 bits for 1, 3 and 4 channels, and the bytes it passes
    are the bytes of the stream, as they are. *)
Theorem save_bytes_pixel_format self image w format :
  usable self w -> PIL_installed = true ->
  one_component image.(name) = true ->
  plausible_sizes image ->
  (image.(bits) = 1%Z /\ format = Bilevel)
  \/ (image.(bits) = 8%Z /\ (channelCount image == 1)%Q /\ format = Grayscale)
  \/ (image.(bits) = 8%Z /\ (channelCount image == 3)%Q /\ format = RGB)
  \/ (image.(bits) = 8%Z /\ (channelCount image == 4)%Q /\ format = CMYK) ->
  let chosen := assigned_name self image ".png" w in
  let p := assigned_path self image ".png" w in
  let image_stream := image.(stream).(body) in
  let w3 := logged [objid image_stream]
              (set_fs (<[p := File []]> (fs w)) (logged [objid image_stream] w)) in
  save_bytes self image w
  = match Image_frombytes (mode_of format) image.(srcsize)
            (rawdata image_stream) "raw" with
    | inl msg => (Raise (PILError msg), w3)
    | inr img =>
      match Image_save img chosen None with
      | inl msg => (Raise (PILError msg), w3)
      | inr out => (Ok chosen, set_fs (<[p := File out]> (fs w)) w3)
      end
    end.
Proof.
  intros Hdir Hpil Hname Hsizes Htable. simpl.
  destruct (channels_outcome_plausible image Hsizes)
    as (channels & Hchannels & Hmode).
  rewrite save_bytes_run, Hchannels.
  unfold usable in Hdir. rewrite Hdir, Hpil, Hmode.
  by rewrite (pixel_format_table _ _ _ Htable).
Qed.

Ltac settle_left_behind :=
  intros Hrun;
  first
    [ discriminate Hrun
    | injection Hrun as <- <-; simpl;
      split; [apply assigned_path_lookup|];
      split;
      [ first [apply assigned_path_lookup | apply lookup_insert_eq]
      | intros q Hq; first [done | by rewrite lookup_insert_ne] ] ].

(** C3, as the code has it.  When an export fails, the only path of the
    file system that can differ is the one assigned to the export, which
    was free before: it is still free when the exception came before the
    file was opened (a zero size, an output directory that is not there),
    and it holds an empty file when the exception was raised after
    (unbound mode, Pillow missing or failing, globals multiplicity or
    lookup, segment parse errors). *)
Theorem failed_export_leaves self image w e w' :
  export self image w = (Raise e, w') ->
  let p := assigned_path self image
             (extension (classify_chain image.(stream).(get_filters))) w in
  fs w !! p = None
  /\ fs w' !! p = left_behind e
  /\ forall q, q <> p -> fs w' !! q = fs w !! q.
Proof.
  rewrite export_image_classified.
  destruct (classify_chain _); simpl export_by; simpl extension.
  - rewrite save_bytes_run.
    destruct (channels_outcome image) as [channels|division] eqn:Hchannels.
    2:{ apply channels_outcome_raises in Hchannels as [-> | ->];
          settle_left_behind. }
    destruct (node_at (fs w) (outdir self)) as [[|content]|];
      [|settle_left_behind..].
    destruct PIL_installed; [|settle_left_behind].
    destruct (select_mode _ _) as [mode|]; [|settle_left_behind].
    destruct (Image_frombytes _ _ _ _) as [msg|img]; [settle_left_behind|].
    destruct (Image_save _ _ _) as [msg|out]; settle_left_behind.
  - rewrite save_jpeg_run.
    destruct (node_at (fs w) (outdir self)) as [[|content]|]; settle_left_behind.
  - rewrite save_jpeg2000_run.
    destruct (node_at (fs w) (outdir self)) as [[|content]|];
      [|settle_left_behind..].
    destruct PIL_installed; [|settle_left_behind].
    destruct (Image_open _) as [msg|img]; [settle_left_behind|].
    destruct (Image_save _ _ _) as [msg|out]; settle_left_behind.
  - rewrite save_jbig2_run.
    destruct (node_at (fs w) (outdir self)) as [[|content]|];
      [|settle_left_behind..].
    destruct (mapM _ _) as [[|ref [|ref2 refs]]|]; unfold transcode;
      try settle_left_behind.
    all: destruct (get_segments _) as [err|segments]; settle_left_behind.
Qed.

(** What holds of C4 on the code: when every JBIG2 entry of the chain
    carries a globals reference and more than one does, [_save_jbig2]
    raises the [PDFValueError] with no stream decoded. *)
Lemma globals_multiplicity_before_reads self image w refs :
  usable self w ->
  mapM globals_reference (jbig2_entries image.(stream).(get_filters)) = Some refs ->
  (1 < length refs)%nat ->
  exists w',
    save_jbig2 self image w = (Raise (PDFValueError GLOBALS_MESSAGE), w')
    /\ decoded w' = decoded w.
Proof.
  intros Hdir Hrefs Hmany. rewrite save_jbig2_run.
  unfold usable in Hdir. rewrite Hdir, Hrefs.
  destruct refs as [|ref [|ref2 refs]]; simpl in Hmany; [lia..|].
  by eexists.
Qed.

(** What the code does on a JBIG2 entry without a globals reference: the
    subscript raises, whatever else the chain holds. *)
Lemma missing_globals_raises self image w :
  usable self w ->
  Exists (fun entry => globals_reference entry = None)
    (jbig2_entries image.(stream).(get_filters)) ->
  fst (save_jbig2 self image w) = Raise (KeyError "JBIG2Globals").
Proof.
  intros Hdir Hmissing. rewrite save_jbig2_run.
  unfold usable in Hdir. rewrite Hdir.
  by rewrite (mapM_None_2 _ _ Hmissing).
Qed.


End ImageWriterProperties.

(** ** The claims on the sample collaborators *)

Lemma export_image_precedence_witness :
  classify Sample.LITERALS_DCT_DECODE Sample.LITERALS_JBIG2_DECODE
    Sample.LITERALS_JPX_DECODE
    [("JBIG2Decode"%string, ∅); ("DCTDecode"%string, ∅)] = PassthroughJPEG
  /\ classify Sample.LITERALS_DCT_DECODE Sample.LITERALS_JBIG2_DECODE
       Sample.LITERALS_JPX_DECODE
       [("JBIG2Decode"%string, ∅); ("FlateDecode"%string, ∅)] = JBIG2Transcode.
Proof.
  pose proof (export_image_precedence
                Sample.LITERALS_DCT_DECODE Sample.LITERALS_JBIG2_DECODE
                Sample.LITERALS_JPX_DECODE true Sample.Raster Sample.Image_open
                Sample.Image_frombytes Sample.Image_save Sample.get_segments
                Sample.write_file) as (_ & Hjpeg & Hjbig2).
  split; [apply Hjpeg | apply Hjbig2]; reflexivity.
Defined.

(** 10 x 10 at 8 bits with 133 bytes: 1.33 channels, the mode stays
    unbound. *)
Lemma save_bytes_unsupported_pixel_format_witness :
  fst (_save_bytes true Sample.Raster Sample.Image_frombytes Sample.Image_save
         Sample.writer (Sample.raw_image 10 10 8 133) Sample.world)
  = Raise (UnboundLocalError "mode").
Proof.
  assert (Hdir : usable Sample.writer Sample.world) by reflexivity.
  assert (Hsizes : plausible_sizes (Sample.raw_image 10 10 8 133))
    by (repeat split; reflexivity).
  apply (proj2 (save_bytes_unsupported_pixel_format true Sample.Raster
                  Sample.Image_frombytes Sample.Image_save Sample.writer
                  (Sample.raw_image 10 10 8 133) Sample.world
                  Hdir eq_refl eq_refl Hsizes)).
  - reflexivity.
  - vm_compute. reflexivity.
Defined.

(** The claim C2 as it is stated fails at 1 bit per component: a row of 10
    pixels in 2 bytes has 1.6 channels, which is not an integer, and is
    exported all the same. *)
Lemma bilevel_fractional_channels_exported :
  is_integer (channelCount (Sample.raw_image 10 1 1 2)) = false
  /\ fst (_save_bytes true Sample.Raster Sample.Image_frombytes Sample.Image_save
            Sample.writer (Sample.raw_image 10 1 1 2) Sample.world)
     = Ok "img.png"%string.
Proof. split; vm_compute; reflexivity. Qed.

(** 10 x 10 at 8 bits with 300 bytes is handed over as RGB. *)
Lemma save_bytes_pixel_format_witness :
  _save_bytes true Sample.Raster Sample.Image_frombytes Sample.Image_save
    Sample.writer (Sample.raw_image 10 10 8 300) Sample.world
  = (Ok "img.png"%string,
     {| fs := {[ ["out"%string] := Dir;
                 ["out"; "img.png"]%string := File (repeat x01 300) ]};
        decoded := [7; 7] |}).
Proof.
  assert (Hdir : usable Sample.writer Sample.world) by reflexivity.
  assert (Hsizes : plausible_sizes (Sample.raw_image 10 10 8 300))
    by (repeat split; reflexivity).
  assert (Hc : (channelCount (Sample.raw_image 10 10 8 300) == 3)%Q)
    by (vm_compute; reflexivity).
  rewrite (save_bytes_pixel_format true Sample.Raster Sample.Image_frombytes
             Sample.Image_save Sample.writer (Sample.raw_image 10 10 8 300)
             Sample.world RGB Hdir eq_refl eq_refl Hsizes
             (or_intror (or_intror (or_introl (conj eq_refl (conj Hc eq_refl)))))).
  vm_compute. reflexivity.
Defined.

(** The claim C3 as it is stated fails: the export of 133 bytes as 10 x 10
    at 8 bits raises, and the output directory holds [img.png], empty. *)
Lemma failed_export_leaves_empty_file :
  fst (Sample.export Sample.writer (Sample.raw_image 10 10 8 133) Sample.world)
  = Raise (UnboundLocalError "mode")
  /\ fs (snd (Sample.export Sample.writer (Sample.raw_image 10 10 8 133)
                Sample.world)) !! ["out"; "img.png"]%string
     = Some (File []).
Proof. split; vm_compute; reflexivity. Qed.

Lemma failed_export_leaves_witness :
  fs Sample.world !! ["out"; "img.png"]%string = None
  /\ fs (snd (Sample.export Sample.writer (Sample.raw_image 10 10 8 133)
                Sample.world)) !! ["out"; "img.png"]%string
     = Some (File [])
  /\ forall q, q <> ["out"; "img.png"]%string ->
       fs (snd (Sample.export Sample.writer (Sample.raw_image 10 10 8 133)
                  Sample.world)) !! q
       = fs Sample.world !! q.
Proof.
  apply (failed_export_leaves
           Sample.LITERALS_DCT_DECODE Sample.LITERALS_JBIG2_DECODE
           Sample.LITERALS_JPX_DECODE true Sample.Raster Sample.Image_open
           Sample.Image_frombytes Sample.Image_save Sample.get_segments
           Sample.write_file
           Sample.writer (Sample.raw_image 10 10 8 133) Sample.world
           (UnboundLocalError "mode")).
  vm_compute. reflexivity.
Defined.

(** C4. A chain of three JBIG2 entries of which the last two carry a
    globals reference holds more than one globals reference, and the export
    raises [KeyError] at the first entry, not the [PDFValueError] of the
    multiplicity check. *)
Theorem mixed_globals_chain_raises_KeyError :
  fst (Sample.export Sample.writer
         (Sample.filtered_image
            [("JBIG2Decode"%string, ∅);
             ("JBIG2Decode"%string, Sample.globals 8 []);
             ("JBIG2Decode"%string, Sample.globals 9 [])] [])
         Sample.world)
  = Raise (KeyError "JBIG2Globals").
Proof. vm_compute. reflexivity. Qed.

(** C8. A JBIG2 image whose one filter entry carries no globals reference
    is not exported: the lookup of [JBIG2Globals] raises [KeyError] before
    the image stream is read, and the opened file stays empty. *)
Theorem jbig2_without_globals_raises_KeyError :
  Sample.export Sample.writer
    (Sample.filtered_image [("JBIG2Decode"%string, ∅)]
       (JBIG2.encode_segment Sample.segment1))
    Sample.world
  = (Raise (KeyError "JBIG2Globals"),
     {| fs := {[ ["out"%string] := Dir; ["out"; "img.jb2"]%string := File [] ]};
        decoded := [] |}).
Proof. vm_compute. reflexivity. Qed.


(** Two resources named [img]: in the empty directory the name is
    [img.png], and once a file was written under it the next name is
    [img.0.png]. *)
Lemma unique_image_name_first_free_witness :
  fst (_create_unique_image_name Sample.writer (Sample.raw_image 2 2 8 4)
         ".png" Sample.world)
  = Ok ("img.png"%string, os_path_join Sample.writer.(outdir) "img.png")
  /\ fst (_create_unique_image_name Sample.writer (Sample.raw_image 2 2 8 4)
            ".png"
            (set_fs (<[os_path_join Sample.writer.(outdir) "img.png"
                       := File (repeat x01 4)]> (fs Sample.world))
               Sample.world))
     = Ok ("img.0.png"%string, os_path_join Sample.writer.(outdir) "img.0.png").
Proof.
  apply (proj1 (proj2 unique_image_name_first_free)
           Sample.writer (Sample.raw_image 2 2 8 4) Sample.world
           (set_fs (<[os_path_join Sample.writer.(outdir) "img.png"
                      := File (repeat x01 4)]> (fs Sample.world))
              Sample.world)
           (repeat x01 4)).
  - reflexivity.
  - vm_compute. reflexivity.
  - vm_compute. reflexivity.
  - reflexivity.
Defined.

(** [ImageWriter("out/a/b")] where only [out] exists makes [out/a] and
    [out/a/b]. *)
Lemma init_creates_outdir_witness :
  fst (__init__ ["out"; "a"; "b"]%string Sample.world)
  = Ok {| outdir := ["out"; "a"; "b"]%string |}
  /\ node_at (fs (snd (__init__ ["out"; "a"; "b"]%string Sample.world)))
       ["out"; "a"]%string = Some Dir
  /\ node_at (fs (snd (__init__ ["out"; "a"; "b"]%string Sample.world)))
       ["out"; "a"; "b"]%string = Some Dir.
Proof.
  destruct (proj2 (init_creates_outdir ["out"; "a"; "b"]%string Sample.world))
    as (w' & Hrun & _ & Hdirs & _); [vm_compute; reflexivity..|].
  rewrite Hrun. split; [done|]. split.
  - apply (Hdirs ["out"; "a"]%string). by exists ["b"%string].
  - by apply (Hdirs ["out"; "a"; "b"]%string).
Defined.

(** * The segment container: what is written is what was read *)

(** ** Big-endian integers *)

Lemma to_N_byte_of_N (n : N) : Byte.to_N (byte_of_N n) = n mod 256.
Proof.
  unfold byte_of_N. destruct (Byte.of_N (n mod 256)) as [b|] eqn:Hb.
  - by apply Byte.to_of_N.
  - apply Byte.of_N_None_iff in Hb.
    pose proof (N.mod_upper_bound n 256). lia.
Qed.

Lemma be_decode_snoc (bs : bytes) (b : byte) :
  be_decode (bs ++ [b]) = be_decode bs * 256 + Byte.to_N b.
Proof. unfold be_decode. by rewrite fold_left_app. Qed.

Lemma be_decode_encode (width : nat) : forall n,
  be_decode (be_encode width n) = n mod 256 ^ N.of_nat width.
Proof.
  induction width as [|width IH]; intros n.
  - simpl. by rewrite N.mod_1_r.
  - cbn [be_encode]. rewrite be_decode_snoc, IH, to_N_byte_of_N.
    rewrite Nat2N.inj_succ, N.pow_succ_r'.
    rewrite N.Div0.mod_mul_r. lia.
Qed.

Lemma be_encode_length (width : nat) : forall n,
  length (be_encode width n) = width.
Proof.
  induction width as [|width IH]; intros n; [done|].
  cbn [be_encode]. rewrite length_app, IH. simpl. lia.
Qed.

Lemma be_encode_1 (n : N) : be_encode 1 n = [byte_of_N n].
Proof. reflexivity. Qed.

(** ** The reader on what the writer lays out *)

Lemma parser_bind_run {A B} (p : JBIG2.Parser A) (k : A -> JBIG2.Parser B)
    (buf : bytes) :
  (p ≫= k) buf
  = match p buf with
    | inl e => inl e
    | inr (a, rest) => k a rest
    end.
Proof. reflexivity. Qed.

Lemma read_bytes_app (bs rest : bytes) (n : nat) :
  length bs = n -> JBIG2.read_bytes n (bs ++ rest) = inr (bs, rest).
Proof.
  intros <-. unfold JBIG2.read_bytes.
  rewrite length_app, (proj2 (Nat.leb_le _ _)) by lia.
  by rewrite take_app_length, drop_app_length.
Qed.

Lemma read_uint_encode (width : nat) (n : N) (rest : bytes) :
  n < 256 ^ N.of_nat width ->
  JBIG2.read_uint width (be_encode width n ++ rest) = inr (n, rest).
Proof.
  intros Hn. unfold JBIG2.read_uint.
  rewrite parser_bind_run, read_bytes_app by apply be_encode_length.
  unfold JBIG2.pret. by rewrite be_decode_encode, N.mod_small.
Qed.

Lemma read_many_encode (width : nat) (refs : list N) (rest : bytes) :
  Forall (fun r => r < 256 ^ N.of_nat width) refs ->
  JBIG2.read_many (length refs) (JBIG2.read_uint width)
    (concat (map (be_encode width) refs) ++ rest)
  = inr (refs, rest).
Proof.
  induction 1 as [|r refs Hr Hrefs IH]; [done|].
  simpl. rewrite <- app_assoc, parser_bind_run, read_uint_encode by done.
  by rewrite parser_bind_run, IH.
Qed.

Lemma short_form_count (count flags5 : N) :
  count < 7 -> flags5 < 32 ->
  (count * 32 + flags5) mod 256 = count * 32 + flags5
  /\ N.shiftr (count * 32 + flags5) 5 = count
  /\ N.land (count * 32 + flags5) 31 = flags5.
Proof.
  intros Hc Hf. split; [apply N.mod_small; lia|]. split.
  - rewrite N.shiftr_div_pow2. change (2 ^ 5) with 32.
    rewrite N.div_add_l by done. rewrite N.div_small by done. lia.
  - change 31 with (N.ones 5). rewrite N.land_ones. change (2 ^ 5) with 32.
    rewrite N.add_comm, N.Div0.mod_add. by apply N.mod_small.
Qed.

Lemma long_form_count (count : N) :
  count < 536870912 ->
  JBIG2.LONG_FORM_TAG + count < 256 ^ N.of_nat 4
  /\ N.shiftr ((JBIG2.LONG_FORM_TAG + count) / 256 / 256 / 256 mod 256) 5 = 7
  /\ N.land (JBIG2.LONG_FORM_TAG + count) JBIG2.REF_COUNT_LONG_MASK = count.
Proof.
  intros Hc. unfold JBIG2.LONG_FORM_TAG, JBIG2.REF_COUNT_LONG_MASK.
  split; [simpl; lia|]. split.
  - rewrite N.shiftr_div_pow2. change (2 ^ 5) with 32.
    rewrite !N.Div0.div_div. change (256 * (256 * 256)) with 16777216.
    change 3758096384 with (224 * 16777216).
    rewrite N.div_add_l by done.
    assert (count / 16777216 < 32) by (apply N.Div0.div_lt_upper_bound; lia).
    rewrite N.mod_small by lia.
    change 224 with (7 * 32). rewrite N.div_add_l by done.
    rewrite N.div_small by done. lia.
  - change 536870911 with (N.ones 29). rewrite N.land_ones.
    change (2 ^ 29) with 536870912. change 3758096384 with (7 * 536870912).
    rewrite N.add_comm, N.Div0.mod_add. by apply N.mod_small.
Qed.

Lemma flags_fields (ty : N) (long reserved : bool) :
  ty < 64 ->
  let flags := ty + (if long then 64 else 0) + (if reserved then 128 else 0) in
  flags < 256 ^ N.of_nat 1
  /\ N.land flags 63 = ty
  /\ N.testbit flags 6 = long.
Proof.
  intros Hty flags. subst flags.
  split; [destruct long, reserved; simpl; lia|]. split.
  - change 63 with (N.ones 6). rewrite N.land_ones. change (2 ^ 6) with 64.
    replace (ty + (if long then 64 else 0) + (if reserved then 128 else 0))
      with (ty + ((if long then 1 else 0) + (if reserved then 2 else 0)) * 64)
      by (destruct long, reserved; lia).
    rewrite N.Div0.mod_add. by apply N.mod_small.
  - rewrite N.testbit_eqb. change (2 ^ 6) with 64.
    replace (ty + (if long then 64 else 0) + (if reserved then 128 else 0))
      with (ty + ((if long then 1 else 0) + (if reserved then 2 else 0)) * 64)
      by (destruct long, reserved; lia).
    rewrite N.div_add by done. rewrite N.div_small by done.
    by destruct long, reserved.
Qed.

Section ContainerProperties.

Variable FILE_HEADER_ID : bytes.
Variable FILE_HEADER_FLAGS : byte.
Variable bitmask_consistent : N -> bytes -> bool.
Hypothesis FILE_HEADER_ID_length : length FILE_HEADER_ID = 8%nat.

Local Abbreviation wf := (JBIG2.wf_segment bitmask_consistent).

(** The fields of a well-formed segment fit the widths the reader and the
    writer use. *)
Lemma wf_widths (s : JBIG2.Segment) :
  wf s ->
  JBIG2.number s < 256 ^ N.of_nat 4
  /\ JBIG2.seg_type s < 64
  /\ match JBIG2.retention s with
     | JBIG2.RetainShort flags5 =>
       flags5 < 32 /\ (length (JBIG2.referred s) < 7)%nat
     | JBIG2.RetainLong mask =>
       N.of_nat (length (JBIG2.referred s)) < 536870912
       /\ length mask
          = JBIG2.retention_bytes (N.of_nat (length (JBIG2.referred s)))
       /\ bitmask_consistent (N.of_nat (length (JBIG2.referred s))) mask = true
     end
  /\ Forall (fun r => r < 256 ^ N.of_nat (JBIG2.ref_size (JBIG2.number s)))
       (JBIG2.referred s)
  /\ JBIG2.page_association s
     < 256 ^ N.of_nat (JBIG2.page_size (JBIG2.page_assoc_long s))
  /\ N.of_nat (length (JBIG2.payload s)) < JBIG2.UNKNOWN_LENGTH.
Proof.
  intros (Hnum & Hty & Hret & Hrefs & Hpage & Hlen).
  split; [exact Hnum|]. split; [exact Hty|]. split; [|split; [|split]].
  - unfold JBIG2.wf_retention in Hret.
    destruct (JBIG2.retention s) as [flags5|mask].
    + destruct Hret as [Hflags Hcount]. split; [done|lia].
    + destruct Hret as (Hcount & Hmask & Hok).
      split; [exact Hcount|]. split; [|done].
      unfold JBIG2.retention_bytes. rewrite <- Hmask. by rewrite Nat2N.id.
  - eapply Forall_impl; [exact Hrefs|]. intros r. unfold JBIG2.ref_size.
    destruct (JBIG2.number s <=? 256); [done|].
    by destruct (JBIG2.number s <=? 65536).
  - unfold JBIG2.page_size. by destruct (JBIG2.page_assoc_long s).
  - exact Hlen.
Qed.

(** The layout of the specification, in the writer's terms. *)
Lemma wire_layout (s : JBIG2.Segment) (reserved : bool) :
  JBIG2.wire s reserved
  = be_encode 4 (JBIG2.number s)
    ++ be_encode 1 (JBIG2.encode_flags s + (if reserved then 128 else 0))
    ++ JBIG2.encode_retention s
    ++ concat (map (be_encode (JBIG2.ref_size (JBIG2.number s)))
                 (JBIG2.referred s))
    ++ be_encode (JBIG2.page_size (JBIG2.page_assoc_long s))
         (JBIG2.page_association s)
    ++ be_encode 4 (N.of_nat (length (JBIG2.payload s)))
    ++ JBIG2.payload s.
Proof.
  unfold JBIG2.wire, JBIG2.encode_flags, JBIG2.encode_retention,
    JBIG2.ref_size, JBIG2.page_size.
  rewrite be_encode_1. do 2 f_equal. f_equal; [|f_equal].
  - destruct (JBIG2.retention s) as [flags5|mask]; [|done].
    by rewrite be_encode_1, N.mul_comm.
  - f_equal. destruct (JBIG2.number s <=? 256); [done|].
    by destruct (JBIG2.number s <=? 65536).
  - by destruct (JBIG2.page_assoc_long s).
Qed.

(** The writer lays a segment out as the specification does, with bit 7
    of the flags byte clear. *)
Lemma encode_segment_wire (s : JBIG2.Segment) :
  JBIG2.encode_segment s = JBIG2.wire s false.
Proof. rewrite wire_layout. unfold JBIG2.encode_segment. by rewrite N.add_0_r. Qed.

Lemma parse_retention_encode (s : JBIG2.Segment) (rest : bytes) :
  wf s ->
  JBIG2.parse_retention bitmask_consistent (JBIG2.encode_retention s ++ rest)
  = inr ((N.of_nat (length (JBIG2.referred s)), JBIG2.retention s), rest).
Proof.
  intros (_ & _ & Hret & _)%wf_widths. revert Hret.
  unfold JBIG2.encode_retention, JBIG2.parse_retention.
  destruct (JBIG2.retention s) as [flags5|mask].
  - intros [Hflags Hcount].
    destruct (short_form_count (N.of_nat (length (JBIG2.referred s))) flags5)
      as (Hsmall & Hshift & Hland); [lia|done|].
    rewrite be_encode_1, parser_bind_run. simpl JBIG2.peek_uint8.
    rewrite to_N_byte_of_N, Hsmall, Hshift.
    unfold JBIG2.REF_COUNT_LONG.
    rewrite (proj2 (N.eqb_neq _ 7)) by lia. cbn [negb].
    rewrite parser_bind_run.
    by rewrite (read_bytes_app [_] rest 1 eq_refl : JBIG2.read_bytes 1 (_ :: rest) = _), Hland.
  - intros (Hcount & Hlen & Hok).
    destruct (long_form_count (N.of_nat (length (JBIG2.referred s))) Hcount)
      as (Hsmall & Hshift & Hland).
    rewrite <- app_assoc, parser_bind_run.
    assert (Hpeek : forall tail,
               JBIG2.peek_uint8
                 (be_encode 4 (JBIG2.LONG_FORM_TAG
                               + N.of_nat (length (JBIG2.referred s))) ++ tail)
               = inr ((JBIG2.LONG_FORM_TAG
                       + N.of_nat (length (JBIG2.referred s)))
                        / 256 / 256 / 256 mod 256,
                      be_encode 4 (JBIG2.LONG_FORM_TAG
                                   + N.of_nat (length (JBIG2.referred s))) ++ tail)).
    { intros tail. cbn [be_encode app JBIG2.peek_uint8].
      by rewrite to_N_byte_of_N. }
    rewrite Hpeek, Hshift. unfold JBIG2.REF_COUNT_LONG.
    rewrite N.eqb_refl. cbn [negb].
    rewrite parser_bind_run, read_uint_encode by done.
    cbv zeta. rewrite Hland, parser_bind_run, read_bytes_app by done.
    by rewrite Hok.
Qed.

(** The reader on the layout of the specification, whatever bit 7 is. *)
Lemma parse_segment_wire (s : JBIG2.Segment) (reserved : bool) (rest : bytes) :
  wf s ->
  JBIG2.parse_segment bitmask_consistent (JBIG2.wire s reserved ++ rest)
  = inr (s, rest).
Proof.
  intros Hwf.
  destruct (wf_widths s Hwf) as (Hnum & Hty & _ & Hrefs & Hpage & Hlen).
  destruct (flags_fields (JBIG2.seg_type s) (JBIG2.page_assoc_long s) reserved Hty)
    as (Hflags & Hland & Hbit).
  rewrite wire_layout.
  unfold JBIG2.parse_segment, JBIG2.encode_flags.
  rewrite <- !app_assoc.
  rewrite parser_bind_run, read_uint_encode by done.
  rewrite parser_bind_run, read_uint_encode by done.
  rewrite parser_bind_run, parse_retention_encode by done.
  cbn [fst snd]. rewrite Nat2N.id.
  rewrite parser_bind_run, read_many_encode by done.
  rewrite Hbit, Hland.
  rewrite parser_bind_run, read_uint_encode by done.
  rewrite parser_bind_run, read_uint_encode
    by (unfold JBIG2.UNKNOWN_LENGTH in Hlen; simpl; lia).
  rewrite (proj2 (N.eqb_neq _ _)) by lia.
  rewrite Nat2N.id, parser_bind_run, read_bytes_app by done.
  by destruct s.
Qed.

Lemma wire_nonempty (s : JBIG2.Segment) (reserved : bool) :
  JBIG2.wire s reserved <> [].
Proof.
  intros Hnil. apply (f_equal length) in Hnil.
  unfold JBIG2.wire in Hnil.
  rewrite length_app, be_encode_length in Hnil. simpl in Hnil. lia.
Qed.

Lemma parse_segments_wire (segments : list JBIG2.Segment) :
  forall (reserved : list bool) rounds,
  Forall wf segments ->
  length reserved = length segments ->
  (length segments <= rounds)%nat ->
  JBIG2.parse_segments bitmask_consistent rounds
    (concat (zip_with JBIG2.wire segments reserved))
  = inr segments.
Proof.
  induction segments as [|s segments IH]; intros reserved rounds Hwf Hres Hrounds.
  - by destruct rounds.
  - destruct reserved as [|r reserved]; [done|].
    apply Forall_cons in Hwf as [Hs Hwf]. cbn [zip_with concat].
    destruct (JBIG2.wire s r ++ concat (zip_with JBIG2.wire segments reserved))
      as [|b tail] eqn:Hbuf.
    { apply app_eq_nil in Hbuf as [Hnil _]. by apply wire_nonempty in Hnil. }
    destruct rounds as [|rounds]; [simpl in Hrounds; lia|].
    cbn [JBIG2.parse_segments]. rewrite <- Hbuf.
    rewrite parse_segment_wire by done.
    rewrite IH; [done|done|by injection Hres|simpl in Hrounds; lia].
Qed.

Lemma wire_length (segments : list JBIG2.Segment) : forall reserved,
  length reserved = length segments ->
  (length segments <= length (concat (zip_with JBIG2.wire segments reserved)))%nat.
Proof.
  induction segments as [|s segments IH]; intros reserved Hres; [simpl; lia|].
  destruct reserved as [|r reserved]; [done|]. cbn [zip_with concat].
  rewrite length_app.
  pose proof (wire_nonempty s r) as Hne.
  specialize (IH reserved ltac:(by injection Hres)).
  destruct (JBIG2.wire s r); [done|]. simpl. lia.
Qed.

Lemma write_segments_wire (segments : list JBIG2.Segment) :
  JBIG2.write_segments segments
  = concat (zip_with JBIG2.wire segments (repeat false (length segments))).
Proof.
  unfold JBIG2.write_segments.
  induction segments as [|s segments IH]; [done|].
  cbn [map concat length repeat zip_with]. by rewrite IH, encode_segment_wire.
Qed.

Lemma wire_unreserved (segments : list JBIG2.Segment) : forall reserved,
  length reserved = length segments ->
  Forall (fun r => r = false) reserved ->
  zip_with JBIG2.wire segments reserved
  = zip_with JBIG2.wire segments (repeat false (length segments)).
Proof.
  induction segments as [|s segments IH]; intros reserved Hres Hclear; [done|].
  destruct reserved as [|r reserved]; [done|].
  apply Forall_cons in Hclear as [-> Hclear].
  cbn [length repeat zip_with]. rewrite (IH reserved); [done| |done].
  by injection Hres.
Qed.


End ContainerProperties.



(** * More of [ImageWriter]: what the methods do beyond the claims *)

Section ImageWriterMore.

Variables LITERALS_DCT_DECODE LITERALS_JBIG2_DECODE LITERALS_JPX_DECODE
  : list string.
Variable PIL_installed : bool.
Variable PILImage : Type.
Variable Image_open : bytes -> string + PILImage.
Variable Image_frombytes : string -> Z * Z -> bytes -> string -> string + PILImage.
Variable Image_save : PILImage -> string -> option string -> string + bytes.
Variable get_segments : bytes -> JBIG2.Error + list JBIG2.Segment.
Variable write_file : list JBIG2.Segment -> bytes.

Local Abbreviation save_bytes :=
  (_save_bytes PIL_installed PILImage Image_frombytes Image_save).
Local Abbreviation save_jpeg2000 :=
  (_save_jpeg2000 PIL_installed PILImage Image_open Image_save).
Local Abbreviation save_jbig2 :=
  (_save_jbig2 LITERALS_JBIG2_DECODE get_segments write_file).
Local Abbreviation export :=
  (export_image LITERALS_DCT_DECODE LITERALS_JBIG2_DECODE LITERALS_JPX_DECODE
     PIL_installed PILImage Image_open Image_frombytes Image_save
     get_segments write_file).
Local Abbreviation kind := (has_kind LITERALS_DCT_DECODE LITERALS_JBIG2_DECODE LITERALS_JPX_DECODE).
Local Abbreviation classify_chain :=
  (classify LITERALS_DCT_DECODE LITERALS_JBIG2_DECODE LITERALS_JPX_DECODE).
Local Abbreviation jbig2_entries filters :=
  (List.filter (fun entry => kind JBIG2_family (fst entry)) filters).

(** X1. With the output directory in place and an image name of one
    component [_save_jpeg] cannot fail: it returns the assigned [.jpg]
    name, the file of that name, which did not exist, holds the data of the
    stream byte for byte, no other path has changed, and the stream was
    decoded once. *)
Theorem save_jpeg_passthrough self image w :
  usable self w ->
  one_component image.(name) = true ->
  exists w',
    _save_jpeg self image w = (Ok (assigned_name self image ".jpg" w), w')
    /\ fs w !! assigned_path self image ".jpg" w = None
    /\ fs w' !! assigned_path self image ".jpg" w
       = Some (File image.(stream).(body).(rawdata))
    /\ (forall q, q <> assigned_path self image ".jpg" w ->
          fs w' !! q = fs w !! q)
    /\ decoded w' = decoded w ++ [objid image.(stream).(body)].
Proof.
  intros Hdir Hname. rewrite save_jpeg_run. unfold usable in Hdir. rewrite Hdir.
  eexists. split; [done|]. simpl.
  split; [apply assigned_path_lookup|]. split; [apply lookup_insert_eq|].
  split; [|done]. intros q Hq. by rewrite lookup_insert_ne.
Qed.


(** X3. Without Pillow, with the output directory in place and an image
    name of one component, both [_save_jpeg2000] and [_save_bytes] (for
    plausible sizes, whatever the pixel format is, mapped or not) raise
    [ImportError] with the module's message, after the output file was
    created: it is left empty. *)
Theorem missing_pillow_import_error self image w :
  usable self w -> PIL_installed = false ->
  one_component image.(name) = true ->
  (fst (save_jpeg2000 self image w) = Raise (ImportError PIL_ERROR_MESSAGE)
   /\ fs (snd (save_jpeg2000 self image w)) !! assigned_path self image ".jp2" w
      = Some (File []))
  /\ (plausible_sizes image ->
      fst (save_bytes self image w) = Raise (ImportError PIL_ERROR_MESSAGE)
      /\ fs (snd (save_bytes self image w)) !! assigned_path self image ".png" w
         = Some (File [])).
Proof.
  intros Hdir Hpil Hname. unfold usable in Hdir. split.
  - rewrite save_jpeg2000_run, Hdir, Hpil. simpl. by rewrite lookup_insert_eq.
  - intros Hsizes.
    destruct (channels_outcome_plausible image Hsizes) as (channels & Hchannels & _).
    rewrite save_bytes_run, Hchannels, Hdir, Hpil.
    simpl. by rewrite lookup_insert_eq.
Qed.

(** X4. [_is_jbig2_iamge] answers true exactly when some entry of the
    filter chain, at any position, has a name of the JBIG2 table. *)
Theorem is_jbig2_image_iff image :
  _is_jbig2_iamge LITERALS_JBIG2_DECODE image = true
  <-> Exists (fun entry => fst entry ∈ LITERALS_JBIG2_DECODE)
        image.(stream).(get_filters).
Proof.
  unfold _is_jbig2_iamge.
  induction (get_filters (stream image)) as [|[filter_name params] rest IH]; simpl.
  - split; [done|]. intros Hex. by apply Exists_nil in Hex.
  - rewrite Exists_cons. simpl.
    destruct (bool_decide (filter_name ∈ LITERALS_JBIG2_DECODE)) eqn:Hin.
    + apply bool_decide_eq_true in Hin. by intuition.
    + apply bool_decide_eq_false in Hin. rewrite IH. by intuition.
Qed.

(** X5. [_save_bytes] with a zero width, height or bits per component,
    the sizes being plausible otherwise (none negative, each below 2^32,
    fewer than 2^50 bytes), raises [ZeroDivisionError] before anything is
    opened: the files are as they were, and the stream was decoded once. *)
Theorem save_bytes_zero_division self image w :
  (0 <= fst image.(srcsize) < 2 ^ 32)%Z ->
  (0 <= snd image.(srcsize) < 2 ^ 32)%Z ->
  (0 <= image.(bits) < 2 ^ 32)%Z ->
  (Z.of_nat (length image.(stream).(body).(rawdata)) < 2 ^ 50)%Z ->
  fst image.(srcsize) = 0%Z \/ snd image.(srcsize) = 0%Z \/ image.(bits) = 0%Z ->
  save_bytes self image w
  = (Raise ZeroDivisionError, logged [objid image.(stream).(body)] w).
Proof.
  intros Hwidth Hheight Hbits Hlen Hzero. rewrite save_bytes_run.
  by rewrite (channels_outcome_zero image Hwidth Hheight Hbits Hlen Hzero).
Qed.

(** Every outcome of [export_image]: either the files are as they were and
    an exception that precedes [open] or comes from it was raised, or the
    output directory is there and one file was added at the assigned path,
    holding the export when a name is returned and nothing when an
    exception is. *)
Lemma export_outcome self image w r w' :
  export self image w = (r, w') ->
  let ext := extension (classify_chain image.(stream).(get_filters)) in
  let p := assigned_path self image ext w in
  (fs w' = fs w
   /\ exists e, r = Raise e /\ left_behind e = None
                /\ (usable self w ->
                    e = ZeroDivisionError \/ e = OverflowError))
  \/ (usable self w
      /\ exists content,
          fs w' = <[p := File content]> (fs w)
          /\ match r with
             | Ok chosen => chosen = assigned_name self image ext w
             | Raise e => content = [] /\ left_behind e = Some (File [])
             end).
Proof.
  rewrite export_image_classified.
  destruct (classify_chain _); simpl export_by; simpl extension; cbv zeta;
    unfold usable.
  - rewrite save_bytes_run.
    destruct (channels_outcome image) as [channels|division] eqn:Hchannels.
    2:{ intros [= <- <-]. left. split; [done|]. exists division.
        apply channels_outcome_raises in Hchannels.
        split; [done|]. split; [by destruct Hchannels as [-> | ->]|done]. }
    destruct (node_at (fs w) (outdir self)) as [[|content]|];
      [|intros [= <- <-]; left; split; [done|]; by eexists..].
    destruct PIL_installed;
      [|intros [= <- <-]; right; split; [done|]; by eexists].
    destruct (select_mode _ _) as [mode|];
      [|intros [= <- <-]; right; split; [done|]; by eexists].
    destruct (Image_frombytes _ _ _ _) as [msg|img];
      [intros [= <- <-]; right; split; [done|]; by eexists|].
    destruct (Image_save _ _ _) as [msg|out];
      intros [= <- <-]; right; (split; [done|]); by eexists.
  - rewrite save_jpeg_run.
    destruct (node_at (fs w) (outdir self)) as [[|content]|];
      intros [= <- <-];
      [right; split; [done|]; by eexists | left; split; [done|]; by eexists..].
  - rewrite save_jpeg2000_run.
    destruct (node_at (fs w) (outdir self)) as [[|content]|];
      [|intros [= <- <-]; left; split; [done|]; by eexists..].
    destruct PIL_installed;
      [|intros [= <- <-]; right; split; [done|]; by eexists].
    destruct (Image_open _) as [msg|img];
      [intros [= <- <-]; right; split; [done|]; by eexists|].
    destruct (Image_save _ _ _) as [msg|out];
      intros [= <- <-]; right; (split; [done|]); by eexists.
  - rewrite (save_jbig2_run LITERALS_DCT_DECODE LITERALS_JBIG2_DECODE
             LITERALS_JPX_DECODE).
    destruct (node_at (fs w) (outdir self)) as [[|content]|];
      [|intros [= <- <-]; left; split; [done|]; by eexists..].
    destruct (mapM _ _) as [[|ref [|ref2 refs]]|]; unfold transcode;
      try (intros [= <- <-]; right; (split; [done|]); by eexists).
    all: destruct (get_segments _) as [err|segments];
      intros [= <- <-]; right; (split; [done|]); by eexists.
Qed.

(** X6. When [export_image] returns a name for an image whose name is of
    one component, that name is the one assigned for the extension of the
    strategy, nothing existed under it in the output directory, which is a
    directory, the file is there afterwards, and no other path has
    changed: an export never overwrites. *)
Theorem successful_export_writes_one_file self image w chosen w' :
  one_component image.(name) = true ->
  export self image w = (Ok chosen, w') ->
  chosen = assigned_name self image
             (extension (classify_chain image.(stream).(get_filters))) w
  /\ usable self w
  /\ fs w !! os_path_join self.(outdir) chosen = None
  /\ (exists content,
        fs w' !! os_path_join self.(outdir) chosen = Some (File content))
  /\ forall q, q <> os_path_join self.(outdir) chosen ->
       fs w' !! q = fs w !! q.
Proof.
  intros Hname Hrun.
  apply export_outcome in Hrun as [(_ & e & He & _)|Hrun]; [done|].
  destruct Hrun as (Hdir & content & Hfs & ->).
  split; [done|]. split; [done|].
  fold (assigned_path self image
          (extension (classify_chain (get_filters (stream image)))) w).
  rewrite Hfs. split; [apply assigned_path_lookup|]. split.
  - exists content. apply lookup_insert_eq.
  - intros q Hq. by rewrite lookup_insert_ne.
Qed.

(** X7. Two exports in a row that both return a name return different
    names, whatever the two images are, and the file of the first export
    is not touched by the second. *)
Theorem consecutive_exports_distinct self image1 image2 w n1 w1 n2 w2 :
  export self image1 w = (Ok n1, w1) ->
  export self image2 w1 = (Ok n2, w2) ->
  n1 <> n2
  /\ fs w2 !! os_path_join self.(outdir) n1
     = fs w1 !! os_path_join self.(outdir) n1.
Proof.
  intros Hfirst Hsecond.
  apply export_outcome in Hfirst as [(_ & e & He & _)|Hfirst]; [done|].
  destruct Hfirst as (_ & content1 & Hfs1 & ->).
  apply export_outcome in Hsecond as [(_ & e & He & _)|Hsecond]; [done|].
  destruct Hsecond as (_ & content2 & Hfs2 & ->).
  set (ext1 := extension (classify_chain (get_filters (stream image1)))) in *.
  set (ext2 := extension (classify_chain (get_filters (stream image2)))) in *.
  assert (Hne : assigned_path self image1 ext1 w <> assigned_path self image2 ext2 w1).
  { intros Heq. pose proof (assigned_path_lookup self image2 ext2 w1) as Hfree.
    by rewrite <- Heq, Hfs1, lookup_insert_eq in Hfree. }
  split.
  - intros Heq. apply Hne. unfold assigned_path. by rewrite Heq.
  - fold (assigned_path self image1 ext1 w).
    by rewrite Hfs2, lookup_insert_ne.
Qed.


(** X9. [ImageWriter] tests the output path with [os.path.exists] only:
    on a path that is a regular file the constructor returns without a
    change, and every export of an image whose name is of one component
    then fails, with [NotADirectoryError] from [open] (or with the error of
    a division of [_save_bytes], [ZeroDivisionError] or [OverflowError],
    which comes earlier), and writes nothing. *)
Theorem outdir_regular_file dir image w content :
  node_at (fs w) dir = Some (File content) ->
  one_component image.(name) = true ->
  __init__ dir w = (Ok {| outdir := dir |}, w)
  /\ exists e w',
      export {| outdir := dir |} image w = (Raise e, w')
      /\ fs w' = fs w
      /\ (e = NotADirectoryError \/ e = ZeroDivisionError
          \/ e = OverflowError).
Proof.
  intros Hfile Hname. split.
  - unfold __init__. rewrite bind_run. unfold os_path_exists, exists_in.
    by rewrite Hfile.
  - rewrite export_image_classified.
    destruct (classify_chain _); simpl export_by.
    + rewrite save_bytes_run. simpl outdir. rewrite Hfile.
      destruct (channels_outcome image) as [channels|division] eqn:Hchannels.
      * do 2 eexists. split; [done|]. split; auto.
      * apply channels_outcome_raises in Hchannels.
        do 2 eexists. split; [done|]. split; [done|].
        destruct Hchannels; auto.
    + rewrite save_jpeg_run. simpl outdir. rewrite Hfile.
      do 2 eexists. split; [done|]. split; auto.
    + rewrite save_jpeg2000_run. simpl outdir. rewrite Hfile.
      do 2 eexists. split; [done|]. split; auto.
    + rewrite (save_jbig2_run LITERALS_DCT_DECODE LITERALS_JBIG2_DECODE
                 LITERALS_JPX_DECODE).
      simpl outdir. rewrite Hfile.
      do 2 eexists. split; [done|]. split; auto.
Qed.

(** X10. A writer constructed on a path that did not exist (and could be
    made) exports at once: the directory just made is empty, so for an
    image whose name is of one component the name assigned is the plain
    one, the name of the image followed by the extension of the strategy,
    and [_save_jpeg] puts the data of the stream there. *)
Theorem first_export_into_new_directory dir w :
  exists_in (fs w) dir = false ->
  tree (fs w) = true -> creatable (fs w) dir = true ->
  exists w1,
    __init__ dir w = (Ok {| outdir := dir |}, w1)
    /\ (forall image strategy,
          one_component image.(name) = true ->
          assigned_name {| outdir := dir |} image (extension strategy) w1
          = image.(name) +:+ extension strategy)
    /\ (forall image,
          one_component image.(name) = true ->
          exists w2,
            _save_jpeg {| outdir := dir |} image w1
            = (Ok (image.(name) +:+ ".jpg"), w2)
            /\ fs w2 !! os_path_join dir (image.(name) +:+ ".jpg")
               = Some (File image.(stream).(body).(rawdata))).
Proof.
  intros Hex Htree Hcan.
  destruct (makedirs_rec_run dir w Htree Hcan Hex)
    as (files' & Hrun & Hdirs & Hsame & _ & _).
  exists (set_fs files' w).
  assert (Hinit : __init__ dir w = (Ok {| outdir := dir |}, set_fs files' w)).
  { unfold __init__, os_makedirs. rewrite bind_run. unfold os_path_exists.
    rewrite Hex. simpl. by rewrite bind_run, Hrun. }
  assert (Hfree : forall n, exists_in files' (os_path_join dir n) = false).
  { intros n. apply not_true_is_false. intros Hn.
    apply exists_in_join, elem_of_dom in Hn.
    unfold os_path_join in Hn. rewrite Hsame in Hn
      by apply not_prefix_of_self_snoc.
    apply (tree_parent _ _ _ Htree) in Hn.
    unfold exists_in in Hex. by rewrite Hn in Hex. }
  assert (Hname : forall image ext,
             assigned_name {| outdir := dir |} image ext (set_fs files' w)
             = name image +:+ ext).
  { intros image ext.
    destruct (create_unique_image_name_spec {| outdir := dir |} image ext
                (set_fs files' w)) as (chosen & Hchosen & _ & Hplain).
    simpl in Hplain. rewrite Hfree in Hplain.
    unfold assigned_name. by rewrite Hchosen. }
  split; [done|]. split; [by intros image strategy _|].
  intros image _. rewrite save_jpeg_run. simpl outdir.
  change (fs (set_fs files' w)) with files'.
  rewrite (Hdirs dir) by done. unfold assigned_path. rewrite Hname.
  eexists. split; [done|]. simpl. apply lookup_insert_eq.
Qed.

(** X11. Exports keep the files a tree: whatever [export_image] returns or
    raises, a file system in which everything lies in a directory is still
    one afterwards. *)
Theorem export_keeps_tree self image w r w' :
  tree (fs w) = true ->
  export self image w = (r, w') ->
  tree (fs w') = true.
Proof.
  intros Htree Hrun.
  apply export_outcome in Hrun as [(-> & _)|(Hdir & content & -> & _)]; [done|].
  apply tree_insert; [done| |apply assigned_path_lookup].
  unfold assigned_path, os_path_join. by rewrite removelast_last.
Qed.

End ImageWriterMore.

(** ** The properties of the writer on the sample inputs *)

(** A JPEG stream of two bytes is written as it is. *)
Lemma save_jpeg_passthrough_witness :
  usable Sample.writer Sample.world
  /\ exists w',
      _save_jpeg Sample.writer
        (Sample.filtered_image [("DCTDecode"%string, ∅)] [xff; xd8]) Sample.world
      = (Ok "img.jpg"%string, w')
      /\ fs w' !! ["out"; "img.jpg"]%string = Some (File [xff; xd8]).
Proof.
  split; [reflexivity|].
  destruct (save_jpeg_passthrough Sample.writer
              (Sample.filtered_image [("DCTDecode"%string, ∅)] [xff; xd8])
              Sample.world eq_refl eq_refl) as (w' & Hrun & _ & Hfile & _).
  exists w'. split; [exact Hrun | exact Hfile].
Defined.


(** Without Pillow the JPEG2000 export leaves [img.jp2] empty. *)
Lemma missing_pillow_import_error_witness :
  fst (_save_jpeg2000 false Sample.Raster Sample.Image_open Sample.Image_save
         Sample.writer
         (Sample.filtered_image [("JPXDecode"%string, ∅)] [x00; x0c])
         Sample.world)
  = Raise (ImportError PIL_ERROR_MESSAGE)
  /\ fs (snd (_save_jpeg2000 false Sample.Raster Sample.Image_open
                Sample.Image_save Sample.writer
                (Sample.filtered_image [("JPXDecode"%string, ∅)] [x00; x0c])
                Sample.world)) !! ["out"; "img.jp2"]%string
     = Some (File []).
Proof.
  exact (proj1 (missing_pillow_import_error false Sample.Raster Sample.Image_open
                  Sample.Image_frombytes Sample.Image_save Sample.writer
                  (Sample.filtered_image [("JPXDecode"%string, ∅)] [x00; x0c])
                  Sample.world eq_refl eq_refl eq_refl)).
Defined.

(** A width of zero. *)
Lemma save_bytes_zero_division_witness :
  _save_bytes true Sample.Raster Sample.Image_frombytes Sample.Image_save
    Sample.writer (Sample.raw_image 0 10 8 4) Sample.world
  = (Raise ZeroDivisionError, logged [7] Sample.world).
Proof.
  apply (save_bytes_zero_division true Sample.Raster Sample.Image_frombytes
           Sample.Image_save Sample.writer (Sample.raw_image 0 10 8 4)
           Sample.world);
    first [by left | reflexivity | (simpl; lia)].
Defined.

(** 2 x 2 at 8 bits in four bytes goes to [img.png], which was not
    there. *)
Lemma successful_export_writes_one_file_witness :
  fs Sample.world !! ["out"; "img.png"]%string = None
  /\ exists content,
      ({[ ["out"%string] := Dir;
          ["out"; "img.png"]%string := File (repeat x01 4) ]}
         : gmap filepath node) !! ["out"; "img.png"]%string
      = Some (File content).
Proof.
  assert (Hrun : Sample.export Sample.writer (Sample.raw_image 2 2 8 4) Sample.world
                 = (Ok "img.png"%string,
                    {| fs := {[ ["out"%string] := Dir;
                                ["out"; "img.png"]%string := File (repeat x01 4) ]};
                       decoded := [7; 7] |}))
    by (vm_compute; reflexivity).
  destruct (successful_export_writes_one_file
              Sample.LITERALS_DCT_DECODE Sample.LITERALS_JBIG2_DECODE
              Sample.LITERALS_JPX_DECODE true Sample.Raster Sample.Image_open
              Sample.Image_frombytes Sample.Image_save Sample.get_segments
              Sample.write_file Sample.writer (Sample.raw_image 2 2 8 4)
              Sample.world _ _ eq_refl Hrun)
    as (_ & _ & Hfree & Hfile & _).
  split; [exact Hfree | exact Hfile].
Defined.

(** The same image exported twice: [img.png], then [img.0.png]. *)
Lemma consecutive_exports_distinct_witness :
  "img.png"%string <> "img.0.png"%string
  /\ ({[ ["out"%string] := Dir;
         ["out"; "img.png"]%string := File (repeat x01 4);
         ["out"; "img.0.png"]%string := File (repeat x01 4) ]}
        : gmap filepath node) !! ["out"; "img.png"]%string
     = ({[ ["out"%string] := Dir;
           ["out"; "img.png"]%string := File (repeat x01 4) ]}
          : gmap filepath node) !! ["out"; "img.png"]%string.
Proof.
  assert (Hfirst : Sample.export Sample.writer (Sample.raw_image 2 2 8 4) Sample.world
                   = (Ok "img.png"%string,
                      {| fs := {[ ["out"%string] := Dir;
                                  ["out"; "img.png"]%string := File (repeat x01 4) ]};
                         decoded := [7; 7] |}))
    by (vm_compute; reflexivity).
  assert (Hsecond : Sample.export Sample.writer (Sample.raw_image 2 2 8 4)
                      {| fs := {[ ["out"%string] := Dir;
                                  ["out"; "img.png"]%string := File (repeat x01 4) ]};
                         decoded := [7; 7] |}
                    = (Ok "img.0.png"%string,
                       {| fs := {[ ["out"%string] := Dir;
                                   ["out"; "img.png"]%string := File (repeat x01 4);
                                   ["out"; "img.0.png"]%string := File (repeat x01 4) ]};
                          decoded := [7; 7; 7; 7] |}))
    by (vm_compute; reflexivity).
  exact (consecutive_exports_distinct
           Sample.LITERALS_DCT_DECODE Sample.LITERALS_JBIG2_DECODE
           Sample.LITERALS_JPX_DECODE true Sample.Raster Sample.Image_open
           Sample.Image_frombytes Sample.Image_save Sample.get_segments
           Sample.write_file _ _ _ _ _ _ _ _ Hfirst Hsecond).
Defined.


(** [out] is a regular file: the writer is constructed, and the export of
    a JPEG raises. *)
Lemma outdir_regular_file_witness :
  __init__ ["out"%string] {| fs := {[ ["out"%string] := File [] ]}; decoded := [] |}
  = (Ok {| outdir := ["out"%string] |},
     {| fs := {[ ["out"%string] := File [] ]}; decoded := [] |})
  /\ exists e w',
      Sample.export {| outdir := ["out"%string] |}
        (Sample.filtered_image [("DCTDecode"%string, ∅)] [xff; xd8])
        {| fs := {[ ["out"%string] := File [] ]}; decoded := [] |}
      = (Raise e, w')
      /\ fs w' = {[ ["out"%string] := File [] ]}
      /\ (e = NotADirectoryError \/ e = ZeroDivisionError
          \/ e = OverflowError).
Proof.
  exact (outdir_regular_file
           Sample.LITERALS_DCT_DECODE Sample.LITERALS_JBIG2_DECODE
           Sample.LITERALS_JPX_DECODE true Sample.Raster Sample.Image_open
           Sample.Image_frombytes Sample.Image_save Sample.get_segments
           Sample.write_file ["out"%string]
           (Sample.filtered_image [("DCTDecode"%string, ∅)] [xff; xd8])
           {| fs := {[ ["out"%string] := File [] ]}; decoded := [] |} []
           eq_refl eq_refl).
Defined.

(** A writer on [new] in an empty file system. *)
Lemma first_export_into_new_directory_witness :
  exists w1,
    __init__ ["new"%string] {| fs := ∅; decoded := [] |}
    = (Ok {| outdir := ["new"%string] |}, w1)
    /\ (forall image strategy,
          one_component image.(name) = true ->
          assigned_name {| outdir := ["new"%string] |} image
            (extension strategy) w1
          = image.(name) +:+ extension strategy)
    /\ (forall image,
          one_component image.(name) = true ->
          exists w2,
            _save_jpeg {| outdir := ["new"%string] |} image w1
            = (Ok (image.(name) +:+ ".jpg"), w2)
            /\ fs w2 !! os_path_join ["new"%string] (image.(name) +:+ ".jpg")
               = Some (File image.(stream).(body).(rawdata))).
Proof.
  exact (first_export_into_new_directory ["new"%string]
           {| fs := ∅; decoded := [] |} eq_refl eq_refl eq_refl).
Defined.

(** The files after the export of 2 x 2 at 8 bits are a tree. *)
Lemma export_keeps_tree_witness :
  tree {[ ["out"%string] := Dir;
          ["out"; "img.png"]%string := File (repeat x01 4) ]} = true.
Proof.
  assert (Hrun : Sample.export Sample.writer (Sample.raw_image 2 2 8 4) Sample.world
                 = (Ok "img.png"%string,
                    {| fs := {[ ["out"%string] := Dir;
                                ["out"; "img.png"]%string := File (repeat x01 4) ]};
                       decoded := [7; 7] |}))
    by (vm_compute; reflexivity).
  exact (export_keeps_tree
           Sample.LITERALS_DCT_DECODE Sample.LITERALS_JBIG2_DECODE
           Sample.LITERALS_JPX_DECODE true Sample.Raster Sample.Image_open
           Sample.Image_frombytes Sample.Image_save Sample.get_segments
           Sample.write_file Sample.writer (Sample.raw_image 2 2 8 4)
           Sample.world _ _ eq_refl Hrun).
Defined.

(** ** [pdfminer/encodingdb.py] *)

(** * [encodingdb]: glyph names and encodings *)

Import encodingdb.

(** ** Splitting and stripping *)

(** [sep] does not occur in [s]. *)
Local Abbreviation free_of sep s :=
  (all_chars (fun c => negb (Ascii.eqb c sep)) s = true).

Lemma str_split_free sep s : free_of sep s -> str_split sep s = [s].
Proof.
  induction s as [|c s IH]; [done|]. simpl.
  intros [Hc Hs]%andb_true_iff. apply negb_true_iff in Hc.
  by rewrite Hc, IH.
Qed.

Lemma str_split_cons sep s : exists first others, str_split sep s = first :: others.
Proof.
  induction s as [|c s (first & others & IH)]; simpl; [by eexists _, _|].
  destruct (Ascii.eqb c sep); [by eexists _, _|]. rewrite IH. by eexists _, _.
Qed.

Lemma str_split_app sep s rest :
  free_of sep s ->
  str_split sep (s +:+ String sep rest) = s :: str_split sep rest.
Proof.
  induction s as [|c s IH].
  - intros _. change (EmptyString +:+ String sep rest) with (String sep rest).
    cbn [str_split]. by rewrite Ascii.eqb_refl.
  - cbn [all_chars]. intros [Hc Hs]%andb_true_iff. apply negb_true_iff in Hc.
    rewrite string_app_cons. cbn [str_split]. by rewrite Hc, IH.
Qed.

(** The pieces of a split hold no separator, and keep out whatever other
    character the string kept out. *)
Lemma str_split_pieces sep (p : ascii -> bool) s :
  Forall (fun piece => free_of sep piece) (str_split sep s)
  /\ (all_chars p s = true ->
      Forall (fun piece => all_chars p piece = true) (str_split sep s)).
Proof.
  induction s as [|c s [IHsep IHp]]; simpl.
  - split; [|intros _]; by repeat constructor.
  - destruct (Ascii.eqb c sep) eqn:Hc.
    + split; [by constructor|].
      intros [_ Hs]%andb_true_iff. constructor; [done|by apply IHp].
    + destruct (str_split_cons sep s) as (first & others & Hsplit).
      rewrite Hsplit in *. split.
      * apply Forall_cons in IHsep as [Hfirst Hothers].
        constructor; [|done]. simpl. by rewrite Hc.
      * intros [Hpc Hs]%andb_true_iff.
        apply IHp, Forall_cons in Hs as [Hfirst Hothers].
        constructor; [|done]. simpl. by rewrite Hpc.
Qed.

Lemma all_chars_app p s t :
  all_chars p (s +:+ t) = all_chars p s && all_chars p t.
Proof.
  induction s as [|c s IH]; [done|].
  rewrite string_app_cons. simpl. by rewrite IH, andb_assoc.
Qed.

Lemma all_chars_impl (p q : ascii -> bool) s :
  (forall c, p c = true -> q c = true) ->
  all_chars p s = true -> all_chars q s = true.
Proof.
  intros Hpq. induction s as [|c s IH]; [done|]. simpl.
  intros [Hc Hs]%andb_true_iff. by rewrite (Hpq c Hc), IH.
Qed.

(** The name after [split(".")[0]]. *)
Local Abbreviation cut name := (hd EmptyString (str_split "." name)).

Lemma cut_free name : free_of "."%char (cut name).
Proof.
  destruct (str_split_cons "." name) as (first & others & Hsplit).
  pose proof (proj1 (str_split_pieces "." (fun _ => true) name)) as Hpieces.
  rewrite Hsplit in *. by apply Forall_cons in Hpieces as [Hfirst _].
Qed.

Lemma cut_of_free name : free_of "."%char name -> cut name = name.
Proof. intros Hfree. by rewrite str_split_free. Qed.

Lemma cut_idem name : cut (cut name) = cut name.
Proof. apply cut_of_free, cut_free. Qed.

Lemma cut_suffix name suffix :
  free_of "."%char name -> cut (name +:+ "." +:+ suffix) = name.
Proof.
  intros Hfree. change ("." +:+ suffix)%string with (String "." suffix).
  by rewrite str_split_app.
Qed.

(** ** Sequences of raising computations *)

Lemma each_ext {A B} (f g : A -> Error + B) (l : list A) :
  Forall (fun x => f x = g x) l -> each f l = each g l.
Proof.
  induction 1 as [|x l Hx Hl IH]; [done|]. simpl. by rewrite Hx, IH.
Qed.

Lemma each_inl {A B} (f : A -> Error + B) (l : list A) (e : Error) :
  each f l = inl e -> Exists (fun x => f x = inl e) l.
Proof.
  induction l as [|x l IH]; [done|]. simpl.
  destruct (f x) as [e'|y] eqn:Hx; simpl.
  - intros [= ->]. by left.
  - destruct (each f l) as [e'|ys]; simpl; [|done].
    intros [= ->]. right. by apply IH.
Qed.

Lemma each_inr {A B} (f : A -> Error + B) (l : list A) (ys : list B) :
  each f l = inr ys <-> Forall2 (fun x y => f x = inr y) l ys.
Proof.
  revert ys. induction l as [|x l IH]; intros ys; simpl.
  - split; [intros [= <-]; constructor|by inversion 1].
  - destruct (f x) as [e|y] eqn:Hx; simpl.
    + split; [done|]. inversion 1; congruence.
    + destruct (each f l) as [e|ys'] eqn:Hl; simpl.
      * split; [done|]. inversion 1 as [|? y' ? ys'' Hy Hrest]; subst.
        apply IH in Hrest. done.
      * split.
        -- intros [= <-]. constructor; [done|]. by apply IH.
        -- inversion 1 as [|? y' ? ys'' Hy Hrest]; subst.
           apply IH in Hrest. congruence.
Qed.

(** *** Hexadecimal digits and [strip] *)

Local Abbreviation uni := ["u"; "n"; "i"]%char.

Lemma is_hex_not_uni c : is_hex c = true -> is_in uni c = false.
Proof. destruct c as [[] [] [] [] [] [] [] []]; by vm_compute. Qed.

Lemma is_hex_not_u c : is_hex c = true -> is_in ["u"%char] c = false.
Proof. destruct c as [[] [] [] [] [] [] [] []]; by vm_compute. Qed.

Lemma is_hex_not_dot c : is_hex c = true -> negb (Ascii.eqb c ".") = true.
Proof. destruct c as [[] [] [] [] [] [] [] []]; by vm_compute. Qed.

Lemma is_hex_not_underscore c : is_hex c = true -> negb (Ascii.eqb c "_") = true.
Proof. destruct c as [[] [] [] [] [] [] [] []]; by vm_compute. Qed.

Lemma is_uni_not_dot c : is_in uni c = true -> negb (Ascii.eqb c ".") = true.
Proof. destruct c as [[] [] [] [] [] [] [] []]; by vm_compute. Qed.

Lemma is_uni_not_underscore c :
  is_in uni c = true -> negb (Ascii.eqb c "_") = true.
Proof. destruct c as [[] [] [] [] [] [] [] []]; by vm_compute. Qed.

Lemma hex_digit_range c : is_hex c = true -> (0 <= hex_digit c < 16)%Z.
Proof. destruct c as [[] [] [] [] [] [] [] []]; by vm_compute. Qed.

Lemma hex_value_from_range acc s :
  all_chars is_hex s = true -> (0 <= acc)%Z ->
  (acc * 16 ^ Z.of_nat (String.length s) <= hex_value_from acc s
   < (acc + 1) * 16 ^ Z.of_nat (String.length s))%Z.
Proof.
  revert acc. induction s as [|c s IH]; intros acc Hhex Hacc.
  - simpl. lia.
  - cbn [all_chars] in Hhex. apply andb_true_iff in Hhex as [Hc Hs].
    pose proof (hex_digit_range c Hc) as Hd.
    cbn [hex_value_from String.length].
    specialize (IH (acc * 16 + hex_digit c)%Z Hs ltac:(lia)).
    rewrite Nat2Z.inj_succ, Z.pow_succ_r by lia.
    assert (0 < 16 ^ Z.of_nat (String.length s))%Z by (apply Z.pow_pos_nonneg; lia).
    nia.
Qed.

Lemma hex_value_range s :
  all_chars is_hex s = true ->
  (0 <= hex_value s < 16 ^ Z.of_nat (String.length s))%Z.
Proof.
  intros Hhex. pose proof (hex_value_from_range 0 s Hhex ltac:(lia)).
  unfold hex_value. lia.
Qed.

Lemma rstrip_cons chars c rest :
  rstrip chars (String c rest)
  = match rstrip chars rest with
    | EmptyString => if is_in chars c then EmptyString else String c EmptyString
    | kept => String c kept
    end.
Proof. done. Qed.

Lemma rstrip_gone chars t :
  all_chars (is_in chars) t = true -> rstrip chars t = EmptyString.
Proof.
  induction t as [|c t IH]; [done|]. cbn [all_chars].
  intros [Hc Ht]%andb_true_iff. by rewrite rstrip_cons, (IH Ht), Hc.
Qed.

Lemma rstrip_tail chars s t :
  s <> EmptyString ->
  all_chars (fun c => negb (is_in chars c)) s = true ->
  all_chars (is_in chars) t = true ->
  rstrip chars (s +:+ t) = s.
Proof.
  intros Hs Hkeep Ht. induction s as [|c s IH]; [done|].
  cbn [all_chars] in Hkeep. apply andb_true_iff in Hkeep as [Hc Hkeep].
  apply negb_true_iff in Hc.
  rewrite string_app_cons, rstrip_cons. destruct s as [|c' s].
  - change (EmptyString +:+ t) with t. by rewrite (rstrip_gone _ _ Ht), Hc.
  - by rewrite IH.
Qed.

Lemma lstrip_head chars s t :
  all_chars (is_in chars) s = true ->
  lstrip chars (s +:+ t) = lstrip chars t.
Proof.
  induction s as [|c s IH]; [done|]. cbn [all_chars].
  intros [Hc Hs]%andb_true_iff. rewrite string_app_cons. cbn [lstrip].
  by rewrite Hc, IH.
Qed.

Lemma lstrip_kept chars c s :
  is_in chars c = false -> lstrip chars (String c s) = String c s.
Proof. intros Hc. cbn [lstrip]. by rewrite Hc. Qed.

(** [strip] takes a run of the stripped characters off either end of a
    string of other characters. *)
Lemma strip_between chars pre h post :
  h <> EmptyString ->
  all_chars (fun c => negb (is_in chars c)) h = true ->
  all_chars (is_in chars) pre = true ->
  all_chars (is_in chars) post = true ->
  strip chars (pre +:+ h +:+ post) = h.
Proof.
  intros Hne Hh Hpre Hpost. unfold strip.
  rewrite (lstrip_head _ _ _ Hpre).
  destruct h as [|c h]; [done|]. rewrite string_app_cons.
  cbn [all_chars] in Hh. pose proof Hh as Hh'.
  apply andb_true_iff in Hh as [Hc _]. apply negb_true_iff in Hc.
  rewrite (lstrip_kept _ _ _ Hc), <- string_app_cons.
  by apply rstrip_tail.
Qed.

Lemma append_nil_r s : s +:+ EmptyString = s.
Proof. induction s as [|c s IH]; [done|]. by rewrite string_app_cons, IH. Qed.

Lemma concat_empty_cons g gs :
  String.concat EmptyString (g :: gs) = g +:+ String.concat EmptyString gs.
Proof. destruct gs; [by rewrite append_nil_r|done]. Qed.

(** Groups of four hexadecimal digits. *)
Local Abbreviation quads groups :=
  (Forall (fun g => String.length g = 4%nat /\ all_chars is_hex g = true) groups).

Lemma chunks4_concat groups :
  quads groups -> chunks4 (String.concat EmptyString groups) = groups.
Proof.
  induction 1 as [|g gs [Hlen _] _ IH]; [done|].
  rewrite concat_empty_cons.
  destruct g as [|a [|b [|c [|d [|]]]]]; try discriminate Hlen.
  rewrite !string_app_cons. change (EmptyString +:+ ?s) with s.
  cbn [chunks4]. by rewrite IH.
Qed.

Lemma quads_hex groups :
  quads groups -> all_chars is_hex (String.concat EmptyString groups) = true.
Proof.
  induction 1 as [|g gs [_ Hg] _ IH]; [done|].
  by rewrite concat_empty_cons, all_chars_app, Hg, IH.
Qed.

Lemma quads_length groups :
  quads groups ->
  String.length (String.concat EmptyString groups) = (4 * length groups)%nat.
Proof.
  induction 1 as [|g gs [Hlen _] _ IH]; [done|].
  rewrite concat_empty_cons, string_app_length, Hlen, IH. simpl. lia.
Qed.

Section NameToUnicode.

Variable glyphname2unicode : gmap string ustring.
Variable int16 : string -> option Z.

Local Abbreviation rec := (name2unicode_rec glyphname2unicode int16).
Local Abbreviation n2u := (name2unicode glyphname2unicode int16).
Local Abbreviation components name := (str_split "_" (cut name)).

Lemma rec_unfold depth name :
  rec depth name
  = if (1 <? length (components name))%nat then
      match depth with
      | O => inl RecursionDepth
      | S d => ebind (each (rec d) (components name))
                     (fun parts => inr (concat parts))
      end
    else rec 0 (cut name).
Proof.
  destruct depth; cbn [name2unicode_rec]; rewrite ?cut_idem;
    by destruct (1 <? length (components name))%nat.
Qed.

(** A name without [.] and [_] is looked at once, whatever the depth. *)
Lemma rec_simple depth name :
  free_of "."%char name -> free_of "_"%char name -> rec depth name = rec 0 name.
Proof.
  intros Hdot Hunder. rewrite rec_unfold.
  by rewrite (cut_of_free _ Hdot), (str_split_free _ _ Hunder).
Qed.

Lemma components_simple name :
  Forall (fun c => free_of "."%char c /\ free_of "_"%char c) (components name).
Proof.
  destruct (str_split_pieces "_" (fun c => negb (Ascii.eqb c ".")) (cut name))
    as [Hunder Hdot].
  specialize (Hdot (cut_free name)).
  apply Forall_forall. intros c Hc.
  rewrite Forall_forall in Hunder, Hdot. auto.
Qed.

Lemma int_base16_error s e : int_base16 int16 s = inl e -> e = ValueError.
Proof. unfold int_base16. destruct (int16 s); [done|]. by intros [= <-]. Qed.

Lemma raise_key_error_error d e :
  raise_key_error_for_invalid_unicode d = inl e -> exists msg, e = PDFKeyError msg.
Proof.
  unfold raise_key_error_for_invalid_unicode.
  destruct (_ && _); [|done]. intros [= <-]. by eexists.
Qed.

Lemma chr_error i e : chr i = inl e -> e = ValueError \/ e = OverflowError.
Proof.
  unfold chr. destruct (_ || _); [intros [= <-]; by right|].
  destruct (_ && _); [done|]. intros [= <-]. by left.
Qed.

(** What a single look can raise: never the depth marker. *)
Lemma leaf_error name e :
  (1 <? length (components name))%nat = false ->
  rec 0 name = inl e -> e <> RecursionDepth.
Proof.
  intros Hone. cbn [name2unicode_rec]. rewrite Hone.
  destruct (glyphname2unicode !! cut name); [done|].
  destruct (startswith (cut name) "uni").
  - destruct (_ && _); [|by intros [= <-]].
    destruct (each (int_base16 int16) _) as [e1|digits] eqn:Hints; simpl.
    { intros [= <-]. apply each_inl, Exists_exists in Hints as (s & _ & Hs).
      by apply int_base16_error in Hs as ->. }
    destruct (each raise_key_error_for_invalid_unicode _) as [e2|oks] eqn:Hsur; simpl.
    { intros [= <-]. apply each_inl, Exists_exists in Hsur as (d & _ & Hd).
      by apply raise_key_error_error in Hd as [msg ->]. }
    destruct (each chr _) as [e3|chars] eqn:Hchr; simpl; [|done].
    intros [= <-]. apply each_inl, Exists_exists in Hchr as (d & _ & Hd).
    by apply chr_error in Hd as [-> | ->].
  - destruct (startswith (cut name) "u"); [|by intros [= <-]].
    destruct (_ && _); [|by intros [= <-]].
    destruct (int_base16 int16 _) as [e1|d] eqn:Hint; simpl.
    { intros [= <-]. by apply int_base16_error in Hint as ->. }
    destruct (raise_key_error_for_invalid_unicode d) as [e2|ok] eqn:Hsur; simpl.
    { intros [= <-]. by apply raise_key_error_error in Hsur as [msg ->]. }
    intros Hchr. by apply chr_error in Hchr as [-> | ->].
Qed.

Lemma simple_one_component c :
  free_of "."%char c -> free_of "_"%char c ->
  (1 <? length (components c))%nat = false.
Proof.
  intros Hdot Hunder. by rewrite (cut_of_free _ Hdot), (str_split_free _ _ Hunder).
Qed.

(** X12. The recursion of [name2unicode] is one level deep at most: the
    components of a compound name hold neither [_] nor [.], so each is
    looked up without a further split.  Any depth of one or more gives the
    result of depth one, and the depth is never exhausted. *)
Theorem name2unicode_depth depth name :
  (1 <= depth)%nat ->
  name2unicode_rec glyphname2unicode int16 depth name
  = name2unicode glyphname2unicode int16 name
  /\ name2unicode glyphname2unicode int16 name <> inl RecursionDepth.
Proof.
  intros Hdepth. unfold name2unicode.
  destruct depth as [|d]; [lia|]. rewrite !(rec_unfold _ name).
  pose proof (components_simple name) as Hsimple.
  destruct (1 <? length (components name))%nat eqn:Hmany.
  - assert (Heach : each (rec d) (components name) = each (rec 0) (components name)).
    { apply each_ext. eapply Forall_impl; [exact Hsimple|].
      intros c [Hdot Hunder]. by apply rec_simple. }
    rewrite Heach. split; [done|].
    destruct (each (rec 0) (components name)) as [e|parts] eqn:Hparts; [|done].
    simpl. intros [= ->].
    apply each_inl, Exists_exists in Hparts as (c & Hc & Hraise).
    rewrite Forall_forall in Hsimple. destruct (Hsimple c Hc) as [Hdot Hunder].
    by apply (leaf_error c RecursionDepth (simple_one_component c Hdot Hunder)).
  - split; [done|]. intros Hraise.
    apply (leaf_error (cut name) RecursionDepth); [by rewrite cut_idem|done..].
Qed.

(** X13. Whatever follows the first [.] of a glyph name is ignored. *)
Theorem name2unicode_suffix name suffix :
  free_of "."%char name ->
  name2unicode glyphname2unicode int16 (name +:+ "." +:+ suffix)
  = name2unicode glyphname2unicode int16 name.
Proof.
  intros Hdot. unfold name2unicode. rewrite !(rec_unfold 1).
  by rewrite (cut_suffix _ _ Hdot), (cut_of_free _ Hdot).
Qed.

Lemma concat_free (p : ascii -> bool) sep cs :
  all_chars p sep = true ->
  Forall (fun c => all_chars p c = true) cs ->
  all_chars p (String.concat sep cs) = true.
Proof.
  intros Hsep. induction 1 as [|c cs Hc Hcs IH]; [done|].
  destruct cs as [|c' cs]; [done|].
  change (String.concat sep (c :: c' :: cs))
    with (c +:+ sep +:+ String.concat sep (c' :: cs)).
  by rewrite !all_chars_app, Hc, Hsep, IH.
Qed.

Lemma str_split_concat cs :
  cs <> [] -> Forall (fun c => free_of "_"%char c) cs ->
  str_split "_" (String.concat "_" cs) = cs.
Proof.
  intros Hne Hfree. induction Hfree as [|c cs Hc Hcs IH]; [done|].
  destruct cs as [|c' cs]; [by apply str_split_free|].
  change (String.concat "_" (c :: c' :: cs))
    with (c +:+ String "_" (String.concat "_" (c' :: cs))).
  rewrite str_split_app by done. by rewrite IH.
Qed.

(** X14. A compound name, components joined by [_], converts to the
    results of its components one after the other, and raises what the
    first component that fails raises. *)
Theorem name2unicode_compound cs :
  (1 < length cs)%nat ->
  Forall (fun c => free_of "."%char c /\ free_of "_"%char c) cs ->
  name2unicode glyphname2unicode int16 (String.concat "_" cs)
  = ebind (each (name2unicode glyphname2unicode int16) cs)
      (fun parts => inr (concat parts))
  /\ (forall results,
        Forall2 (fun c r => name2unicode glyphname2unicode int16 c = inr r)
          cs results ->
        name2unicode glyphname2unicode int16 (String.concat "_" cs)
        = inr (concat results)).
Proof.
  intros Hmany Hsimple.
  assert (Hrun : n2u (String.concat "_" cs)
                 = ebind (each n2u cs) (fun parts => inr (concat parts))).
  { unfold name2unicode at 1. rewrite rec_unfold.
    assert (Hdot : free_of "."%char (String.concat "_" cs)).
    { apply concat_free; [done|]. eapply Forall_impl; [exact Hsimple|].
      by intros c [Hc _]. }
    rewrite (cut_of_free _ Hdot), str_split_concat.
    - rewrite (proj2 (Nat.ltb_lt _ _) Hmany). f_equal.
      apply each_ext. eapply Forall_impl; [exact Hsimple|].
      intros c [Hc Hu]. unfold name2unicode. by rewrite (rec_simple 1).
    - intros ->. simpl in Hmany. lia.
    - eapply Forall_impl; [exact Hsimple|]. by intros c [_ Hc]. }
  split; [done|]. intros results Hresults.
  rewrite Hrun. apply each_inr in Hresults. by rewrite Hresults.
Qed.

(** X15. A name of the glyph list converts to its entry, also when it
    begins with [uni] or [u]. *)
Theorem name2unicode_glyphlist name characters :
  free_of "."%char name -> free_of "_"%char name ->
  glyphname2unicode !! name = Some characters ->
  name2unicode glyphname2unicode int16 name = inr characters.
Proof.
  intros Hdot Hunder Hentry. unfold name2unicode. cbn [name2unicode_rec].
  by rewrite (cut_of_free _ Hdot), (str_split_free _ _ Hunder), Hentry.
Qed.

Lemma startswith_uni_u name :
  startswith name "u" = false -> startswith name "uni" = false.
Proof.
  destruct name as [|c name]; [done|]. simpl.
  destruct (Ascii.eqb c "u"); [|done]. by destruct name.
Qed.

(** X16. A name without [.] and [_] that is not in the glyph list and does
    not begin with [u] is refused with a [PDFKeyError] that says it does
    not match the specification. *)
Theorem name2unicode_no_match name :
  free_of "."%char name -> free_of "_"%char name ->
  glyphname2unicode !! name = None ->
  startswith name "u" = false ->
  name2unicode glyphname2unicode int16 name = inl (does_not_match name).
Proof.
  intros Hdot Hunder Hentry Hu. unfold name2unicode. cbn [name2unicode_rec].
  rewrite (cut_of_free _ Hdot), (str_split_free _ _ Hunder), Hentry.
  by rewrite (startswith_uni_u _ Hu), Hu.
Qed.

(** A code point that [chr] gives and the surrogate check lets through. *)
Local Abbreviation scalar cp :=
  ((0 <= cp <= 1114111)%Z /\ ~ (55295 < cp < 57344)%Z).

Lemma each_chr_inr digits chars :
  each chr digits = inr chars ->
  concat chars = digits /\ Forall (fun d => (0 <= d <= 1114111)%Z) digits.
Proof.
  revert chars. induction digits as [|d digits IH]; intros chars; simpl.
  - intros [= <-]. by split.
  - unfold chr at 1. destruct (_ || _); [done|].
    destruct (_ && _) eqn:Hrange; [|done]. simpl.
    destruct (each chr digits) as [e|chars'] eqn:Hrest; [done|]. simpl.
    intros [= <-]. destruct (IH chars' eq_refl) as [Hcat Hall].
    split; [simpl; by rewrite Hcat|].
    constructor; [lia|done].
Qed.

Lemma each_raise_inr digits oks :
  each raise_key_error_for_invalid_unicode digits = inr oks ->
  Forall (fun d => ~ (55295 < d < 57344)%Z) digits.
Proof.
  revert oks. induction digits as [|d digits IH]; intros oks; simpl; [done|].
  unfold raise_key_error_for_invalid_unicode at 1.
  destruct (_ && _) eqn:Hsur; [done|]. simpl.
  destruct (each _ digits) as [e|oks'] eqn:Hrest; [done|]. simpl.
  intros _. constructor; [lia|by eapply IH].
Qed.

Lemma leaf_scalar name characters :
  map_Forall (fun _ entry => Forall (fun cp => scalar cp) entry) glyphname2unicode ->
  (1 <? length (components name))%nat = false ->
  rec 0 name = inr characters ->
  Forall (fun cp => scalar cp) characters.
Proof.
  intros Htable Hone. cbn [name2unicode_rec]. rewrite Hone.
  destruct (glyphname2unicode !! cut name) as [entry|] eqn:Hentry.
  { intros [= <-]. by apply (Htable _ _ Hentry). }
  destruct (startswith (cut name) "uni").
  - destruct (_ && _); [|done].
    destruct (each (int_base16 int16) _) as [e1|digits]; [done|]. simpl.
    destruct (each raise_key_error_for_invalid_unicode _) as [e2|oks] eqn:Hsur;
      [done|]. simpl.
    destruct (each chr _) as [e3|chars] eqn:Hchr; [done|]. simpl.
    intros [= <-]. apply each_chr_inr in Hchr as [-> Hrange].
    apply each_raise_inr in Hsur.
    apply Forall_forall. intros d Hd. rewrite Forall_forall in Hrange, Hsur. auto.
  - destruct (startswith (cut name) "u"); [|done].
    destruct (_ && _); [|done].
    destruct (int_base16 int16 _) as [e1|d]; [done|]. simpl.
    destruct (raise_key_error_for_invalid_unicode d) as [e2|ok] eqn:Hsur;
      [done|]. simpl.
    intros Hchr.
    assert (Hchrs : each chr [d] = inr [characters]) by (simpl; by rewrite Hchr).
    assert (Hsurs : each raise_key_error_for_invalid_unicode [d] = inr [ok])
      by (simpl; by rewrite Hsur).
    apply each_chr_inr in Hchrs as [Hcat Hrange].
    apply each_raise_inr in Hsurs.
    simpl in Hcat. rewrite app_nil_r in Hcat. subst characters.
    apply Forall_cons in Hrange as [Hrange _].
    apply Forall_cons in Hsurs as [Hsurs _].
    apply Forall_cons_2; [done|apply Forall_nil_2].
Qed.

(** X17. When the glyph list holds none, [name2unicode] returns no code
    point outside 0 .. 0x10FFFF and no surrogate (0xD800 .. 0xDFFF), for
    any name and any [int]. *)
Theorem name2unicode_scalar_values name characters :
  map_Forall (fun _ entry => Forall (fun cp => scalar cp) entry)
    glyphname2unicode ->
  name2unicode glyphname2unicode int16 name = inr characters ->
  Forall (fun cp => scalar cp) characters.
Proof.
  intros Htable. unfold name2unicode. rewrite rec_unfold.
  destruct (1 <? length (components name))%nat eqn:Hmany.
  - destruct (each (rec 0) (components name)) as [e|parts] eqn:Hparts; [done|].
    simpl. intros [= <-]. apply each_inr in Hparts.
    pose proof (components_simple name) as Hsimple.
    apply Forall_concat. clear Hmany. revert Hsimple.
    induction Hparts as [|c part cs parts Hc Hrest IH]; intros Hsimple;
      [apply Forall_nil_2|].
    apply Forall_cons in Hsimple as [[Hdot Hunder] Hsimple].
    apply Forall_cons_2; [|by apply IH].
    by apply (leaf_scalar c part Htable (simple_one_component c Hdot Hunder)).
  - intros Hleaf. apply (leaf_scalar (cut name)); [done| |done].
    by rewrite cut_idem.
Qed.

Local Abbreviation surrogate cp := (55295 < cp < 57344)%Z.

Lemma uni_leaf name :
  free_of "."%char name -> free_of "_"%char name ->
  glyphname2unicode !! name = None ->
  startswith name "uni" = true ->
  n2u name
  = let name_without_uni := strip uni name in
    if HEXADECIMAL_match name_without_uni
       && (String.length name_without_uni mod 4 =? 0)%nat then
      ebind (each (int_base16 int16) (chunks4 name_without_uni))
        (fun unicode_digits =>
           ebind (each raise_key_error_for_invalid_unicode unicode_digits)
             (fun _ =>
                ebind (each chr unicode_digits)
                  (fun characters => inr (concat characters))))
    else inl (does_not_match name).
Proof.
  intros Hdot Hunder Hentry Huni. unfold name2unicode. cbn [name2unicode_rec].
  by rewrite (cut_of_free _ Hdot), (str_split_free _ _ Hunder), Hentry, Huni.
Qed.

Lemma u_leaf name :
  free_of "."%char name -> free_of "_"%char name ->
  glyphname2unicode !! name = None ->
  startswith name "uni" = false -> startswith name "u" = true ->
  n2u name
  = let name_without_u := strip ["u"%char] name in
    if HEXADECIMAL_match name_without_u
       && (4 <=? String.length name_without_u)%nat
       && (String.length name_without_u <=? 6)%nat then
      ebind (int_base16 int16 name_without_u)
        (fun unicode_digit =>
           ebind (raise_key_error_for_invalid_unicode unicode_digit)
             (fun _ => chr unicode_digit))
    else inl (does_not_match name).
Proof.
  intros Hdot Hunder Hentry Huni Hu. unfold name2unicode. cbn [name2unicode_rec].
  by rewrite (cut_of_free _ Hdot), (str_split_free _ _ Hunder), Hentry, Huni, Hu.
Qed.

Lemma hex_free_dot h : all_chars is_hex h = true -> free_of "."%char h.
Proof. apply all_chars_impl. intros c. apply is_hex_not_dot. Qed.

Lemma hex_free_underscore h : all_chars is_hex h = true -> free_of "_"%char h.
Proof. apply all_chars_impl. intros c. apply is_hex_not_underscore. Qed.

Lemma startswith_app prefix s : startswith (prefix +:+ s) prefix = true.
Proof.
  induction prefix as [|c prefix IH]; [by destruct s|].
  rewrite string_app_cons. cbn [startswith]. by rewrite Ascii.eqb_refl, IH.
Qed.

Lemma hex_match h :
  h <> EmptyString -> all_chars is_hex h = true -> HEXADECIMAL_match h = true.
Proof. destruct h as [|c h]; [done|]. simpl. by intros _ [Hc _]%andb_true_iff. Qed.

Lemma each_map_inr {A B} (f : A -> Error + B) (g : A -> B) l :
  Forall (fun x => f x = inr (g x)) l -> each f l = inr (map g l).
Proof. induction 1 as [|x l Hx _ IH]; [done|]. simpl. by rewrite Hx, IH. Qed.

Lemma concat_singletons {A} (l : list A) : concat (map (fun x => [x]) l) = l.
Proof. induction l as [|x l IH]; [done|]. simpl. by rewrite IH. Qed.

(** X18. The form [uni] followed by groups of four hexadecimal digits,
    when the name is not in the glyph list: one code point for each group
    when none of them is a surrogate, and a [PDFKeyError] as soon as one
    is. *)
Theorem name2unicode_uni groups :
  int16_spec int16 ->
  groups <> [] -> quads groups ->
  glyphname2unicode !! ("uni" +:+ String.concat EmptyString groups) = None ->
  (Forall (fun g => ~ surrogate (hex_value g)) groups ->
   name2unicode glyphname2unicode int16
     ("uni" +:+ String.concat EmptyString groups)
   = inr (map hex_value groups))
  /\ (Exists (fun g => surrogate (hex_value g)) groups ->
      exists msg,
        name2unicode glyphname2unicode int16
          ("uni" +:+ String.concat EmptyString groups)
        = inl (PDFKeyError msg)).
Proof.
  intros [Hint _] Hne Hquads Hentry.
  set (h := String.concat EmptyString groups) in *.
  pose proof (quads_hex _ Hquads) as Hhex. fold h in Hhex.
  assert (Hh : h <> EmptyString).
  { intros Hempty. pose proof (quads_length _ Hquads) as Hlen. fold h in Hlen.
    rewrite Hempty in Hlen. destruct groups; [done|]. simpl in Hlen. lia. }
  assert (Hstrip : strip uni ("uni" +:+ h) = h).
  { rewrite <- (append_nil_r h) at 1.
    apply strip_between; [done| |done..].
    eapply all_chars_impl; [|exact Hhex].
    intros c Hc. by rewrite (is_hex_not_uni c Hc). }
  assert (Hrun : n2u ("uni" +:+ h)
                 = ebind (each raise_key_error_for_invalid_unicode
                            (map hex_value groups))
                     (fun _ => inr (map hex_value groups))).
  { rewrite uni_leaf; [|by rewrite all_chars_app, (hex_free_dot _ Hhex)
                        |by rewrite all_chars_app, (hex_free_underscore _ Hhex)
                        |done|apply startswith_app].
    cbv zeta. rewrite Hstrip, (hex_match _ Hh Hhex).
    unfold h at 1. rewrite (quads_length _ Hquads), Nat.mul_comm, Nat.Div0.mod_mul.
    cbn [andb Nat.eqb]. unfold h. rewrite (chunks4_concat _ Hquads).
    rewrite (each_map_inr _ hex_value).
    2:{ eapply Forall_impl; [exact Hquads|]. intros g [Hlen Hg].
        unfold int_base16. rewrite Hint; [done| |done]. by destruct g. }
    cbn [ebind]. destruct (each raise_key_error_for_invalid_unicode _); [done|].
    cbn [ebind]. rewrite (each_map_inr _ (fun v => [v])).
    - cbn [ebind]. by rewrite concat_singletons.
    - apply Forall_map. eapply Forall_impl; [exact Hquads|]. intros g [Hlen Hg].
      pose proof (hex_value_range g Hg) as Hrange. rewrite Hlen in Hrange.
      change (16 ^ Z.of_nat 4)%Z with 65536%Z in Hrange.
      unfold chr.
      replace ((hex_value g <? -2147483648) || (2147483647 <? hex_value g))%Z
        with false by lia.
      by replace ((0 <=? hex_value g) && (hex_value g <=? 1114111))%Z
        with true by lia. }
  rewrite Hrun. split.
  - intros Hok. rewrite (each_map_inr _ (fun _ => tt)); [done|].
    apply Forall_map. eapply Forall_impl; [exact Hok|]. intros g Hg.
    simpl in Hg |- *. unfold raise_key_error_for_invalid_unicode.
    by replace ((55295 <? hex_value g) && (hex_value g <? 57344))%Z
      with false by lia.
  - intros Hbad.
    destruct (each raise_key_error_for_invalid_unicode _) as [e|oks] eqn:Hsur.
    + apply each_inl, Exists_exists in Hsur as (d & _ & Hd).
      apply raise_key_error_error in Hd as [msg ->]. by exists msg.
    + apply each_raise_inr in Hsur. rewrite Forall_map in Hsur.
      apply Exists_exists in Hbad as (g & Hin & Hg).
      rewrite Forall_forall in Hsur. by destruct (Hsur g Hin).
Qed.

(** X19. The form [u] followed by four to six hexadecimal digits, when the
    name is not in the glyph list: the code point of the digits; a
    [PDFKeyError] for a surrogate; [ValueError], which [chr] raises, above
    0x10FFFF. *)
Theorem name2unicode_u h :
  int16_spec int16 ->
  all_chars is_hex h = true ->
  (4 <= String.length h <= 6)%nat ->
  glyphname2unicode !! ("u" +:+ h) = None ->
  (surrogate (hex_value h) ->
   exists msg,
     name2unicode glyphname2unicode int16 ("u" +:+ h) = inl (PDFKeyError msg))
  /\ ((1114111 < hex_value h)%Z ->
      name2unicode glyphname2unicode int16 ("u" +:+ h) = inl ValueError)
  /\ (~ surrogate (hex_value h) -> (hex_value h <= 1114111)%Z ->
      name2unicode glyphname2unicode int16 ("u" +:+ h) = inr [hex_value h]).
Proof.
  intros [Hint _] Hhex Hlen Hentry.
  assert (Hh : h <> EmptyString) by (intros ->; simpl in Hlen; lia).
  assert (Hstrip : strip ["u"%char] ("u" +:+ h) = h).
  { rewrite <- (append_nil_r h) at 1.
    apply strip_between; [done| |done..].
    eapply all_chars_impl; [|exact Hhex].
    intros c Hc. by rewrite (is_hex_not_u c Hc). }
  assert (Hrun : n2u ("u" +:+ h)
                 = ebind (raise_key_error_for_invalid_unicode (hex_value h))
                     (fun _ => chr (hex_value h))).
  { rewrite u_leaf; [|by rewrite all_chars_app, (hex_free_dot _ Hhex)
                      |by rewrite all_chars_app, (hex_free_underscore _ Hhex)
                      |done| |apply startswith_app].
    - cbv zeta. rewrite Hstrip, (hex_match _ Hh Hhex).
      rewrite (proj2 (Nat.leb_le _ _) (proj1 Hlen)).
      rewrite (proj2 (Nat.leb_le _ _) (proj2 Hlen)). cbn [andb].
      unfold int_base16. by rewrite Hint.
    - destruct h as [|c h]; [done|]. cbn [all_chars] in Hhex.
      apply andb_true_iff in Hhex as [Hc _].
      rewrite !string_app_cons. cbn [startswith].
      destruct c as [[] [] [] [] [] [] [] []]; done. }
  pose proof (hex_value_range h Hhex) as Hrange.
  assert (Hsmall : (hex_value h < 16777216)%Z).
  { eapply Z.lt_le_trans; [exact (proj2 Hrange)|].
    change 16777216%Z with (16 ^ Z.of_nat 6)%Z.
    apply Z.pow_le_mono_r; lia. }
  rewrite Hrun. unfold raise_key_error_for_invalid_unicode, chr.
  replace ((hex_value h <? -2147483648) || (2147483647 <? hex_value h))%Z
    with false by lia.
  split; [|split].
  - intros Hsur.
    replace ((55295 <? hex_value h) && (hex_value h <? 57344))%Z with true by lia.
    by eexists.
  - intros Hbig.
    replace ((55295 <? hex_value h) && (hex_value h <? 57344))%Z with false by lia.
    cbn [ebind].
    by replace ((0 <=? hex_value h) && (hex_value h <=? 1114111))%Z
      with false by lia.
  - intros Hsur Hfits.
    replace ((55295 <? hex_value h) && (hex_value h <? 57344))%Z with false by lia.
    cbn [ebind].
    by replace ((0 <=? hex_value h) && (hex_value h <=? 1114111))%Z
      with true by lia.
Qed.

(** X20. [name.strip("uni")] takes the letters u, n and i off both ends,
    not the prefix [uni]: further such letters before or after the digits
    of a [uni] name change nothing. *)
Theorem name2unicode_uni_strip pre h post :
  all_chars (is_in uni) pre = true ->
  all_chars (is_in uni) post = true ->
  h <> EmptyString -> all_chars is_hex h = true ->
  (String.length h mod 4 = 0)%nat ->
  glyphname2unicode !! ("uni" +:+ pre +:+ h +:+ post) = None ->
  glyphname2unicode !! ("uni" +:+ h) = None ->
  name2unicode glyphname2unicode int16 ("uni" +:+ pre +:+ h +:+ post)
  = name2unicode glyphname2unicode int16 ("uni" +:+ h).
Proof.
  intros Hpre Hpost Hh Hhex Hlen Hentry Hentry'.
  assert (Hkept : all_chars (fun c => negb (is_in uni c)) h = true).
  { eapply all_chars_impl; [|exact Hhex].
    intros c Hc. by rewrite (is_hex_not_uni c Hc). }
  assert (Hstrip : strip uni ("uni" +:+ pre +:+ h +:+ post) = h).
  { change ("uni" +:+ pre +:+ h +:+ post)
      with (String "u" (String "n" (String "i" (pre +:+ h +:+ post)))).
    change (String "u" (String "n" (String "i" (pre +:+ h +:+ post))))
      with (("uni" +:+ pre) +:+ h +:+ post).
    apply strip_between; [done..| |done].
    by rewrite all_chars_app, Hpre. }
  assert (Hstrip' : strip uni ("uni" +:+ h) = h).
  { rewrite <- (append_nil_r h) at 1. by apply strip_between. }
  assert (Hfree : forall p : ascii -> bool,
             (forall c, is_hex c = true -> p c = true) ->
             (forall c, is_in uni c = true -> p c = true) ->
             all_chars p ("uni" +:+ pre +:+ h +:+ post) = true
             /\ all_chars p ("uni" +:+ h) = true).
  { intros p Hp Hq.
    assert (all_chars p "uni" = true) as Huni.
    { cbn [all_chars]. by rewrite !Hq. }
    rewrite !all_chars_app, Huni.
    rewrite (all_chars_impl _ _ _ Hq Hpre), (all_chars_impl _ _ _ Hq Hpost).
    by rewrite (all_chars_impl _ _ _ Hp Hhex). }
  destruct (Hfree _ is_hex_not_dot is_uni_not_dot) as [Hdot Hdot'].
  destruct (Hfree _ is_hex_not_underscore is_uni_not_underscore)
    as [Hunder Hunder'].
  rewrite (uni_leaf _ Hdot Hunder Hentry)
    by apply (startswith_app "uni" (pre +:+ h +:+ post)).
  rewrite (uni_leaf _ Hdot' Hunder' Hentry') by apply startswith_app.
  cbv zeta. rewrite Hstrip, Hstrip'.
  by rewrite (hex_match _ Hh Hhex), Hlen.
Qed.

Lemma chunks4_short_upto n s :
  (String.length s <= n)%nat ->
  Forall (fun g => (String.length g <= 4)%nat) (chunks4 s).
Proof.
  revert s. induction n as [n IH] using lt_wf_ind. intros s Hn.
  destruct s as [|a [|b [|c [|d rest]]]]; cbn [chunks4];
    repeat first [apply Forall_cons_2 | apply Forall_nil_2]; simpl; try lia.
  apply (IH (String.length rest)); simpl in Hn; lia.
Qed.

Lemma chunks4_short s :
  Forall (fun g => (String.length g <= 4)%nat) (chunks4 s).
Proof. by apply (chunks4_short_upto (String.length s)). Qed.

Lemma chr_fits i e bound :
  (Z.abs i < 16 ^ Z.of_nat bound)%Z -> (bound <= 6)%nat ->
  chr i = inl e -> e = ValueError.
Proof.
  intros Hi Hbound. unfold chr.
  assert (16 ^ Z.of_nat bound <= 16 ^ Z.of_nat 6)%Z
    by (apply Z.pow_le_mono_r; lia).
  change (16 ^ Z.of_nat 6)%Z with 16777216%Z in *.
  replace ((i <? -2147483648) || (2147483647 <? i))%Z with false by lia.
  destruct (_ && _); [done|]. by intros [= <-].
Qed.

Lemma leaf_error_kind name e :
  int16_spec int16 ->
  (1 <? length (components name))%nat = false ->
  rec 0 name = inl e -> e = ValueError \/ exists msg, e = PDFKeyError msg.
Proof.
  intros [_ Hsize] Hone. cbn [name2unicode_rec]. rewrite Hone.
  destruct (glyphname2unicode !! cut name); [done|].
  destruct (startswith (cut name) "uni").
  - destruct (_ && _); [|intros [= <-]; right; by eexists].
    destruct (each (int_base16 int16) _) as [e1|digits] eqn:Hints; simpl.
    { intros [= <-]. apply each_inl, Exists_exists in Hints as (g & _ & Hg).
      left. by apply int_base16_error in Hg. }
    destruct (each raise_key_error_for_invalid_unicode _) as [e2|oks] eqn:Hsur; simpl.
    { intros [= <-]. apply each_inl, Exists_exists in Hsur as (d & _ & Hd).
      right. by apply raise_key_error_error in Hd. }
    destruct (each chr _) as [e3|chars] eqn:Hchr; simpl; [|done].
    intros [= <-]. apply each_inl, Exists_exists in Hchr as (d & Hin & Hd).
    left. apply each_inr in Hints.
    apply (list_elem_of_lookup_1 digits) in Hin as [i Hi].
    destruct (Forall2_lookup_r _ _ _ _ _ Hints Hi) as (g & Hg & Hconv).
    unfold int_base16 in Hconv.
    destruct (int16 g) as [d'|] eqn:Hint; [|done]. injection Hconv as ->.
    pose proof (chunks4_short (strip uni (cut name))) as Hshort.
    rewrite Forall_forall in Hshort.
    specialize (Hshort g (list_elem_of_lookup_2 _ _ _ Hg)).
    apply (chr_fits d e3 (String.length g)); [by apply Hsize|lia|done].
  - destruct (startswith (cut name) "u"); [|intros [= <-]; right; by eexists].
    destruct (_ && _ && _) eqn:Hform; [|intros [= <-]; right; by eexists].
    apply andb_true_iff in Hform as [_ Hlen%Nat.leb_le].
    unfold int_base16.
    destruct (int16 _) as [d|] eqn:Hint; simpl; [|intros [= <-]; by left].
    destruct (raise_key_error_for_invalid_unicode d) as [e2|ok] eqn:Hsur; simpl.
    { intros [= <-]. right. by apply raise_key_error_error in Hsur. }
    intros Hchr. left.
    apply (chr_fits d e (String.length (strip ["u"%char] (cut name))));
      [by apply Hsize|done|done].
Qed.

(** X21. With Python's [int], whatever [name2unicode] raises is a
    [PDFKeyError] or a [ValueError]: [chr] never sees a number beyond a C
    int, since it is given four digits of a [uni] name or the at most six
    of a [u] name. *)
Theorem name2unicode_raises name e :
  int16_spec int16 ->
  name2unicode glyphname2unicode int16 name = inl e ->
  e = ValueError \/ exists msg, e = PDFKeyError msg.
Proof.
  intros Hint. unfold name2unicode. rewrite rec_unfold.
  destruct (1 <? length (components name))%nat eqn:Hmany.
  - destruct (each (rec 0) (components name)) as [e'|parts] eqn:Hparts; [|done].
    simpl. intros [= ->].
    apply each_inl, Exists_exists in Hparts as (c & Hc & Hraise).
    pose proof (components_simple name) as Hsimple.
    rewrite Forall_forall in Hsimple. destruct (Hsimple c Hc) as [Hdot Hunder].
    by apply (leaf_error_kind c e Hint (simple_one_component c Hdot Hunder)).
  - intros Hraise. apply (leaf_error_kind (cut name) e Hint); [|done].
    by rewrite cut_idem.
Qed.

(** What [cid2unicode_from_encoding] keeps of a name. *)
Local Abbreviation converted name :=
  (match n2u name with inr characters => Some characters | inl _ => None end).

Local Abbreviation keep acc entry :=
  (match converted (snd entry) with
   | Some characters => <[fst entry := characters]> acc
   | None => acc
   end).

Lemma cid2unicode_fold (entries : list (Z * string)) (acc : gmap Z ustring) :
  int16_spec int16 ->
  fold_left (cid2unicode_step glyphname2unicode int16) entries (inr acc)
  = inr (fold_left (fun acc entry => keep acc entry) entries acc).
Proof.
  intros Hint. revert acc. induction entries as [|[cid name] entries IH];
    intros acc; [done|].
  cbn [fold_left]. unfold cid2unicode_step at 2. cbn [ebind fst snd].
  destruct (n2u name) as [e|characters] eqn:Hname; [|apply IH].
  destruct (name2unicode_raises name e Hint Hname) as [-> | [msg ->]]; apply IH.
Qed.

Lemma keep_fold_lookup (entries : list (Z * string)) (acc : gmap Z ustring) k :
  NoDup entries.*1 ->
  fold_left (fun acc entry => keep acc entry) entries acc !! k
  = match (list_to_map entries : gmap Z string) !! k with
    | Some name =>
      match converted name with
      | Some characters => Some characters
      | None => acc !! k
      end
    | None => acc !! k
    end.
Proof.
  revert acc. induction entries as [|[cid name] entries IH]; intros acc Hnodup.
  - simpl. by rewrite lookup_empty.
  - rewrite fmap_cons in Hnodup. apply NoDup_cons in Hnodup as [Hfresh Hnodup].
    apply not_elem_of_list_to_map_1 in Hfresh. simpl in Hfresh.
    simpl. rewrite (IH _ Hnodup).
    destruct (decide (k = cid)) as [->|Hk].
    + rewrite lookup_insert_eq, Hfresh.
      destruct (n2u name); [done|]. by rewrite lookup_insert_eq.
    + rewrite lookup_insert_ne by done.
      destruct (n2u name); [done|]. by rewrite lookup_insert_ne.
Qed.

(** X22. With Python's [int], [cid2unicode_from_encoding] never raises:
    it returns the entries whose names [name2unicode] converts, each with
    its conversion, and leaves out the others. *)
Theorem cid2unicode_from_encoding_converted (encoding : gmap Z string) :
  int16_spec int16 ->
  cid2unicode_from_encoding glyphname2unicode int16 encoding
  = inr (omap (fun name => converted name) encoding).
Proof.
  intros Hint. unfold cid2unicode_from_encoding.
  rewrite (cid2unicode_fold _ _ Hint). f_equal. apply map_eq. intros k.
  rewrite keep_fold_lookup by apply NoDup_fst_map_to_list.
  rewrite list_to_map_to_list, lookup_omap, lookup_empty.
  destruct (encoding !! k) as [name|]; [|done]. simpl.
  by destruct (n2u name).
Qed.

End NameToUnicode.

(** *** [EncodingDB] *)

Local Abbreviation name_of row := (row.1.1.1.1).
Local Abbreviation std_of row := (row.1.1.1.2).
Local Abbreviation mac_of row := (row.1.1.2).
Local Abbreviation win_of row := (row.1.2).
Local Abbreviation pdf_of row := (row.2).

(** The row that fills entry [c] of a table: the last one with code [c]
    in the column of the table. *)
Local Abbreviation fills col ENCODING c name :=
  (exists before row after,
      ENCODING = before ++ row :: after
      /\ name_of row = name /\ col row = Some c
      /\ Forall (fun later => col later <> Some c) after).

Lemma fills_snoc (col : EncodingRow -> option Z) ENCODING (last : EncodingRow) c name :
  col last <> Some c ->
  fills col (ENCODING ++ [last]) c name <-> fills col ENCODING c name.
Proof.
  intros Hlast. split.
  - intros (before & row & after & Hrows & Hname & Hcode & Hlater).
    destruct (decide (after = [])) as [->|Hafter].
    + apply app_inj_tail in Hrows as [_ <-]. done.
    + destruct (exists_last Hafter) as (after' & last' & ->).
      rewrite app_comm_cons, app_assoc in Hrows.
      apply app_inj_tail in Hrows as [-> <-].
      apply Forall_app in Hlater as [Hlater _].
      by exists before, row, after'.
  - intros (before & row & after & -> & Hname & Hcode & Hlater).
    exists before, row, (after ++ [last]). rewrite <- app_assoc.
    repeat split; [done..|].
    apply Forall_app. split; [done|]. by apply Forall_cons_2; [|apply Forall_nil_2].
Qed.

Lemma build_column (col : EncodingRow -> option Z) (tab : Tables -> gmap Z string)
    ENCODING start c name :
  (forall t row, tab (add_row t row) = put (col row) (name_of row) (tab t)) ->
  tab start = ∅ ->
  tab (fold_left add_row ENCODING start) !! c = Some name
  <-> c <> 0%Z /\ fills col ENCODING c name.
Proof.
  intros Hstep Hstart. induction ENCODING as [|last ENCODING IH] using rev_ind.
  - simpl. rewrite Hstart, lookup_empty. split; [done|].
    intros (_ & before & row & after & Hrows & _). by destruct before.
  - rewrite fold_left_app. cbn [fold_left]. rewrite Hstep. unfold put.
    destruct (col last) as [c'|] eqn:Hcol.
    + destruct (c' =? 0)%Z eqn:Hzero.
      * apply Z.eqb_eq in Hzero as ->. rewrite IH. split.
        -- intros [Hc Hfills]. split; [done|]. apply fills_snoc; congruence.
        -- intros [Hc Hfills]. split; [done|].
           apply fills_snoc in Hfills; [done|congruence].
      * apply Z.eqb_neq in Hzero. destruct (decide (c = c')) as [<-|Hother].
        -- rewrite lookup_insert_eq. split.
           ++ intros [= <-]. split; [done|].
              exists ENCODING, last, []. repeat split; [done|apply Forall_nil_2].
           ++ intros (_ & before & row & after & Hrows & Hname & Hcode & Hlater).
              destruct (decide (after = [])) as [->|Hafter].
              ** apply app_inj_tail in Hrows as [_ <-]. by rewrite Hname.
              ** destruct (exists_last Hafter) as (after' & last' & ->).
                 rewrite app_comm_cons, app_assoc in Hrows.
                 apply app_inj_tail in Hrows as [_ <-].
                 apply Forall_app in Hlater as [_ Hlast].
                 apply Forall_cons in Hlast as [Hlast _]. done.
        -- rewrite lookup_insert_ne by done. rewrite IH. split.
           ++ intros [Hc Hfills]. split; [done|]. apply fills_snoc; congruence.
           ++ intros [Hc Hfills]. split; [done|].
              apply fills_snoc in Hfills; [done|congruence].
    + rewrite IH. split.
      * intros [Hc Hfills]. split; [done|]. apply fills_snoc; congruence.
      * intros [Hc Hfills]. split; [done|].
        apply fills_snoc in Hfills; [done|congruence].
Qed.

(** X23. The tables of [EncodingDB]: an entry [c] of a table holds the
    name of the last row of [ENCODING] whose code in the column of that
    table is [c]; a row without a code there, or with code 0, adds
    nothing, so no table has an entry 0. *)
Theorem build_last_row_wins ENCODING c name :
  (std2unicode (build ENCODING) !! c = Some name
   <-> c <> 0%Z /\ fills (fun row => std_of row) ENCODING c name)
  /\ (mac2unicode (build ENCODING) !! c = Some name
      <-> c <> 0%Z /\ fills (fun row => mac_of row) ENCODING c name)
  /\ (win2unicode (build ENCODING) !! c = Some name
      <-> c <> 0%Z /\ fills (fun row => win_of row) ENCODING c name)
  /\ (pdf2unicode (build ENCODING) !! c = Some name
      <-> c <> 0%Z /\ fills (fun row => pdf_of row) ENCODING c name).
Proof.
  unfold build.
  split; [|split; [|split]].
  - apply (build_column (fun row => std_of row) std2unicode);
      [by intros t [[[[n s] m] w] p]|done].
  - apply (build_column (fun row => mac_of row) mac2unicode);
      [by intros t [[[[n s] m] w] p]|done].
  - apply (build_column (fun row => win_of row) win2unicode);
      [by intros t [[[[n s] m] w] p]|done].
  - apply (build_column (fun row => pdf_of row) pdf2unicode);
      [by intros t [[[[n s] m] w] p]|done].
Qed.

Lemma apply_diff_literals names cid encoding k :
  apply_diff (map DLiteral names) cid encoding !! k
  = if bool_decide (cid <= k < cid + Z.of_nat (length names))%Z
    then names !! Z.to_nat (k - cid)
    else encoding !! k.
Proof.
  revert cid encoding. induction names as [|name names IH]; intros cid encoding.
  - simpl. rewrite bool_decide_eq_false_2 by lia. done.
  - cbn [map apply_diff]. rewrite IH. cbn [length].
    destruct (decide (k = cid)) as [->|Hk].
    + rewrite bool_decide_eq_false_2 by lia.
      rewrite bool_decide_eq_true_2 by lia.
      rewrite lookup_insert_eq, Z.sub_diag. done.
    + rewrite lookup_insert_ne by done.
      destruct (decide (cid + 1 <= k < cid + 1 + Z.of_nat (length names))%Z)
        as [Hin|Hout].
      * rewrite !bool_decide_eq_true_2 by lia.
        replace (Z.to_nat (k - cid)) with (S (Z.to_nat (k - (cid + 1)))) by lia.
        done.
      * rewrite !bool_decide_eq_false_2 by lia. done.
Qed.

(** X24. A [Differences] array of a code followed by names gives the names
    to that code and the ones after it, and leaves the other entries of
    the base encoding as they are; names without a code before them start
    at 0. *)
Theorem get_encoding_differences cls base start names k :
  get_encoding cls base (Some (DInt start :: map DLiteral names)) !! k
  = (if bool_decide (start <= k < start + Z.of_nat (length names))%Z
     then names !! Z.to_nat (k - start)
     else get_encoding cls base None !! k)
  /\ get_encoding cls base (Some (map DLiteral names))
     = get_encoding cls base (Some (DInt 0 :: map DLiteral names)).
Proof.
  split.
  - unfold get_encoding. cbn [apply_diff]. apply apply_diff_literals.
  - unfold get_encoding. by destruct names.
Qed.

Lemma apply_diff_app first rest cid c encoding :
  apply_diff (first ++ DInt c :: rest) cid encoding
  = apply_diff rest c (apply_diff first cid encoding).
Proof.
  revert cid encoding. induction first as [|[x|name|] first IH];
    intros cid encoding; cbn [app apply_diff]; by rewrite ?IH.
Qed.

(** X25. A [Differences] array can be applied in pieces: cut before any
    of its codes, the array gives what its second part gives on the result
    of the first. *)
Theorem get_encoding_in_pieces cls base first c rest :
  get_encoding cls base (Some (first ++ DInt c :: rest))
  = get_encoding cls (BaseDict (get_encoding cls base (Some first)))
      (Some (DInt c :: rest)).
Proof.
  unfold get_encoding at 1 2.
  assert (Hshape : exists x items, first ++ DInt c :: rest = x :: items)
    by (destruct first; eauto).
  destruct Hshape as (x & items & Hshape). rewrite Hshape, <- Hshape.
  rewrite apply_diff_app. cbn [apply_diff get_encoding]. by destruct first.
Qed.

Lemma apply_diff_others diff cid encoding :
  apply_diff diff cid encoding
  = apply_diff
      (List.filter (fun x => match x with DOther => false | _ => true end) diff)
      cid encoding.
Proof.
  revert cid encoding. induction diff as [|[x|name|] diff IH];
    intros cid encoding; cbn [List.filter apply_diff]; by rewrite ?IH.
Qed.

(** X26. What is neither an [int] nor a literal in a [Differences] array
    is passed over: the encoding is that of the array without it. *)
Theorem get_encoding_skips_others cls base diff :
  get_encoding cls base (Some diff)
  = get_encoding cls base
      (Some (List.filter (fun x => match x with DOther => false | _ => true end)
               diff)).
Proof.
  unfold get_encoding.
  set (kept := List.filter _ diff).
  assert (Heq : forall encoding,
             apply_diff diff 0 encoding = apply_diff kept 0 encoding)
    by (intros; apply apply_diff_others).
  destruct diff as [|x diff]; [done|]. rewrite Heq.
  destruct kept; done.
Qed.

(** X27. The base encoding: the table of the name for the four names
    [EncodingDB] has, and the standard table for any other name. *)
Theorem get_encoding_base cls name diff :
  get_encoding cls (BaseLiteral name) diff
  = get_encoding cls
      (BaseDict
         (if String.eqb name "StandardEncoding" then std2unicode cls
          else if String.eqb name "MacRomanEncoding" then mac2unicode cls
          else if String.eqb name "WinAnsiEncoding" then win2unicode cls
          else if String.eqb name "PDFDocEncoding" then pdf2unicode cls
          else std2unicode cls))
      diff.
Proof.
  unfold get_encoding, encodings.
  assert (Hbase :
    default (std2unicode cls)
      (({[ "StandardEncoding"%string := std2unicode cls;
           "MacRomanEncoding"%string := mac2unicode cls;
           "WinAnsiEncoding"%string := win2unicode cls;
           "PDFDocEncoding"%string := pdf2unicode cls ]}
        : gmap string (gmap Z string)) !! name)
    = (if String.eqb name "StandardEncoding" then std2unicode cls
       else if String.eqb name "MacRomanEncoding" then mac2unicode cls
       else if String.eqb name "WinAnsiEncoding" then win2unicode cls
       else if String.eqb name "PDFDocEncoding" then pdf2unicode cls
       else std2unicode cls)).
  { destruct (String.eqb_spec name "StandardEncoding") as [->|H1];
      [by rewrite lookup_insert_eq|rewrite lookup_insert_ne by done].
    destruct (String.eqb_spec name "MacRomanEncoding") as [->|H2];
      [by rewrite lookup_insert_eq|rewrite lookup_insert_ne by done].
    destruct (String.eqb_spec name "WinAnsiEncoding") as [->|H3];
      [by rewrite lookup_insert_eq|rewrite lookup_insert_ne by done].
    destruct (String.eqb_spec name "PDFDocEncoding") as [->|H4];
      [by rewrite lookup_singleton_eq|by rewrite lookup_singleton_ne]. }
  by rewrite Hbase.
Qed.

(** ** The conversions on sample names *)

Lemma int16_digits_spec : int16_spec int16_digits.
Proof.
  split.
  - intros s Hs Hhex. unfold int16_digits. rewrite Hhex. by destruct s.
  - intros s i. unfold int16_digits. destruct s as [|c s]; [done|].
    destruct (all_chars is_hex (String c s)) eqn:Hhex; [|done].
    intros [= <-]. pose proof (hex_value_range _ Hhex). lia.
Qed.

(** Two levels of recursion are no more than one. *)
Lemma name2unicode_depth_witness :
  name2unicode_rec Sample.glyphname2unicode int16_digits 2 "A_space"
  = name2unicode Sample.glyphname2unicode int16_digits "A_space"
  /\ name2unicode Sample.glyphname2unicode int16_digits "A_space"
     <> inl RecursionDepth.
Proof.
  apply (name2unicode_depth Sample.glyphname2unicode int16_digits 2 "A_space").
  lia.
Defined.

(** [A.sc] is [A]. *)
Lemma name2unicode_suffix_witness :
  name2unicode Sample.glyphname2unicode int16_digits ("A" +:+ "." +:+ "sc")
  = name2unicode Sample.glyphname2unicode int16_digits "A".
Proof.
  apply (name2unicode_suffix Sample.glyphname2unicode int16_digits "A" "sc").
  reflexivity.
Defined.

(** [A_space] is [A] followed by [space]. *)
Lemma name2unicode_compound_witness :
  name2unicode Sample.glyphname2unicode int16_digits
    (String.concat "_" ["A"; "space"]%string)
  = inr (concat [[65]; [32]])%Z.
Proof.
  assert (Hmany : (1 < length ["A"; "space"]%string)%nat) by (simpl; lia).
  assert (Hsimple : Forall (fun c => all_chars (fun a => negb (Ascii.eqb a ".")) c = true
                                     /\ all_chars (fun a => negb (Ascii.eqb a "_")) c = true)
                      ["A"; "space"]%string).
  { repeat first [apply Forall_cons_2 | apply Forall_nil_2]; split; reflexivity. }
  destruct (name2unicode_compound Sample.glyphname2unicode int16_digits
              ["A"; "space"]%string Hmany Hsimple) as [_ Hresults].
  apply (Hresults [[65]; [32]]%Z).
  repeat first [apply Forall2_cons_2 | apply Forall2_nil_2]; reflexivity.
Defined.

(** The ligature [fi] of the glyph list. *)
Lemma name2unicode_glyphlist_witness :
  name2unicode Sample.glyphname2unicode int16_digits "fi" = inr [102; 105]%Z.
Proof.
  apply (name2unicode_glyphlist Sample.glyphname2unicode int16_digits "fi");
    reflexivity.
Defined.

Lemma name2unicode_no_match_witness :
  name2unicode Sample.glyphname2unicode int16_digits "nonsense"
  = inl (does_not_match "nonsense").
Proof.
  apply (name2unicode_no_match Sample.glyphname2unicode int16_digits "nonsense");
    reflexivity.
Defined.

(** [u1F600] gives one code point, a scalar value. *)
Lemma name2unicode_scalar_values_witness :
  Forall (fun cp => (0 <= cp <= 1114111)%Z /\ ~ (55295 < cp < 57344)%Z)
    [128512%Z].
Proof.
  apply (name2unicode_scalar_values Sample.glyphname2unicode int16_digits
           "u1F600" [128512%Z]).
  - unfold Sample.glyphname2unicode.
    repeat (apply map_Forall_insert_2;
            [repeat first [apply Forall_cons_2 | apply Forall_nil_2]; lia|]).
    apply map_Forall_empty.
  - reflexivity.
Defined.

(** [uni00410042] is AB. *)
Lemma name2unicode_uni_witness :
  name2unicode Sample.glyphname2unicode int16_digits "uni00410042"
  = inr [65; 66]%Z.
Proof.
  apply (name2unicode_uni Sample.glyphname2unicode int16_digits
           ["0041"; "0042"]%string int16_digits_spec).
  - done.
  - repeat first [apply Forall_cons_2 | apply Forall_nil_2]; split; reflexivity.
  - reflexivity.
  - repeat first [apply Forall_cons_2 | apply Forall_nil_2];
      change (hex_value "0041") with 65%Z; change (hex_value "0042") with 66%Z;
      lia.
Defined.

(** [u1F600], five digits. *)
Lemma name2unicode_u_witness :
  name2unicode Sample.glyphname2unicode int16_digits "u1F600" = inr [128512%Z].
Proof.
  apply (name2unicode_u Sample.glyphname2unicode int16_digits "1F600"
           int16_digits_spec).
  - reflexivity.
  - simpl. lia.
  - reflexivity.
  - change (hex_value "1F600") with 128512%Z. lia.
  - change (hex_value "1F600") with 128512%Z. lia.
Defined.

(** [unin0041ii] is taken for [uni0041]. *)
Lemma name2unicode_uni_strip_witness :
  name2unicode Sample.glyphname2unicode int16_digits
    ("uni" +:+ "n" +:+ "0041" +:+ "ii")
  = name2unicode Sample.glyphname2unicode int16_digits ("uni" +:+ "0041").
Proof.
  apply (name2unicode_uni_strip Sample.glyphname2unicode int16_digits
           "n" "0041" "ii"); done.
Defined.

(** [uD800] is a surrogate. *)
Lemma name2unicode_raises_witness :
  PDFKeyError "Unicode digit 55296 is invalid because it is in the range D800 through DFFF"
  = ValueError
  \/ exists msg,
      PDFKeyError "Unicode digit 55296 is invalid because it is in the range D800 through DFFF"
      = PDFKeyError msg.
Proof.
  apply (name2unicode_raises Sample.glyphname2unicode int16_digits "uD800" _
           int16_digits_spec).
  reflexivity.
Defined.

(** Of the sample encoding two entries are kept. *)
Lemma cid2unicode_from_encoding_converted_witness :
  cid2unicode_from_encoding Sample.glyphname2unicode int16_digits Sample.encoding
  = inr {[ 65%Z := [65%Z]; 66%Z := [66%Z] ]}.
Proof.
  rewrite (cid2unicode_from_encoding_converted Sample.glyphname2unicode
             int16_digits Sample.encoding int16_digits_spec).
  vm_compute. reflexivity.
Defined.
